(** * Front_Learn (HearLearn): library store, page ingestion and player

    A shallow embedding of
      - utils/libraryManager.js  (module [Store]),
      - screens/LibraryScreen.js (module [Library]),
      - the player screen        (module [Player]).

    Granularity.  JavaScript runs one handler at a time; an [await] on a
    storage call gives the scheduler a chance to run another handler.  The
    model keeps two kinds of suspension visible, because the ingestion loop
    spends its time there: the network request for a page and the 10 ms
    timer between two pages.  Awaited storage calls are executed in place.
    Storage and file-system calls can fail: every primitive consumes one
    entry of a fault schedule carried by the world. *)

From Stdlib Require Import ZArith QArith Qminmax Floats Ascii String Lia.
From stdpp Require Import base option list gmap strings.

#[local] Open Scope Z_scope.

(* ===================================================================== *)
(** * Asynchronous code over a state: promises that may reject *)
(* ===================================================================== *)

Inductive Res (A : Type) := Ok (a : A) | Threw.
Arguments Ok {A} a.
Arguments Threw {A}.

Definition M (S A : Type) : Type := S -> Res A * S.

Definition ret {S A} (a : A) : M S A := fun s => (Ok a, s).
Definition throw {S A} : M S A := fun s => (Threw, s).
Definition bind {S A B} (c : M S A) (k : A -> M S B) : M S B :=
  fun s => match c s with
           | (Ok a, s') => k a s'
           | (Threw, s') => (Threw, s')
           end.
(** try { body } catch (e) { handler } *)
Definition tryCatch {S A} (body handler : M S A) : M S A :=
  fun s => match body s with
           | (Ok a, s') => (Ok a, s')
           | (Threw, s') => handler s'
           end.
Definition gets {S A} (f : S -> A) : M S A := fun s => (Ok (f s), s).
Definition modify {S} (f : S -> S) : M S unit := fun s => (Ok tt, f s).
(** An async function called without [await]: a rejection is not seen by
    the caller. *)
Definition fire {S A} (c : M S A) : M S unit :=
  fun s => (Ok tt, snd (c s)).

Notation "'await' x <- c ;; k" := (bind c (fun x => k))
  (at level 10, x name, c at level 99, k at level 200, only parsing).

(* ===================================================================== *)
(** * utils/libraryManager.js *)
(* ===================================================================== *)

Module Store.

(** status ∈ {'processing', 'ready', 'failed'} *)
Inductive Status := processing | ready | failed.

Definition Status_eq_dec : EqDecision Status := ltac:(solve_decision).
#[global] Existing Instance Status_eq_dec.

(** [response.data.dados] of /obter_dados_pagina, as far as the library
    screen inspects it: the ingestion stores the record as it comes and
    looks at [idioma] only.  [idioma = None] stands for an absent
    (undefined) field.  The page dimensions and the word boxes, which only
    the player reads, are not part of the record. *)
Record PageData := mkPage {
  texto_completo : string;
  idioma : option string;
  extraido_por_ocr : bool
}.

(** An entry of the array stored under '@HearLearn:library'.  A missing
    [bookmarks] / [annotations] / [listeningTime] field is read by the code
    as [[]] / [{}] / [0] ([x || default]); the record stores that value. *)
Record Book := mkBook {
  id_arquivo : string;
  nome_original : string;
  total_paginas : Z;
  status : Status;
  lastPosition : Z;
  listeningTime : Z;
  completed : bool;
  bookmarks : list Z;
  annotations : gmap Z string;
  localUri : option string
}.

Definition set_status (s : Status) (b : Book) : Book :=
  mkBook (id_arquivo b) (nome_original b) (total_paginas b) s
         (lastPosition b) (listeningTime b) (completed b)
         (bookmarks b) (annotations b) (localUri b).

Definition set_bookmarks (bm : list Z) (b : Book) : Book :=
  mkBook (id_arquivo b) (nome_original b) (total_paginas b) (status b)
         (lastPosition b) (listeningTime b) (completed b)
         bm (annotations b) (localUri b).

Definition set_annotations (an : gmap Z string) (b : Book) : Book :=
  mkBook (id_arquivo b) (nome_original b) (total_paginas b) (status b)
         (lastPosition b) (listeningTime b) (completed b)
         (bookmarks b) an (localUri b).

Definition set_reading (pos time : Z) (done : bool) (b : Book) : Book :=
  mkBook (id_arquivo b) (nome_original b) (total_paginas b) (status b)
         pos time done (bookmarks b) (annotations b) (localUri b).

(** The device: AsyncStorage's library key, the book-data directory (one
    JSON array of pages per book id), the copied PDF files, and the
    schedule of failures of the calls still to come ([true] = that call
    rejects; an exhausted schedule means no further failure). *)
Record World := mkWorld {
  storage : option (list Book);
  files : gmap string (list PageData);
  pdfs : gset string;
  faults : list bool
}.

Definition set_storage (v : option (list Book)) (w : World) : World :=
  mkWorld v (files w) (pdfs w) (faults w).
Definition set_files (f : gmap string (list PageData)) (w : World) : World :=
  mkWorld (storage w) f (pdfs w) (faults w).
Definition set_pdfs (p : gset string) (w : World) : World :=
  mkWorld (storage w) (files w) p (faults w).
Definition set_faults (fs : list bool) (w : World) : World :=
  mkWorld (storage w) (files w) (pdfs w) fs.

Definition IO (A : Type) : Type := M World A.

(** One native call: it rejects when the schedule says so. *)
Definition native : IO unit := fun w =>
  match faults w with
  | true :: fs => (Threw, set_faults fs w)
  | false :: fs => (Ok tt, set_faults fs w)
  | [] => (Ok tt, w)
  end.

Definition getItem : IO (option (list Book)) :=
  bind native (fun _ w => (Ok (storage w), w)).
Definition setItem (v : list Book) : IO unit :=
  bind native (fun _ w => (Ok tt, set_storage (Some v) w)).
Definition makeDirectoryAsync : IO unit := native.
Definition getInfoAsync (bookId : string) : IO bool :=
  bind native (fun _ w => (Ok (bool_decide (is_Some (files w !! bookId))), w)).
Definition readAsStringAsync (bookId : string) : IO (list PageData) :=
  bind native (fun _ w =>
    match files w !! bookId with
    | Some pages => (Ok pages, w)
    | None => (Threw, w)
    end).
Definition writeAsStringAsync (bookId : string) (pages : list PageData) : IO unit :=
  bind native (fun _ w => (Ok tt, set_files (<[bookId := pages]> (files w)) w)).
(** deleteAsync(path, { idempotent: true }) *)
Definition deleteAsync (bookId : string) : IO unit :=
  bind native (fun _ w => (Ok tt, set_files (delete bookId (files w)) w)).
Definition deletePdfAsync (uri : string) : IO unit :=
  bind native (fun _ w => (Ok tt, set_pdfs (pdfs w ∖ {[uri]}) w)).

(** ** The exported functions *)

Definition loadLibrary : IO (list Book) :=
  tryCatch
    (await jsonValue <- getItem ;;
     ret (match jsonValue with Some lib => lib | None => [] end))
    (ret []).

Definition saveLibrary (library : list Book) : IO unit := setItem library.

Definition loadBookPages (bookId : string) : IO (option (list PageData)) :=
  tryCatch
    (await fileExists <- getInfoAsync bookId ;;
     if fileExists
     then await content <- readAsStringAsync bookId ;; ret (Some content)
     else ret None)
    (ret None).

Definition appendPageData (bookId : string) (newPageData : PageData) : IO Z :=
  await _ <- makeDirectoryAsync ;;
  tryCatch
    (await loaded <- loadBookPages bookId ;;
     let existingPages := match loaded with Some ps => ps | None => [] end in
     let updatedPages := existingPages ++ [newPageData] in
     await _ <- writeAsStringAsync bookId updatedPages ;;
     ret (Z.of_nat (length updatedPages)))
    (ret 0).

Definition has_id (bookId : string) (b : Book) : bool :=
  bool_decide (id_arquivo b = bookId).

Definition newBook (metadata : Book) : Book :=
  mkBook (id_arquivo metadata) (nome_original metadata) (total_paginas metadata)
         processing 0 0 false [] ∅ (localUri metadata).

Definition saveBook (bookMetadata : Book) : IO unit :=
  tryCatch
    (await library <- loadLibrary ;;
     if existsb (has_id (id_arquivo bookMetadata)) library
     then ret tt
     else
       await _ <- saveLibrary (library ++ [newBook bookMetadata]) ;;
       await _ <- makeDirectoryAsync ;;
       writeAsStringAsync (id_arquivo bookMetadata) [])
    (ret tt).

Definition updateBookStatus (bookId : string) (st : Status) : IO unit :=
  tryCatch
    (await library <- loadLibrary ;;
     let newLibrary :=
       map (fun book => if has_id bookId book then set_status st book else book)
           library in
     saveLibrary newLibrary)
    (ret tt).

Definition removeBook (bookId : string) : IO unit :=
  tryCatch
    (await library <- loadLibrary ;;
     let bookToRemove := find (has_id bookId) library in
     let newLibrary := filter (fun book => id_arquivo book ≠ bookId) library in
     await _ <- saveLibrary newLibrary ;;
     await _ <- deleteAsync bookId ;;
     match bookToRemove ≫= localUri with
     | Some uri => deletePdfAsync uri
     | None => ret tt
     end)
    (ret tt).

Definition updateBookState (bookId : string) (pageIndex timeIncrement : Z) : IO unit :=
  tryCatch
    (await library <- loadLibrary ;;
     let newLibrary :=
       map (fun book =>
              if has_id bookId book then
                let isCompleted := total_paginas book - 1 <=? pageIndex in
                set_reading pageIndex (listeningTime book + timeIncrement)
                            (completed book || isCompleted) book
              else book)
           library in
     saveLibrary newLibrary)
    (ret tt).

(** [arr.sort((a, b) => a - b)]: a stable ascending sort. *)
Fixpoint insert_sorted (x : Z) (l : list Z) : list Z :=
  match l with
  | [] => [x]
  | y :: l' => if x <? y then x :: y :: l' else y :: insert_sorted x l'
  end.
Definition sort_asc (l : list Z) : list Z := foldr insert_sorted [] (rev l).

Definition includes (x : Z) (l : list Z) : bool := existsb (Z.eqb x) l.

Definition addBookmark (bookId : string) (pageIndex : Z) : IO unit :=
  tryCatch
    (await library <- loadLibrary ;;
     let newLibrary :=
       map (fun book =>
              if has_id bookId book then
                if negb (includes pageIndex (bookmarks book))
                then set_bookmarks (sort_asc (bookmarks book ++ [pageIndex])) book
                else book
              else book)
           library in
     saveLibrary newLibrary)
    (ret tt).

Definition removeBookmark (bookId : string) (pageIndex : Z) : IO unit :=
  tryCatch
    (await library <- loadLibrary ;;
     let newLibrary :=
       map (fun book =>
              if has_id bookId book then
                set_bookmarks
                  (List.filter (fun p => negb (p =? pageIndex)) (bookmarks book)) book
              else book)
           library in
     saveLibrary newLibrary)
    (ret tt).

Definition saveAnnotation (bookId : string) (pageIndex : Z) (text : string) : IO unit :=
  tryCatch
    (await library <- loadLibrary ;;
     let newLibrary :=
       map (fun book =>
              if has_id bookId book then
                set_annotations (<[pageIndex := text]> (annotations book)) book
              else book)
           library in
     saveLibrary newLibrary)
    (ret tt).

Definition removeAnnotation (bookId : string) (pageIndex : Z) : IO unit :=
  tryCatch
    (await library <- loadLibrary ;;
     let newLibrary :=
       map (fun book =>
              if has_id bookId book then
                set_annotations (delete pageIndex (annotations book)) book
              else book)
           library in
     saveLibrary newLibrary)
    (ret tt).

(** What [loadLibrary] reads when the read itself does not fail. *)
Definition libraryOf (w : World) : list Book :=
  match storage w with Some lib => lib | None => [] end.

Definition pagesOf (bookId : string) (w : World) : option (list PageData) :=
  files w !! bookId.

End Store.

(* ===================================================================== *)
(** * screens/LibraryScreen.js *)
(* ===================================================================== *)

Module Library.
Import Store.

(** How a POST to /obter_dados_pagina settles: [Sucesso dados] when
    [response.data.status === 'sucesso']; [Falha] for a network error, the
    60 s timeout or any other answer. *)
Inductive Response := Sucesso (dados : PageData) | Falha.

(** A suspended [processPage]: waiting for the answer to the request for
    [pageNumber], or waiting for the 10 ms timer that will call
    [processPage(pageNumber)]. *)
Inductive Phase := AwaitFetch (pageNumber : Z) | AwaitTimer (pageNumber : Z).

Record Task := mkTask { bookInfo : Book; phase : Phase }.

(** The module-level [processingControl] object, the component state
    ([library], [progress]), the suspended loops, and two logs: the page
    requests posted so far and the number of alerts shown. *)
Record App := mkApp {
  world : World;
  processingControl : gset string;
  library : list Book;
  progress : gmap string Q;
  tasks : list Task;
  requests : list (string * Z);
  alerts : nat
}.

Definition UI (A : Type) : Type := M App A.

Definition set_world (w : World) (st : App) : App :=
  mkApp w (processingControl st) (library st) (progress st) (tasks st)
        (requests st) (alerts st).
Definition set_control (c : gset string) (st : App) : App :=
  mkApp (world st) c (library st) (progress st) (tasks st)
        (requests st) (alerts st).
Definition setLibrary (l : list Book) (st : App) : App :=
  mkApp (world st) (processingControl st) l (progress st) (tasks st)
        (requests st) (alerts st).
Definition setProgress (f : gmap string Q -> gmap string Q) (st : App) : App :=
  mkApp (world st) (processingControl st) (library st) (f (progress st))
        (tasks st) (requests st) (alerts st).
Definition set_tasks (ts : list Task) (st : App) : App :=
  mkApp (world st) (processingControl st) (library st) (progress st) ts
        (requests st) (alerts st).
Definition log_request (r : string * Z) (st : App) : App :=
  mkApp (world st) (processingControl st) (library st) (progress st) (tasks st)
        (requests st ++ [r]) (alerts st).
Definition alert (st : App) : App :=
  mkApp (world st) (processingControl st) (library st) (progress st) (tasks st)
        (requests st) (S (alerts st)).

(** A storage call made from the screen. *)
Definition io {A} (c : IO A) : UI A :=
  fun st => let (r, w) := c (world st) in (r, set_world w st).

Definition suspend (t : Task) : UI unit :=
  modify (fun st => set_tasks (tasks st ++ [t]) st).

Definition ratio (count total : Z) : Q := (inject_Z count / inject_Z total)%Q.

Definition is_processing (b : Book) : bool := bool_decide (status b = processing).

(** The body of the [for (const book of books)] loop of
    [loadBooksFromStorage]. *)
Fixpoint scanBooks (books : list Book) (initialProgress : gmap string Q)
  : IO (gmap string Q) :=
  match books with
  | [] => ret initialProgress
  | book :: rest =>
      if bool_decide (status book = processing ∨ status book = ready) then
        await pages <- loadBookPages (id_arquivo book) ;;
        let pageCount :=
          Z.of_nat (length (match pages with Some ps => ps | None => [] end)) in
        let initialProgress' :=
          if 0 <? total_paginas book
          then <[id_arquivo book := ratio pageCount (total_paginas book)]> initialProgress
          else initialProgress in
        await _ <- (if is_processing book && (pageCount =? total_paginas book)
                    then updateBookStatus (id_arquivo book) ready
                    else ret tt) ;;
        scanBooks rest initialProgress'
      else scanBooks rest initialProgress
  end.

Definition loadBooksFromStorage : UI unit :=
  await books <- io loadLibrary ;;
  await _ <- modify (setLibrary books) ;;
  await initialProgress <- io (scanBooks books ∅) ;;
  modify (setProgress (fun _ => initialProgress)).

Definition in_flight (bookId : string) (st : App) : bool :=
  bool_decide (bookId ∈ processingControl st).

Definition deleteControl (bookId : string) : UI unit :=
  modify (fun st => set_control (processingControl st ∖ {[bookId]}) st).

(** [pageData.idioma && !pageData.idioma.startsWith('pt')] *)
Definition foreign_language (pageData : PageData) : bool :=
  match idioma pageData with
  | Some lang => negb (String.eqb lang "") && negb (String.prefix "pt" lang)
  | None => false
  end.

(** [processPage(pageNumber)] from its first line to the point where the
    request for the page has been posted. *)
Definition processPage (bookInfo : Book) (pageNumber : Z) : UI unit :=
  if total_paginas bookInfo <? pageNumber then
    await _ <- io (updateBookStatus (id_arquivo bookInfo) ready) ;;
    await _ <- deleteControl (id_arquivo bookInfo) ;;
    fire loadBooksFromStorage
  else
    await currentLibrary <- io loadLibrary ;;
    if negb (existsb (has_id (id_arquivo bookInfo)) currentLibrary) then
      deleteControl (id_arquivo bookInfo)
    else
      await _ <- modify (log_request (id_arquivo bookInfo, pageNumber)) ;;
      suspend (mkTask bookInfo (AwaitFetch pageNumber)).

(** The rest of [processPage(pageNumber)], run when the request settles:
    the remainder of the [try] block and the [catch] block. *)
Definition processPage_settled (bookInfo : Book) (pageNumber : Z)
    (response : Response) : UI unit :=
  tryCatch
    (match response with
     | Sucesso pageData =>
         await _ <- (if (pageNumber =? 1) && foreign_language pageData
                     then modify alert else ret tt) ;;
         await processedCount <- io (appendPageData (id_arquivo bookInfo) pageData) ;;
         await _ <- modify (setProgress
                      <[id_arquivo bookInfo :=
                          ratio processedCount (total_paginas bookInfo)]>) ;;
         suspend (mkTask bookInfo (AwaitTimer (pageNumber + 1)))
     | Falha => throw
     end)
    (await _ <- io (updateBookStatus (id_arquivo bookInfo) failed) ;;
     await _ <- deleteControl (id_arquivo bookInfo) ;;
     fire loadBooksFromStorage).

Definition processBookPages (bookInfo : Book) : UI unit :=
  await busy <- gets (in_flight (id_arquivo bookInfo)) ;;
  if busy then ret tt
  else
    await _ <- modify (fun st =>
                 set_control ({[id_arquivo bookInfo]} ∪ processingControl st) st) ;;
    await existingPages <- io (loadBookPages (id_arquivo bookInfo)) ;;
    let startPage :=
      Z.of_nat (length (match existingPages with Some ps => ps | None => [] end)) + 1 in
    processPage bookInfo startPage.

(** The effect that watches [library] for a book in 'processing'. *)
Definition pendingBookEffect : UI unit :=
  await lib <- gets library ;;
  match find is_processing lib with
  | Some pendingBook =>
      await busy <- gets (in_flight (id_arquivo pendingBook)) ;;
      if negb busy then processBookPages pendingBook else ret tt
  | None => ret tt
  end.

(** The 'Tentar Novamente' button of [handlePressBook]. *)
Definition retryBook (bookId : string) : UI unit :=
  await _ <- io (updateBookStatus bookId processing) ;;
  fire loadBooksFromStorage.

(** The 'Remover' button of [handleRemoveBook]. *)
Definition handleRemoveBook (bookId : string) : UI unit :=
  await _ <- deleteControl bookId ;;
  await _ <- io (removeBook bookId) ;;
  await _ <- modify (setProgress (delete bookId)) ;;
  fire loadBooksFromStorage.

(** ** The event loop *)

Inductive Event :=
  | EvEffect                              (* the pending-book effect runs *)
  | EvSettle (n : nat) (r : Response)     (* the request of task [n] settles *)
  | EvTimer (n : nat)                     (* the timer of task [n] fires *)
  | EvFocus                               (* the screen gains focus *)
  | EvRetry (bookId : string)
  | EvRemove (bookId : string)
  | EvRestart.                            (* the process is killed and started again *)

Definition restart (st : App) : App :=
  mkApp (world st) ∅ [] ∅ [] (requests st) (alerts st).

Definition run (c : UI unit) (st : App) : App := snd (c st).

Definition exec (ev : Event) (st : App) : App :=
  match ev with
  | EvEffect => run pendingBookEffect st
  | EvSettle n r =>
      match tasks st !! n with
      | Some (mkTask b (AwaitFetch p)) =>
          run (processPage_settled b p r) (set_tasks (delete n (tasks st)) st)
      | _ => st
      end
  | EvTimer n =>
      match tasks st !! n with
      | Some (mkTask b (AwaitTimer p)) =>
          run (processPage b p) (set_tasks (delete n (tasks st)) st)
      | _ => st
      end
  | EvFocus => run loadBooksFromStorage st
  | EvRetry bookId => run (retryBook bookId) st
  | EvRemove bookId => run (handleRemoveBook bookId) st
  | EvRestart => restart st
  end.

Definition execs (evs : list Event) (st : App) : App :=
  foldl (fun s ev => exec ev s) st evs.

End Library.

(* ===================================================================== *)
(** * The player screen *)
(* ===================================================================== *)

Module Player.
Import Store.

(** ** Text: [trim], [split(/\s+/)], [match(/\s+/g)], [join(' ')]

    A JavaScript string is modelled by its sequence of code units, here
    eight bits wide; the white space of [\s] and of [trim] among them is
    TAB, LF, VT, FF, CR, SPACE and NBSP. *)

Definition isSpace (c : ascii) : bool :=
  match N_of_ascii c with
  | 9 | 10 | 11 | 12 | 13 | 32 | 160 => true
  | _ => false
  end%N.

Definition space : ascii := " "%char.

(** [s.trim() === ''] *)
Definition is_blank (s : list ascii) : bool := forallb isSpace s.

(** [s.split(/\s+/)]: [in_ws] tells that the previous code unit belonged
    to a separator. *)
Fixpoint split_from (in_ws : bool) (s : list ascii) : list (list ascii) :=
  match s with
  | [] => [[]]
  | c :: s' =>
      if isSpace c then
        if in_ws then split_from true s' else [] :: split_from true s'
      else
        match split_from false s' with
        | w :: ws => (c :: w) :: ws
        | [] => [[c]]
        end
  end.
Definition split_ws (s : list ascii) : list (list ascii) := split_from false s.

(** [(s.match(/\s+/g) || []).length]: the number of maximal runs of white
    space. *)
Fixpoint count_from (in_ws : bool) (s : list ascii) : nat :=
  match s with
  | [] => 0
  | c :: s' =>
      if isSpace c
      then (if in_ws then 0 else 1) + count_from true s'
      else count_from false s'
  end%nat.
Definition count_ws_runs (s : list ascii) : nat := count_from false s.

(** [words.join(' ')] *)
Fixpoint join_sp (words : list (list ascii)) : list ascii :=
  match words with
  | [] => []
  | [w] => w
  | w :: rest => w ++ space :: join_sp rest
  end.

(** [arr.slice(start)] and [s.substring(0, end)] for a numeric argument:
    a negative [end] is read as 0 by [substring]; [slice] is only called
    with [start >= 0]. *)
Definition slice_from (start : Z) (words : list (list ascii)) : list (list ascii) :=
  drop (Z.to_nat start) words.
Definition substring0 (s : list ascii) (e : Z) : list ascii :=
  take (Z.to_nat e) s.

(** ** Page fit

    The effect that scales and centres the page is arithmetic on
    JavaScript numbers.  It is written once over the operations it uses and
    read twice: over IEEE 754 doubles, as the program runs it, and over the
    rationals, where every operation is exact. *)

Class Num (N : Type) := {
  num_zero : N;
  num_one : N;
  num_two : N;
  num_div : N -> N -> N;
  num_mul : N -> N -> N;
  num_sub : N -> N -> N;
  num_min : N -> N -> N;        (* Math.min *)
  num_gt : N -> N -> bool       (* a > b *)
}.

Record Layout (N : Type) := mkLayout { width : N; height : N }.
Arguments mkLayout {N} _ _.
Arguments width {N} _.
Arguments height {N} _.

Record Fit (N : Type) := mkFit { pdfScale : N; topOffset : N; leftOffset : N }.
Arguments mkFit {N} _ _ _.
Arguments pdfScale {N} _.
Arguments topOffset {N} _.
Arguments leftOffset {N} _.

(** [None]: the guard of the effect fails and no state is set. *)
Definition fitPage {N} `{Num N} (pdfLayout containerLayout : Layout N)
  : option (Fit N) :=
  if num_gt (width pdfLayout) num_one && num_gt (height pdfLayout) num_one
     && num_gt (width containerLayout) num_zero
     && num_gt (height containerLayout) num_zero
  then
    let scaleToFitWidth := num_div (width containerLayout) (width pdfLayout) in
    let scaleToFitHeight := num_div (height containerLayout) (height pdfLayout) in
    let scale := num_min scaleToFitWidth scaleToFitHeight in
    let scaledPdfWidth := num_mul (width pdfLayout) scale in
    let scaledPdfHeight := num_mul (height pdfLayout) scale in
    let topOffset := num_div (num_sub (height containerLayout) scaledPdfHeight) num_two in
    let leftOffset := num_div (num_sub (width containerLayout) scaledPdfWidth) num_two in
    Some (mkFit scale topOffset leftOffset)
  else None.

Definition is_nan (x : float) : bool := negb (PrimFloat.eqb x x).
Definition is_neg_zero (x : float) : bool :=
  match PrimFloat.classify x with NZero => true | _ => false end.

(** [Math.min] on doubles: NaN if an argument is NaN, and -0 below +0. *)
Definition float_min (a b : float) : float :=
  if is_nan a then a
  else if is_nan b then b
  else if PrimFloat.ltb a b then a
  else if PrimFloat.ltb b a then b
  else if is_neg_zero a then a else b.

#[global] Instance Num_double : Num float := {|
  num_zero := 0%float;
  num_one := 1%float;
  num_two := 2%float;
  num_div := PrimFloat.div;
  num_mul := PrimFloat.mul;
  num_sub := PrimFloat.sub;
  num_min := float_min;
  num_gt := fun a b => PrimFloat.ltb b a
|}.

#[global] Instance Num_exact : Num Q := {|
  num_zero := 0%Q;
  num_one := 1%Q;
  num_two := 2%Q;
  num_div := Qdiv;
  num_mul := Qmult;
  num_sub := Qminus;
  num_min := Qmin;
  num_gt := fun a b => negb (Qle_bool a b)
|}.

(** ** The component *)

Record NavRequest := mkNav {
  deltaOrIndex : Z;
  absolute : bool;
  continueSpeech : bool
}.

(** [MIN_PAGE_CHANGE_INTERVAL] *)
Definition MIN_PAGE_CHANGE_INTERVAL : Z := 900.

(** State, refs and pending timers of [PlayerScreen]; [now] is the clock
    read by [Date.now()].  [pendingNav] is the timer held by
    [pendingNavTimeoutRef] with the time at which it is due; [unlockTimers]
    are the due times of the timers that release [navLockRef].
    [utterance] is the segment the speech engine is speaking, if any.
    The magnifier snapshot, the playback rate, the voice and the layout
    state are left out: no handler below reads them. *)
Record Player := mkPlayer {
  world : World;
  bookInfo : Book;
  now : Z;
  currentPageIndex : Z;
  isPlaying : bool;
  currentWordIndex : Z;
  isPageLoading : bool;
  showMagnifier : bool;
  utterance : option (list ascii);
  speechStartIndex : Z;
  intervalRunning : bool;
  navLock : bool;
  lastPageChangeAt : Z;
  pendingNav : option (Z * NavRequest);
  unlockTimers : list Z;
  bookmarks : list Z;
  annotations : gmap Z string;
  currentAnnotation : string;
  annotationModalVisible : bool
}.

Definition set_world (v : World) (p : Player) : Player :=
  mkPlayer v (bookInfo p) (now p) (currentPageIndex p) (isPlaying p)
    (currentWordIndex p) (isPageLoading p) (showMagnifier p) (utterance p)
    (speechStartIndex p) (intervalRunning p) (navLock p) (lastPageChangeAt p)
    (pendingNav p) (unlockTimers p) (bookmarks p) (annotations p)
    (currentAnnotation p) (annotationModalVisible p).
Definition set_now (v : Z) (p : Player) : Player :=
  mkPlayer (world p) (bookInfo p) v (currentPageIndex p) (isPlaying p)
    (currentWordIndex p) (isPageLoading p) (showMagnifier p) (utterance p)
    (speechStartIndex p) (intervalRunning p) (navLock p) (lastPageChangeAt p)
    (pendingNav p) (unlockTimers p) (bookmarks p) (annotations p)
    (currentAnnotation p) (annotationModalVisible p).
Definition set_currentPageIndex (v : Z) (p : Player) : Player :=
  mkPlayer (world p) (bookInfo p) (now p) v (isPlaying p) (currentWordIndex p)
    (isPageLoading p) (showMagnifier p) (utterance p) (speechStartIndex p)
    (intervalRunning p) (navLock p) (lastPageChangeAt p) (pendingNav p)
    (unlockTimers p) (bookmarks p) (annotations p) (currentAnnotation p)
    (annotationModalVisible p).
Definition set_isPlaying (v : bool) (p : Player) : Player :=
  mkPlayer (world p) (bookInfo p) (now p) (currentPageIndex p) v
    (currentWordIndex p) (isPageLoading p) (showMagnifier p) (utterance p)
    (speechStartIndex p) (intervalRunning p) (navLock p) (lastPageChangeAt p)
    (pendingNav p) (unlockTimers p) (bookmarks p) (annotations p)
    (currentAnnotation p) (annotationModalVisible p).
Definition set_currentWordIndex (v : Z) (p : Player) : Player :=
  mkPlayer (world p) (bookInfo p) (now p) (currentPageIndex p) (isPlaying p) v
    (isPageLoading p) (showMagnifier p) (utterance p) (speechStartIndex p)
    (intervalRunning p) (navLock p) (lastPageChangeAt p) (pendingNav p)
    (unlockTimers p) (bookmarks p) (annotations p) (currentAnnotation p)
    (annotationModalVisible p).
Definition set_isPageLoading (v : bool) (p : Player) : Player :=
  mkPlayer (world p) (bookInfo p) (now p) (currentPageIndex p) (isPlaying p)
    (currentWordIndex p) v (showMagnifier p) (utterance p) (speechStartIndex
    p) (intervalRunning p) (navLock p) (lastPageChangeAt p) (pendingNav p)
    (unlockTimers p) (bookmarks p) (annotations p) (currentAnnotation p)
    (annotationModalVisible p).
Definition set_showMagnifier (v : bool) (p : Player) : Player :=
  mkPlayer (world p) (bookInfo p) (now p) (currentPageIndex p) (isPlaying p)
    (currentWordIndex p) (isPageLoading p) v (utterance p) (speechStartIndex
    p) (intervalRunning p) (navLock p) (lastPageChangeAt p) (pendingNav p)
    (unlockTimers p) (bookmarks p) (annotations p) (currentAnnotation p)
    (annotationModalVisible p).
Definition set_utterance (v : option (list ascii)) (p : Player) : Player :=
  mkPlayer (world p) (bookInfo p) (now p) (currentPageIndex p) (isPlaying p)
    (currentWordIndex p) (isPageLoading p) (showMagnifier p) v
    (speechStartIndex p) (intervalRunning p) (navLock p) (lastPageChangeAt p)
    (pendingNav p) (unlockTimers p) (bookmarks p) (annotations p)
    (currentAnnotation p) (annotationModalVisible p).
Definition set_speechStartIndex (v : Z) (p : Player) : Player :=
  mkPlayer (world p) (bookInfo p) (now p) (currentPageIndex p) (isPlaying p)
    (currentWordIndex p) (isPageLoading p) (showMagnifier p) (utterance p) v
    (intervalRunning p) (navLock p) (lastPageChangeAt p) (pendingNav p)
    (unlockTimers p) (bookmarks p) (annotations p) (currentAnnotation p)
    (annotationModalVisible p).
Definition set_intervalRunning (v : bool) (p : Player) : Player :=
  mkPlayer (world p) (bookInfo p) (now p) (currentPageIndex p) (isPlaying p)
    (currentWordIndex p) (isPageLoading p) (showMagnifier p) (utterance p)
    (speechStartIndex p) v (navLock p) (lastPageChangeAt p) (pendingNav p)
    (unlockTimers p) (bookmarks p) (annotations p) (currentAnnotation p)
    (annotationModalVisible p).
Definition set_navLock (v : bool) (p : Player) : Player :=
  mkPlayer (world p) (bookInfo p) (now p) (currentPageIndex p) (isPlaying p)
    (currentWordIndex p) (isPageLoading p) (showMagnifier p) (utterance p)
    (speechStartIndex p) (intervalRunning p) v (lastPageChangeAt p)
    (pendingNav p) (unlockTimers p) (bookmarks p) (annotations p)
    (currentAnnotation p) (annotationModalVisible p).
Definition set_lastPageChangeAt (v : Z) (p : Player) : Player :=
  mkPlayer (world p) (bookInfo p) (now p) (currentPageIndex p) (isPlaying p)
    (currentWordIndex p) (isPageLoading p) (showMagnifier p) (utterance p)
    (speechStartIndex p) (intervalRunning p) (navLock p) v (pendingNav p)
    (unlockTimers p) (bookmarks p) (annotations p) (currentAnnotation p)
    (annotationModalVisible p).
Definition set_pendingNav (v : option (Z * NavRequest)) (p : Player) : Player :=
  mkPlayer (world p) (bookInfo p) (now p) (currentPageIndex p) (isPlaying p)
    (currentWordIndex p) (isPageLoading p) (showMagnifier p) (utterance p)
    (speechStartIndex p) (intervalRunning p) (navLock p) (lastPageChangeAt p)
    v (unlockTimers p) (bookmarks p) (annotations p) (currentAnnotation p)
    (annotationModalVisible p).
Definition set_unlockTimers (v : list Z) (p : Player) : Player :=
  mkPlayer (world p) (bookInfo p) (now p) (currentPageIndex p) (isPlaying p)
    (currentWordIndex p) (isPageLoading p) (showMagnifier p) (utterance p)
    (speechStartIndex p) (intervalRunning p) (navLock p) (lastPageChangeAt p)
    (pendingNav p) v (bookmarks p) (annotations p) (currentAnnotation p)
    (annotationModalVisible p).
Definition set_bookmarks (v : list Z) (p : Player) : Player :=
  mkPlayer (world p) (bookInfo p) (now p) (currentPageIndex p) (isPlaying p)
    (currentWordIndex p) (isPageLoading p) (showMagnifier p) (utterance p)
    (speechStartIndex p) (intervalRunning p) (navLock p) (lastPageChangeAt p)
    (pendingNav p) (unlockTimers p) v (annotations p) (currentAnnotation p)
    (annotationModalVisible p).
Definition set_annotations (v : gmap Z string) (p : Player) : Player :=
  mkPlayer (world p) (bookInfo p) (now p) (currentPageIndex p) (isPlaying p)
    (currentWordIndex p) (isPageLoading p) (showMagnifier p) (utterance p)
    (speechStartIndex p) (intervalRunning p) (navLock p) (lastPageChangeAt p)
    (pendingNav p) (unlockTimers p) (bookmarks p) v (currentAnnotation p)
    (annotationModalVisible p).
Definition set_currentAnnotation (v : string) (p : Player) : Player :=
  mkPlayer (world p) (bookInfo p) (now p) (currentPageIndex p) (isPlaying p)
    (currentWordIndex p) (isPageLoading p) (showMagnifier p) (utterance p)
    (speechStartIndex p) (intervalRunning p) (navLock p) (lastPageChangeAt p)
    (pendingNav p) (unlockTimers p) (bookmarks p) (annotations p) v
    (annotationModalVisible p).
Definition set_annotationModalVisible (v : bool) (p : Player) : Player :=
  mkPlayer (world p) (bookInfo p) (now p) (currentPageIndex p) (isPlaying p)
    (currentWordIndex p) (isPageLoading p) (showMagnifier p) (utterance p)
    (speechStartIndex p) (intervalRunning p) (navLock p) (lastPageChangeAt p)
    (pendingNav p) (unlockTimers p) (bookmarks p) (annotations p)
    (currentAnnotation p) v.

Definition stopTimer (p : Player) : Player := set_intervalRunning false p.
Definition startTimer (p : Player) : Player := set_intervalRunning true p.
(** [Speech.stop()] *)
Definition speechStop (p : Player) : Player := set_utterance None p.

Definition safeGoTo (r : NavRequest) (p : Player) : Player :=
  if navLock p then p
  else
    let p := set_navLock true p in
    let p := set_showMagnifier false p in
    let p := set_isPageLoading true p in
    let p := speechStop p in
    let p := if negb (continueSpeech r) then stopTimer (set_isPlaying false p) else p in
    let p := set_currentWordIndex (-1) p in
    let p := set_currentPageIndex
               (if absolute r then deltaOrIndex r
                else currentPageIndex p + deltaOrIndex r) p in
    set_unlockTimers (unlockTimers p ++ [now p + MIN_PAGE_CHANGE_INTERVAL]) p.

(** [schedule(delayMs)] inside [throttledGoTo]: [clearTimeout] of the
    pending timer, then a new one. *)
Definition schedule (r : NavRequest) (delayMs : Z) (p : Player) : Player :=
  set_pendingNav (Some (now p + Z.max 0 delayMs, r)) p.

(** [isPageLoading] is component state: a callback sees the value of the
    render that created it.  The model reads the current value. *)
Definition throttledGoTo (r : NavRequest) (p : Player) : Player :=
  let elapsed := now p - lastPageChangeAt p in
  if isPageLoading p || navLock p then schedule r 150 p
  else if MIN_PAGE_CHANGE_INTERVAL <=? elapsed then
    safeGoTo r (set_lastPageChangeAt (now p) p)
  else schedule r (MIN_PAGE_CHANGE_INTERVAL - elapsed) p.

(** The callback of the timer set by [schedule]. *)
Definition firePendingNav (p : Player) : Player :=
  match pendingNav p with
  | Some (_, r) =>
      let p := set_pendingNav None p in
      let p := set_lastPageChangeAt (now p) p in
      safeGoTo r p
  | None => p
  end.

(** The callback of the timer set at the end of [safeGoTo]. *)
Definition fireUnlock (p : Player) : Player :=
  set_navLock false (set_unlockTimers (tail (unlockTimers p)) p).

(** The clock moves to [t]; the timers due by then fire, earliest first. *)
Inductive Due := DueNav (at_ : Z) | DueUnlock (at_ : Z).

Definition nextDue (p : Player) : option Due :=
  match pendingNav p, unlockTimers p with
  | Some (tn, _), tu :: _ => Some (if tn <? tu then DueNav tn else DueUnlock tu)
  | Some (tn, _), [] => Some (DueNav tn)
  | None, tu :: _ => Some (DueUnlock tu)
  | None, [] => None
  end.

Fixpoint advanceBy (fuel : nat) (t : Z) (p : Player) : Player :=
  match fuel with
  | O => set_now (Z.max (now p) t) p
  | S fuel' =>
      match nextDue p with
      | Some (DueNav d) =>
          if d <=? t
          then advanceBy fuel' t (firePendingNav (set_now (Z.max (now p) d) p))
          else set_now (Z.max (now p) t) p
      | Some (DueUnlock d) =>
          if d <=? t
          then advanceBy fuel' t (fireUnlock (set_now (Z.max (now p) d) p))
          else set_now (Z.max (now p) t) p
      | None => set_now (Z.max (now p) t) p
      end
  end.

Definition advance (t : Z) (p : Player) : Player :=
  advanceBy (length (unlockTimers p) + 3) t p.


(** ** Speech *)

Definition startSpeech (textToSpeak : string) (fromWordIndex : Z) (p : Player)
  : Player :=
  let text := list_ascii_of_string textToSpeak in
  if is_blank text then set_isPlaying false p
  else
    let words := split_ws text in
    let startIndex := if 0 <=? fromWordIndex then fromWordIndex else 0 in
    let p := set_speechStartIndex startIndex p in
    let textSegment := join_sp (slice_from startIndex words) in
    match textSegment with
    | [] => set_isPlaying false p
    | _ => set_utterance (Some textSegment) p
    end.

(** [onBoundary(event)]; [charIndex = None] is [undefined]. *)
Definition onBoundary (charIndex : option Z) (p : Player) : Player :=
  match utterance p, charIndex with
  | Some textSegment, Some i =>
      let spokenText := substring0 textSegment i in
      let currentLocalWordIndex := Z.of_nat (count_ws_runs spokenText) in
      let currentGlobalWordIndex := speechStartIndex p + currentLocalWordIndex in
      set_currentWordIndex currentGlobalWordIndex p
  | _, _ => p
  end.


Definition handleNext (p : Player) : Player :=
  if isPageLoading p then p
  else if currentPageIndex p <? total_paginas (bookInfo p) - 1
       then throttledGoTo (mkNav 1 false false) p else p.

Definition handlePrevious (p : Player) : Player :=
  if isPageLoading p then p
  else if 0 <? currentPageIndex p
       then throttledGoTo (mkNav (-1) false false) p else p.

Definition handleJumpToBookmark (pageIndex : Z) (p : Player) : Player :=
  throttledGoTo (mkNav pageIndex true false) p.

(** ** Bookmarks and annotations *)

Definition loadUpdatedBookData (p : Player) : Player :=
  let (r, w) := loadLibrary (world p) in
  let p := set_world w p in
  match r with
  | Ok library =>
      match find (has_id (id_arquivo (bookInfo p))) library with
      | Some currentBook =>
          set_annotations (Store.annotations currentBook)
            (set_bookmarks (Store.bookmarks currentBook) p)
      | None => p
      end
  | Threw => p
  end.

Definition handleSaveAnnotation (p : Player) : Player :=
  let c :=
    if negb (is_blank (list_ascii_of_string (currentAnnotation p)))
    then saveAnnotation (id_arquivo (bookInfo p)) (currentPageIndex p)
                        (currentAnnotation p)
    else removeAnnotation (id_arquivo (bookInfo p)) (currentPageIndex p) in
  let p := set_world (snd (c (world p))) p in
  let p := loadUpdatedBookData p in
  set_annotationModalVisible false p.

Definition toggleBookmark (pageIndex : Z) (p : Player) : Player :=
  let c :=
    if includes pageIndex (bookmarks p)
    then removeBookmark (id_arquivo (bookInfo p)) pageIndex
    else addBookmark (id_arquivo (bookInfo p)) pageIndex in
  loadUpdatedBookData (set_world (snd (c (world p))) p).

End Player.

(* ===================================================================== *)
(** * Notions used by the statements *)
(* ===================================================================== *)

Module Props.
Import Store.



(** A call of one of the per-document mutators of the store. *)
Inductive Mutation :=
  | MStatus (st : Status)
  | MState (pageIndex timeIncrement : Z)
  | MAddBookmark (pageIndex : Z)
  | MRemoveBookmark (pageIndex : Z)
  | MSaveAnnotation (pageIndex : Z) (text : string)
  | MRemoveAnnotation (pageIndex : Z).

Definition mutate (m : Mutation) (bookId : string) : IO unit :=
  match m with
  | MStatus st => updateBookStatus bookId st
  | MState pageIndex timeIncrement => updateBookState bookId pageIndex timeIncrement
  | MAddBookmark pageIndex => addBookmark bookId pageIndex
  | MRemoveBookmark pageIndex => removeBookmark bookId pageIndex
  | MSaveAnnotation pageIndex text => saveAnnotation bookId pageIndex text
  | MRemoveAnnotation pageIndex => removeAnnotation bookId pageIndex
  end.

(** The read-modify-write shape shared by the mutators: [g] is applied to
    the entries whose identifier matches. *)
Definition mapLibrary (f : Book -> Book) : IO unit :=
  tryCatch (await library <- loadLibrary ;; saveLibrary (map f library)) (ret tt).

Definition touches (bookId : string) (g : Book -> Book) (b : Book) : Book :=
  if has_id bookId b then g b else b.


(** No book of the library holds a blank note. *)
Definition no_blank_annotations (lib : list Book) : Prop :=
  ∀ b p t, b ∈ lib → annotations b !! p = Some t →
           Player.is_blank (list_ascii_of_string t) = false.

(** A small shelf used to exercise the statements. *)
Definition doc : Book :=
  mkBook "doc" "Doc.pdf" 3 processing 0 0 false [] ∅ (Some "file:///doc.pdf"%string).
Definition outro : Book :=
  mkBook "outro" "Outro.pdf" 2 ready 1 30 false [1] {[0 := "nota"%string]} None.
Definition pagina (texto : string) : PageData :=
  mkPage texto (Some "pt-BR"%string) false.
Definition shelf : World :=
  mkWorld (Some [doc; outro])
          {[ "doc"%string := []; "outro"%string := [pagina "a"; pagina "b"] ]}
          {[ "file:///doc.pdf"%string ]} [].

(** ** Speech and layout *)

(** The number of leading words that lie, together with the separator that
    follows them, wholly before the offset. *)
Fixpoint tokens_before (words : list (list ascii)) (offset : nat) : nat :=
  match words with
  | [] => 0
  | w :: rest =>
      if (length w + 1 <=? offset)%nat
      then S (tokens_before rest (offset - (length w + 1)))
      else 0
  end.

(** The offset at which word [j] starts in [join_sp words]. *)
Fixpoint word_start (words : list (list ascii)) (j : nat) : nat :=
  match j, words with
  | S j', w :: rest => (length w + 1 + word_start rest j')%nat
  | _, _ => 0
  end.

Definition no_space (w : list ascii) : Prop := Forall (fun c => Player.isSpace c = false) w.

(** Words as [split(/\s+/)] yields them after a separator: free of white
    space, and only the last one may be empty. *)
Fixpoint after_separator (words : list (list ascii)) : Prop :=
  match words with
  | [] => True
  | [w] => no_space w
  | w :: rest => no_space w ∧ w ≠ [] ∧ after_separator rest
  end.

(** Words as [split(/\s+/)] yields them: free of white space, and only the
    first and the last one may be empty. *)
Definition well_split (words : list (list ascii)) : Prop :=
  match words with
  | [] => True
  | [w] => no_space w
  | w :: rest => no_space w ∧ after_separator rest
  end.

(** A page text with leading white space. *)
Definition frase : string := "  o rato roeu a roupa".

(** A page 609 by 860 units in a container 360 by 640, as doubles and as
    exact numbers. *)
Definition page_609 : Player.Layout float := Player.mkLayout 609%float 860%float.
Definition screen_360 : Player.Layout float := Player.mkLayout 360%float 640%float.
Definition page_609_exact : Player.Layout Q := Player.mkLayout 609%Q 860%Q.
Definition screen_360_exact : Player.Layout Q := Player.mkLayout 360%Q 640%Q.

(** ** Navigation *)




(** The navigation lock is held or a page is still loading. *)
Definition busy (p : Player.Player) : bool :=
  Player.isPageLoading p || Player.navLock p.

Definition livro : Book :=
  mkBook "livro" "Livro.pdf" 10 ready 0 0 false [] ∅ (Some "file:///livro.pdf"%string).



(** ** Ingestion loops *)

(** Calls that leave the loops alone. *)
Definition same_loops (st st' : Library.App) : Prop :=
  Library.tasks st' = Library.tasks st
  ∧ Library.processingControl st' = Library.processingControl st
  ∧ Library.requests st' = Library.requests st.




(** [(existingPages?.length || 0)] *)
Definition count_pages (pages : option (list PageData)) : Z :=
  Z.of_nat (length (match pages with Some ps => ps | None => [] end)).


(** Every entry of the document carries the status [s]. *)
Definition marked (s : Status) (bookId : string) (w : World) : Prop :=
  ∀ b, b ∈ libraryOf w → id_arquivo b = bookId → status b = s.

Definition on_shelf (bookId : string) (w : World) : Prop :=
  existsb (has_id bookId) (libraryOf w) = true.


(** The library screen just opened on a device. *)
Definition opened (w : World) : Library.App :=
  Library.mkApp w ∅ (libraryOf w) ∅ [] [] 0.

(** The device on which the native call number [n] (from 0) rejects. *)
Definition failing_call (n : nat) (w : World) : World :=
  set_faults (replicate n false ++ [true]) w.


(** The player opened on page 3 of [doc], the note editor holding [nota]. *)
Definition leitor (nota : string) : Player.Player :=
  Player.mkPlayer shelf doc 0 2 false (-1) false false None 0 false false 0 None []
                  [] ∅ nota true.

End Props.

(* ===================================================================== *)
(** * Notions used by the laws of the store *)
(* ===================================================================== *)

Module Shelf.
Import Store Props.

(** The identifiers on the shelf. *)
Definition ids (lib : list Book) : list string := map id_arquivo lib.



(** Strictly increasing: ordered and without repetition. *)
Fixpoint ascending (l : list Z) : Prop :=
  match l with
  | [] => True
  | x :: rest => Forall (Z.lt x) rest ∧ ascending rest
  end.

(** Every list of bookmarks on the shelf is strictly increasing. *)
Definition bookmarks_ascending (lib : list Book) : Prop :=
  ∀ b, b ∈ lib → ascending (bookmarks b).

(** The device on which only the next native call rejects. *)
Definition next_call_fails (w : World) : World := set_faults [true] w.

(** The device on which only the native call after the next rejects. *)
Definition second_call_fails (w : World) : World := set_faults [false; true] w.

End Shelf.

(* ===================================================================== *)
(** * screens/LibraryScreen.js: the cards and the add button *)
(* ===================================================================== *)

Module Cards.
Import Store Library.

(** try { body } finally { cleanup } *)
Definition finally {S A} (body : M S A) (cleanup : M S unit) : M S A :=
  fun s => match body s with
           | (r, s') => match cleanup s' with
                        | (Ok _, s'') => (r, s'')
                        | (Threw, s'') => (Threw, s'')
                        end
           end.

(** ** handlePressBook *)

(** What a press on a card leads to. *)
Inductive Pressed :=
  | Nothing
  | RetryDialog   (* Alert 'Falha no Processamento', with 'Tentar Novamente' *)
  | OpenPlayer (bookInfo : Book) (pagesData : list PageData)
                  (* navigation.navigate('Player', { bookInfo: { ...item, pagesData } }) *)
  | WaitAlert.    (* Alert 'Aguarde um instante...' *)

Definition handlePressBook (isUploading : bool) (item : Book) : IO Pressed :=
  if isUploading then ret Nothing
  else if bool_decide (status item = failed) then ret RetryDialog
  else if bool_decide (status item = ready ∨ status item = processing) then
    await pagesData <- loadBookPages (id_arquivo item) ;;
    match pagesData with
    | Some (p :: ps) => ret (OpenPlayer item (p :: ps))
    | _ => ret WaitAlert
    end
  else ret Nothing.

(** ** handleDocumentPick *)

(** What DocumentPicker.getDocumentAsync resolves to: [result.canceled], or
    the first asset with its uri, name and size in bytes. *)
Inductive Picked := Canceled | Asset (uri name : string) (size : Z).

(** The alerts of handleDocumentPick. *)
Inductive Notice := TooLarge | UploadFailed.

(** The screen: the state of the ingestion ([ingestion]), the [isUploading]
    flag, and two logs: the files posted to /iniciar_processamento and the
    alerts shown. *)
Record Screen := mkScreen {
  ingestion : App;
  isUploading : bool;
  uploads : list string;
  notices : list Notice
}.

Definition set_ingestion (a : App) (sc : Screen) : Screen :=
  mkScreen a (isUploading sc) (uploads sc) (notices sc).
Definition setIsUploading (v : bool) (sc : Screen) : Screen :=
  mkScreen (ingestion sc) v (uploads sc) (notices sc).
Definition post (uri : string) (sc : Screen) : Screen :=
  mkScreen (ingestion sc) (isUploading sc) (uploads sc ++ [uri]) (notices sc).
Definition notify (n : Notice) (sc : Screen) : Screen :=
  mkScreen (ingestion sc) (isUploading sc) (uploads sc) (notices sc ++ [n]).

(** A handler of the ingestion run from the screen. *)
Definition ui {A} (c : UI A) : M Screen A :=
  fun sc => let (r, a) := c (ingestion sc) in (r, set_ingestion a sc).

Definition MAX_FILE_SIZE_MB : Z := 30.
Definition MAX_FILE_SIZE_BYTES : Z := MAX_FILE_SIZE_MB * 1024 * 1024.

(** FileSystem.copyAsync({ from, to }) *)
Definition copyAsync (from to : string) : IO unit :=
  bind native (fun _ w => (Ok tt, set_pdfs ({[to]} ∪ pdfs w) w)).

Definition with_nome_original (nome : string) (b : Book) : Book :=
  mkBook (id_arquivo b) nome (total_paginas b) (status b)
         (lastPosition b) (listeningTime b) (completed b)
         (bookmarks b) (annotations b) (localUri b).
Definition with_localUri (uri : string) (b : Book) : Book :=
  mkBook (id_arquivo b) (nome_original b) (total_paginas b) (status b)
         (lastPosition b) (listeningTime b) (completed b)
         (bookmarks b) (annotations b) (Some uri).

(** isAnyBookProcessing and isButtonDisabled *)
Definition isAnyBookProcessing (sc : Screen) : bool :=
  existsb is_processing (library (ingestion sc)).
Definition isButtonDisabled (sc : Screen) : bool :=
  isUploading sc || isAnyBookProcessing sc.

Section Platform.
(** [FileSystem.documentDirectory], and [decodeURIComponent], which
    throws on a malformed escape sequence ([None]). *)
Variable documentDirectory : string.
Variable decodeURIComponent : string → option string.

(** handleDocumentPick from its first line to the point where the file
    has been posted; [result] is what the picker settled to. *)
Definition handleDocumentPick (result : Res Picked) : M Screen unit :=
  tryCatch
    (match result with
     | Threw => throw
     | Ok Canceled => ret tt
     | Ok (Asset uri name size) =>
         if MAX_FILE_SIZE_BYTES <? size then modify (notify TooLarge)
         else
           await _ <- modify (setIsUploading true) ;;
           modify (post uri)
     end)
    (modify (setIsUploading false)).

(** The rest of handleDocumentPick, run when the upload settles: the
    inner try, catch and finally blocks. *)
Definition handleDocumentPick_settled (fileUri : string) (response : Res Book)
  : M Screen unit :=
  finally
    (tryCatch
       (match response with
        | Threw => throw
        | Ok bookInfo =>
            await nome <-
              (if String.eqb (nome_original bookInfo) "" then ret (nome_original bookInfo)
               else match decodeURIComponent (nome_original bookInfo) with
                    | Some nome => ret nome
                    | None => throw
                    end) ;;
            let bookInfo := with_nome_original nome bookInfo in
            let permanentUri := (documentDirectory ++ id_arquivo bookInfo)%string in
            await _ <- ui (io (copyAsync fileUri permanentUri)) ;;
            let bookToProcess := with_localUri permanentUri bookInfo in
            await _ <- ui (io (saveBook bookToProcess)) ;;
            await _ <- ui (modify (setProgress <[id_arquivo bookInfo := 0%Q]>)) ;;
            ui (fire loadBooksFromStorage)
        end)
       (modify (notify UploadFailed)))
    (modify (setIsUploading false)).
End Platform.

End Cards.

(* ===================================================================== *)
(** * Notions used by the laws of the library screen *)
(* ===================================================================== *)

Module Desk.
Import Store Library Props Shelf Cards.

(** The pages of a document requested so far, in order. *)
Definition requests_for (bookId : string) (st : App) : list Z :=
  map snd (filter (fun r => fst r = bookId) (requests st)).

(** No identifier of the second device is new with respect to the first. *)
Definition no_new_entry (w w' : World) : Prop :=
  ∀ bookId, bookId ∈ ids (libraryOf w') → bookId ∈ ids (libraryOf w).

(** The number of language warnings an event raises: one, when the answer
    to the request for page 1 arrives with a language that is given and
    does not start with 'pt'. *)
Definition warns (ev : Event) (st : App) : nat :=
  match ev with
  | EvSettle n (Sucesso pageData) =>
      match tasks st !! n with
      | Some (mkTask _ (AwaitFetch 1)) => if foreign_language pageData then 1 else 0
      | _ => 0
      end
  | _ => 0
  end.

(** A handler relates the state it starts in to the state it ends in,
    whether it returns or throws. *)
Definition keeps {S A} (R : S → S → Prop) (c : M S A) : Prop :=
  ∀ s, R s (snd (c s)).

Definition world_no_new_entry (st st' : App) : Prop :=
  no_new_entry (world st) (world st').

Definition same_alerts (st st' : App) : Prop := alerts st' = alerts st.

(** A device on which every page of [doc] is on disk while the library
    still says 'processing'. *)
Definition shelf_full : World :=
  set_files {[ "doc"%string := [pagina "um"; pagina "dois"; pagina "tres"];
               "outro"%string := [pagina "a"; pagina "b"] ]} shelf.

(** A device on which the ingestion of [doc] failed after its first page. *)
Definition shelf_failed : World :=
  mkWorld (Some [set_status failed doc; outro])
          {[ "doc"%string := [pagina "um"]; "outro"%string := [pagina "a"; pagina "b"] ]}
          {[ "file:///doc.pdf"%string ]} [].

(** The flag and the logs of the screen are the same. *)
Definition same_flags (sc sc' : Screen) : Prop :=
  isUploading sc' = isUploading sc ∧ uploads sc' = uploads sc
  ∧ notices sc' = notices sc.

(** What the server answers for an uploaded file. *)
Definition resposta : Book :=
  mkBook "novo" "Meu%20Livro.pdf" 4 ready 0 0 false [] ∅ None.

(** A decoder for the names used here: it takes every name as it is. *)
Definition decode_plain (s : string) : option string := Some s.

(** The library screen showing [shelf] once the ingestion of every
    document has ended. *)
Definition tela : Screen :=
  mkScreen (opened (set_storage (Some [set_status ready doc; outro]) shelf_full))
           true ["file:///cache/novo.pdf"%string] [].

(** A page in English. *)
Definition page_en (texto : string) : PageData :=
  mkPage texto (Some "en"%string) false.

End Desk.

(* ===================================================================== *)
(** * The player screen: header, playback controls, leaving the screen *)
(* ===================================================================== *)

Module Reader.
Import Store Player.

(** [hasAnnotation] of the header effect:
    [annotations[currentPageIndex]?.trim() !== ''].  For a page without a
    note the left-hand side is [undefined], which is not the empty
    string. *)
Definition hasAnnotation (p : Player) : bool :=
  match annotations p !! currentPageIndex p with
  | Some text => negb (is_blank (list_ascii_of_string text))
  | None => true
  end.

(** [bookmarks.includes(currentPageIndex)], the bookmark icon. *)
Definition isBookmarked (p : Player) : bool :=
  includes (currentPageIndex p) (bookmarks p).

(** [HighlightedText]: the words of the text, each with the flag
    [index === currentWordIndex]. *)
Definition HighlightedText (text : string) (currentWordIndex : Z)
  : list (list ascii * bool) :=
  let words := if String.eqb text "" then []
               else split_ws (list_ascii_of_string text) in
  imap (fun index word => (word, bool_decide (Z.of_nat index = currentWordIndex)))
       words.

(** [handlePlayPause]; [texto_completo] is [pageData?.texto_completo],
    [None] when there is no page data. *)
Definition handlePlayPause (texto_completo : option string) (p : Player) : Player :=
  if isPlaying p then stopTimer (set_isPlaying false (speechStop p))
  else
    match texto_completo with
    | Some text =>
        if String.eqb text "" then p
        else
          let p := set_isPlaying true p in
          let p := startSpeech text
                     (if 0 <=? currentWordIndex p then currentWordIndex p else 0) p in
          startTimer p
    | None => p
    end.

(** [handleChangeRate]; the rate itself is not part of the state. *)
Definition handleChangeRate (texto_completo : option string) (p : Player) : Player :=
  if isPlaying p then
    match texto_completo with
    | Some text =>
        if String.eqb text "" then p
        else startSpeech text
               (if 0 <=? currentWordIndex p then currentWordIndex p else 0)
               (speechStop p)
    | None => p
    end
  else p.

(** The player with the seconds counted by the interval of [startTimer]
    ([timeListenedRef]). *)
Record Session := mkSession { player : Player; timeListened : Z }.

(** The callback of the interval, once per second while it runs. *)
Definition tick (s : Session) : Session :=
  if intervalRunning (player s) then mkSession (player s) (timeListened s + 1)
  else s.

(** The cleanup of the focus effect, for the page index of the render that
    set the effect up. *)
Definition cleanup (pageIndex : Z) (s : Session) : Session :=
  let p := stopTimer (speechStop (player s)) in
  let w := snd (updateBookState (id_arquivo (bookInfo p)) pageIndex
                                (timeListened s) (world p)) in
  mkSession (set_world w p) 0.

End Reader.

(* ===================================================================== *)
(** * Notions used by the laws of the player *)
(* ===================================================================== *)

Module Stage.
Import Store Player Props Reader.

(** The index the playback controls start from. *)
Definition resumeIndex (p : Player) : Z :=
  if 0 <=? currentWordIndex p then currentWordIndex p else 0.

(** The interval ticks [n] times. *)
Fixpoint ticks (n : nat) (s : Session) : Session :=
  match n with O => s | S n' => ticks n' (tick s) end.

(** The bookmarks and notes shown are those of the stored entry of the
    open document. *)
Definition in_step (p : Player) : Prop :=
  ∃ b, find (has_id (id_arquivo (bookInfo p))) (libraryOf (world p)) = Some b
       ∧ bookmarks p = Store.bookmarks b
       ∧ annotations p = Store.annotations b.

(** No note of the mapping is blank. *)
Definition notes_not_blank (an : gmap Z string) : Prop :=
  ∀ q t, an !! q = Some t → is_blank (list_ascii_of_string t) = false.



(** The page is shown, no navigation is pending, the last page change is
    not in the future, and the lock is free or is released by its timer
    900 ms after the last page change. *)
Definition at_rest (p : Player) : Prop :=
  isPageLoading p = false ∧ pendingNav p = None
  ∧ lastPageChangeAt p ≤ now p
  ∧ ((navLock p = false ∧ unlockTimers p = [])
     ∨ unlockTimers p = [lastPageChangeAt p + MIN_PAGE_CHANGE_INTERVAL]).

(** [livro] opened on its first page and playing. *)
Definition tocando : Player :=
  mkPlayer shelf livro 0 7 true (-1) false false None 0 true false 0 None []
           [] ∅ "" false.

(** The player opened on page 2 of [outro], in step with the library. *)
Definition ouvinte : Player :=
  mkPlayer shelf outro 0 1 false (-1) false false None 0 false false 0 None []
           [1] {[0 := "nota"%string]} "" false.

End Stage.

(* ===================================================================== *)
(** * The store: appends, frames, annotations *)
(* ===================================================================== *)

Module StoreFacts.
Import Store Props.

(** The read-modify-write shape shared by the mutators. *)
Lemma loadLibrary_run sto fls pd fs :
  loadLibrary (mkWorld sto fls pd fs)
  = (Ok (if hd false fs then [] else match sto with Some l => l | None => [] end),
     mkWorld sto fls pd (tail fs)).
Proof. by destruct fs as [|[] fs]. Qed.

Lemma saveLibrary_run v sto fls pd fs :
  saveLibrary v (mkWorld sto fls pd fs)
  = if hd false fs then (Threw, mkWorld sto fls pd (tail fs))
    else (Ok tt, mkWorld (Some v) fls pd (tail fs)).
Proof. by destruct fs as [|[] fs]. Qed.

Lemma mapLibrary_run f sto fls pd fs :
  mapLibrary f (mkWorld sto fls pd fs)
  = (Ok tt,
     mkWorld (if hd false (tail fs) then sto
              else Some (map f (if hd false fs then []
                                else match sto with Some l => l | None => [] end)))
             fls pd (tail (tail fs))).
Proof.
  unfold mapLibrary, tryCatch, bind. rewrite loadLibrary_run, saveLibrary_run.
  by destruct (hd false (tail fs)).
Qed.






Lemma loadBookPages_quiet bookId sto fls pd :
  loadBookPages bookId (mkWorld sto fls pd [])
  = (Ok (fls !! bookId), mkWorld sto fls pd []).
Proof.
  unfold loadBookPages, tryCatch, bind, getInfoAsync, readAsStringAsync, bind, native.
  simpl. destruct (fls !! bookId) as [ps|] eqn:E; simpl.
  - by rewrite ?E.
  - done.
Qed.

Lemma appendPageData_quiet bookId p sto fls pd :
  appendPageData bookId p (mkWorld sto fls pd [])
  = (Ok (Z.of_nat (length (default [] (fls !! bookId) ++ [p]))),
     mkWorld sto (<[bookId := default [] (fls !! bookId) ++ [p]]> fls) pd []).
Proof.
  unfold appendPageData, tryCatch, bind at 1 2. simpl.
  rewrite loadBookPages_quiet. by destruct (fls !! bookId).
Qed.




(** C9, as stated, fails on saveAnnotation: called with the empty text it
    stores the empty string under the page index. *)
Lemma saveAnnotation_stores_empty_text :
  ∃ b, libraryOf (snd (saveAnnotation "doc" 2 "" shelf)) !! 0%nat = Some b
       ∧ id_arquivo b = "doc"%string
       ∧ annotations b !! 2 = Some ""%string.
Proof. eexists. split; [reflexivity|]. split; reflexivity. Qed.

End StoreFacts.

(* ===================================================================== *)
(** * The player: annotations *)
(* ===================================================================== *)

Module NotesFacts.
Import Store Props StoreFacts Player.

Lemma loadUpdatedBookData_world p :
  storage (world (loadUpdatedBookData p)) = storage (world p)
  ∧ files (world (loadUpdatedBookData p)) = files (world p).
Proof.
  unfold loadUpdatedBookData. destruct (world p) as [sto fls pd fs] eqn:E.
  rewrite loadLibrary_run. simpl.
  by destruct (find _ _).
Qed.

Lemma handleSaveAnnotation_storage p :
  storage (world (handleSaveAnnotation p))
  = storage (snd (mapLibrary
      (touches (id_arquivo (bookInfo p))
         (if is_blank (list_ascii_of_string (currentAnnotation p))
          then fun book =>
                 Store.set_annotations
                   (delete (currentPageIndex p) (Store.annotations book)) book
          else fun book =>
                 Store.set_annotations
                   (<[currentPageIndex p := currentAnnotation p]>
                      (Store.annotations book)) book))
      (world p))).
Proof.
  unfold handleSaveAnnotation. simpl.
  destruct (loadUpdatedBookData_world
    (set_world
       (snd ((if negb (is_blank (list_ascii_of_string (currentAnnotation p)))
              then saveAnnotation (id_arquivo (bookInfo p)) (currentPageIndex p)
                                  (currentAnnotation p)
              else removeAnnotation (id_arquivo (bookInfo p)) (currentPageIndex p))
             (world p))) p)) as [-> _].
  simpl. by destruct (is_blank _).
Qed.

(** C9, amended.  The save button of the note editor keeps the mapping
    sparse: whatever the storage does, if no stored note is blank before
    handleSaveAnnotation then none is afterwards; and with no storage
    failure the opened document's entry has, under the current page, no key
    at all when the edited text is empty or blank, and the edited text
    otherwise. *)
Theorem handleSaveAnnotation_sparse (p : Player) :
  (no_blank_annotations (libraryOf (world p)) →
   no_blank_annotations (libraryOf (world (handleSaveAnnotation p))))
  ∧ (faults (world p) = [] →
     ∀ b, b ∈ libraryOf (world (handleSaveAnnotation p)) →
          id_arquivo b = id_arquivo (bookInfo p) →
          Store.annotations b !! currentPageIndex p
          = if is_blank (list_ascii_of_string (currentAnnotation p))
            then None else Some (currentAnnotation p)).
Proof.
  unfold libraryOf. rewrite handleSaveAnnotation_storage.
  destruct (world p) as [sto fls pd fs]. rewrite mapLibrary_run. simpl. split.
  - intros Hinv. destruct (hd false (tail fs)); [done|].
    intros b q t Hb Hq.
    apply list_elem_of_fmap in Hb as (b0 & -> & Hb0).
    assert (Hb0' : b0 ∈ match sto with Some l => l | None => [] end).
    { destruct (hd false fs); [by apply elem_of_nil in Hb0|done]. }
    unfold touches in Hq. destruct (has_id _ b0); [|by eapply Hinv].
    destruct (is_blank (list_ascii_of_string (currentAnnotation p))) eqn:Hblank;
      simpl in Hq.
    + apply lookup_delete_Some in Hq as [_ Hq]. by eapply Hinv.
    + apply lookup_insert_Some in Hq as [[_ <-]|[_ Hq]]; [done|by eapply Hinv].
  - intros ->. simpl. intros b Hb Hid.
    apply list_elem_of_fmap in Hb as (b0 & -> & Hb0).
    unfold touches in *. destruct (has_id _ b0) eqn:Hhas.
    + destruct (is_blank _); simpl; [apply lookup_delete_eq|apply lookup_insert_eq].
    + unfold has_id in Hhas. apply bool_decide_eq_false in Hhas. done.
Qed.

Lemma handleSaveAnnotation_sparse_witness :
  faults (world (leitor "  ")) = []
  ∧ no_blank_annotations (libraryOf (world (handleSaveAnnotation (leitor "  "))))
  ∧ ∃ b, libraryOf (world (handleSaveAnnotation (leitor "  "))) !! 0%nat = Some b
         ∧ Store.annotations b !! 2 = None.
Proof.
  split; [reflexivity|].
  destruct (handleSaveAnnotation_sparse (leitor "  ")) as [Hinv Hkey].
  split.
  - apply Hinv.
    intros b q t Hb. apply list_elem_of_In in Hb. simpl in Hb.
    destruct Hb as [<-|[<-|[]]]; simpl.
    + by rewrite lookup_empty.
    + intros H. apply lookup_singleton_Some in H as [_ <-]. reflexivity.
  - eexists. split; [reflexivity|].
    apply (Hkey eq_refl); [|reflexivity].
    apply list_elem_of_In. left. reflexivity.
Defined.

End NotesFacts.

(* ===================================================================== *)
(** * The ingestion loop *)
(* ===================================================================== *)

Module LoopFacts.
Import Store Props StoreFacts Library.
#[local] Set Warnings "-clear-no-such-hyp".

Lemma io_same_loops {A} (c : IO A) st : same_loops st (snd (io c st)).
Proof. unfold io. by destruct (c (world st)). Qed.

Lemma loadBooksFromStorage_same_loops st :
  same_loops st (snd (loadBooksFromStorage st)).
Proof.
  unfold loadBooksFromStorage, bind, io, modify.
  destruct (loadLibrary (world st)) as [[books|] w1]; simpl; [|done].
  destruct (scanBooks books ∅ w1) as [[ip|] w2]; simpl; done.
Qed.

Lemma updateBookStatus_returns bookId s w :
  ∃ w', updateBookStatus bookId s w = (Ok tt, w').
Proof.
  change (updateBookStatus bookId s) with (mapLibrary (touches bookId (set_status s))).
  destruct w. rewrite mapLibrary_run. eauto.
Qed.

Lemma loadLibrary_returns w : ∃ lib w', loadLibrary w = (Ok lib, w').
Proof. destruct w. rewrite loadLibrary_run. eauto. Qed.

(** How [processPage] ends: with the marker deleted and no new task, or with
    the request posted. *)
Lemma processPage_outcome b p st :
  let st' := run (processPage b p) st in
  (tasks st' = tasks st
   ∧ processingControl st' = processingControl st ∖ {[id_arquivo b]}
   ∧ requests st' = requests st)
  ∨ ((total_paginas b <? p) = false
     ∧ tasks st' = tasks st ++ [mkTask b (AwaitFetch p)]
     ∧ processingControl st' = processingControl st
     ∧ requests st' = requests st ++ [(id_arquivo b, p)]).
Proof.
  unfold run, processPage. destruct (total_paginas b <? p) eqn:Hp.
  - left. unfold bind, io, deleteControl, modify, fire.
    destruct (updateBookStatus_returns (id_arquivo b) ready (world st)) as [w1 ->].
    simpl.
    match goal with |- context [loadBooksFromStorage ?s] =>
      destruct (loadBooksFromStorage_same_loops s) as (-> & -> & ->) end. done.
  - unfold bind, io, deleteControl, modify, suspend.
    destruct (loadLibrary_returns (world st)) as (lib & w1 & ->). simpl.
    destruct (negb _); simpl; [left|right]; done.
Qed.

(** How the continuation of a settled request ends: with the next page
    scheduled, or with the marker deleted. *)
Lemma processPage_settled_outcome b p r st :
  let st' := run (processPage_settled b p r) st in
  (tasks st' = tasks st ++ [mkTask b (AwaitTimer (p + 1))]
   ∧ processingControl st' = processingControl st
   ∧ requests st' = requests st)
  ∨ (tasks st' = tasks st
     ∧ processingControl st' = processingControl st ∖ {[id_arquivo b]}
     ∧ requests st' = requests st).
Proof.
  assert (Hcatch : ∀ s,
    let s' := snd ((await _ <- io (updateBookStatus (id_arquivo b) failed) ;;
                    await _ <- deleteControl (id_arquivo b) ;;
                    fire loadBooksFromStorage) s) in
    tasks s' = tasks s
    ∧ processingControl s' = processingControl s ∖ {[id_arquivo b]}
    ∧ requests s' = requests s).
  { intros s. unfold bind, io, deleteControl, modify, fire.
    destruct (updateBookStatus_returns (id_arquivo b) failed (world s)) as [w1 ->].
    simpl.
    match goal with |- context [loadBooksFromStorage ?s] =>
      destruct (loadBooksFromStorage_same_loops s) as (-> & -> & ->) end. done. }
  unfold run. destruct (processPage_settled b p r st) as [res s'] eqn:E. simpl.
  unfold processPage_settled, tryCatch in E. destruct r as [pageData|].
  - unfold bind at 1 in E.
    set (pre := (if (p =? 1) && foreign_language pageData then modify alert else ret tt)) in E.
    assert (Hpre : ∃ s1, pre st = (Ok tt, s1) ∧ same_loops st s1).
    { subst pre. destruct (_ && _); eexists; split; try reflexivity; done. }
    destruct Hpre as (s1 & Hs1 & H1 & H2 & H3). rewrite Hs1 in E.
    unfold bind at 1, io in E.
    destruct (appendPageData (id_arquivo b) pageData (world s1)) as [[n|] w2].
    + left. simpl in E. inversion E; subst; simpl. by rewrite H1, H2, H3.
    + right. pose proof (Hcatch (set_world w2 s1)) as G. cbv zeta in G.
      unfold io in G. simpl in E. rewrite E in G. simpl in G.
      destruct G as (G1 & G2 & G3). by rewrite G1, G2, G3, H1, H2, H3.
  - right. unfold throw in E. pose proof (Hcatch st) as G. by rewrite E in G.
Qed.

Lemma processBookPages_guard b st :
  id_arquivo b ∈ processingControl st → processBookPages b st = (Ok tt, st).
Proof.
  intros H. unfold processBookPages, bind, gets, in_flight.
  by rewrite bool_decide_eq_true_2.
Qed.

Lemma loadBookPages_returns bookId w :
  ∃ pages w', loadBookPages bookId w = (Ok pages, w').
Proof.
  unfold loadBookPages, tryCatch.
  match goal with |- context [match ?c w with _ => _ end] => destruct (c w) as [[x|] w'] end;
    eauto.
Qed.

Lemma processBookPages_start b st :
  id_arquivo b ∉ processingControl st →
  ∃ pages w1,
    loadBookPages (id_arquivo b) (world st) = (Ok pages, w1)
    ∧ processBookPages b st
      = processPage b (count_pages pages + 1)
          (set_world w1 (set_control ({[id_arquivo b]} ∪ processingControl st) st)).
Proof.
  intros H. destruct (loadBookPages_returns (id_arquivo b) (world st)) as (pages & w1 & E).
  exists pages, w1. split; [done|].
  unfold processBookPages, bind at 1, gets, in_flight.
  rewrite bool_decide_eq_false_2 by done.
  unfold bind at 1, modify. unfold bind at 1, io. simpl. by rewrite E.
Qed.










Lemma quiet_world w : faults w = [] → w = mkWorld (storage w) (files w) (pdfs w) [].
Proof. destruct w. simpl. by intros ->. Qed.

Lemma loadLibrary_quiet w :
  faults w = [] → loadLibrary w = (Ok (libraryOf w), w).
Proof. intros H. rewrite (quiet_world w H) at 1 3. by rewrite loadLibrary_run. Qed.

Lemma updateBookStatus_quiet bookId s w :
  faults w = [] →
  updateBookStatus bookId s w
  = (Ok tt, set_storage (Some (map (touches bookId (set_status s)) (libraryOf w))) w).
Proof.
  intros H. rewrite (quiet_world w H) at 1.
  change (updateBookStatus bookId s) with (mapLibrary (touches bookId (set_status s))).
  rewrite mapLibrary_run. simpl. unfold set_storage. by rewrite H.
Qed.

Lemma loadBookPages_quiet' bookId w :
  faults w = [] → loadBookPages bookId w = (Ok (files w !! bookId), w).
Proof. intros H. rewrite (quiet_world w H) at 1 3. by rewrite loadBookPages_quiet. Qed.

Lemma appendPageData_quiet' bookId p w :
  faults w = [] →
  appendPageData bookId p w
  = (Ok (Z.of_nat (length (default [] (files w !! bookId) ++ [p]))),
     set_files (<[bookId := default [] (files w !! bookId) ++ [p]]> (files w)) w).
Proof.
  intros H. rewrite (quiet_world w H) at 1. rewrite appendPageData_quiet.
  unfold set_files. by rewrite H.
Qed.

(** The resume point. *)
Lemma processBookPages_resume b st :
  id_arquivo b ∉ processingControl st → faults (world st) = [] →
  processBookPages b st
  = processPage b (count_pages (files (world st) !! id_arquivo b) + 1)
      (set_control ({[id_arquivo b]} ∪ processingControl st) st).
Proof.
  intros Hc Hf. destruct (processBookPages_start b st Hc) as (pages & w1 & E & ->).
  rewrite loadBookPages_quiet' in E by done. inversion E; subst.
  by destruct st.
Qed.

(** A page within the document: the request is posted. *)
Lemma processPage_posts b p st :
  faults (world st) = [] → on_shelf (id_arquivo b) (world st) → p ≤ total_paginas b →
  run (processPage b p) st
  = set_tasks (tasks st ++ [mkTask b (AwaitFetch p)])
      (log_request (id_arquivo b, p) st).
Proof.
  intros Hf Hs Hp. unfold run, processPage.
  replace (total_paginas b <? p) with false by (symmetry; apply Z.ltb_ge; lia).
  unfold bind at 1, io. rewrite loadLibrary_quiet by done.
  unfold on_shelf in Hs. rewrite Hs. simpl. by destruct st.
Qed.

(** The page arrives and the disk works: the record is appended and the
    next page is scheduled. *)
Lemma processPage_settled_appends b p pageData st :
  faults (world st) = [] →
  let st' := run (processPage_settled b p (Sucesso pageData)) st in
  world st'
  = set_files (<[id_arquivo b :=
                   default [] (files (world st) !! id_arquivo b) ++ [pageData]]>
                 (files (world st))) (world st)
  ∧ tasks st' = tasks st ++ [mkTask b (AwaitTimer (p + 1))]
  ∧ processingControl st' = processingControl st
  ∧ requests st' = requests st.
Proof.
  intros Hf.
  assert (E : ∃ s2, processPage_settled b p (Sucesso pageData) st = (Ok tt, s2)
    ∧ world s2 = set_files (<[id_arquivo b :=
                   default [] (files (world st) !! id_arquivo b) ++ [pageData]]>
                 (files (world st))) (world st)
    ∧ tasks s2 = tasks st ++ [mkTask b (AwaitTimer (p + 1))]
    ∧ processingControl s2 = processingControl st
    ∧ requests s2 = requests st).
  { unfold processPage_settled, tryCatch, bind at 1.
    destruct ((p =? 1) && foreign_language pageData); simpl;
      unfold bind at 1, io; simpl; rewrite appendPageData_quiet' by done; simpl;
      eexists; split; try reflexivity; done. }
  destruct E as (s2 & E & G). unfold run. by rewrite E.
Qed.





Lemma exec_settle st b p r rest :
  tasks st = mkTask b (AwaitFetch p) :: rest →
  exec (EvSettle 0 r) st = run (processPage_settled b p r) (set_tasks rest st).
Proof. intros H. simpl. by rewrite H. Qed.






(** The scan of [loadBooksFromStorage] leaves a failed document failed. *)
Lemma scanBooks_keeps_failed bookId books : ∀ ip w,
  faults w = [] →
  (∀ book, book ∈ books → id_arquivo book = bookId → status book ≠ processing) →
  marked failed bookId w →
  ∃ ip' w', scanBooks books ip w = (Ok ip', w')
            ∧ faults w' = [] ∧ files w' = files w ∧ marked failed bookId w'.
Proof.
  induction books as [|book rest IH]; intros ip w Hf Hbooks Hm; simpl;
    [by exists ip, w|].
  assert (Hrest : ∀ b, b ∈ rest → id_arquivo b = bookId → status b ≠ processing).
  { intros b Hb. apply Hbooks. by right. }
  case_bool_decide; [|by apply IH].
  unfold bind at 1. rewrite loadBookPages_quiet' by done.
  unfold bind at 1.
  destruct (is_processing book && _) eqn:Hproc.
  - rewrite updateBookStatus_quiet by done.
    match goal with |- context [scanBooks rest ?i ?w] =>
      destruct (IH i w) as (ip' & w' & -> & G1 & G2 & G3) end;
      [done|done| |by exists ip', w'].
    intros b' Hb' Hid. unfold libraryOf in Hb'. simpl in Hb'.
    apply list_elem_of_fmap in Hb' as (b0 & -> & Hb0).
    unfold touches, has_id in *. case_bool_decide as Hx; [|by apply Hm].
    exfalso. apply andb_true_iff in Hproc as [Hproc _].
    unfold is_processing in Hproc. apply bool_decide_eq_true in Hproc.
    apply (Hbooks book); [by left| |done]. simpl in Hid. congruence.
  - apply IH; done.
Qed.

(** The part of C2 the code keeps: a failed request marks the document
    'failed', deletes the marker and leaves no task. *)
Lemma fetch_failure_stops b p st :
  faults (world st) = [] →
  let st' := run (processPage_settled b p Falha) st in
  marked failed (id_arquivo b) (world st')
  ∧ tasks st' = tasks st
  ∧ processingControl st' = processingControl st ∖ {[id_arquivo b]}
  ∧ requests st' = requests st
  ∧ files (world st') = files (world st).
Proof.
  intros Hf.
  assert (E : ∃ s2, processPage_settled b p Falha st = (Ok tt, s2)
    ∧ marked failed (id_arquivo b) (world s2)
    ∧ tasks s2 = tasks st
    ∧ processingControl s2 = processingControl st ∖ {[id_arquivo b]}
    ∧ requests s2 = requests st
    ∧ files (world s2) = files (world st)).
  { unfold processPage_settled, tryCatch, throw.
    unfold bind at 1, io. rewrite updateBookStatus_quiet by done.
    unfold bind at 1, deleteControl, modify, fire. simpl.
    unfold loadBooksFromStorage, bind at 1, io at 1. simpl.
    rewrite loadLibrary_quiet by done. simpl.
    unfold bind at 1, modify. unfold bind at 1, io. simpl.
    assert (Hm : marked failed (id_arquivo b)
              (set_storage (Some (map (touches (id_arquivo b) (set_status failed))
                                      (libraryOf (world st)))) (world st))).
    { intros b' Hb' Hid. unfold libraryOf in Hb'. simpl in Hb'.
      apply list_elem_of_fmap in Hb' as (b0 & -> & Hb0).
      unfold touches, has_id in *. case_bool_decide; [done|]. exfalso. done. }
    match goal with |- context [scanBooks ?bs ?i ?w] =>
      destruct (scanBooks_keeps_failed (id_arquivo b) bs i w)
        as (ip' & w' & -> & G1 & G2 & G3) end.
    - done.
    - intros book Hbook Hid Hst. specialize (Hm book Hbook Hid). congruence.
    - done.
    - simpl. eexists. split; [reflexivity|]. done. }
  destruct E as (s2 & E & G). unfold run. by rewrite E.
Qed.

(** Reading the page file never changes the files. *)
Lemma loadBookPages_files bookId w :
  files (snd (loadBookPages bookId w)) = files w
  ∧ storage (snd (loadBookPages bookId w)) = storage w.
Proof.
  destruct w as [sto fls pd fs].
  unfold loadBookPages, tryCatch, bind, getInfoAsync, readAsStringAsync, bind, native.
  simpl. destruct fs as [|[] [|[] fs]]; simpl; try done;
    destruct (bool_decide _); simpl; try done; destruct (fls !! bookId); done.
Qed.

Lemma updateBookStatus_files bookId s w :
  files (snd (updateBookStatus bookId s w)) = files w.
Proof.
  change (updateBookStatus bookId s) with (mapLibrary (touches bookId (set_status s))).
  destruct w. by rewrite mapLibrary_run.
Qed.

Lemma scanBooks_files books : ∀ ip w, files (snd (scanBooks books ip w)) = files w.
Proof.
  induction books as [|book rest IH]; intros ip w; simpl; [done|].
  case_bool_decide; [|by apply IH].
  unfold bind at 1.
  destruct (loadBookPages (id_arquivo book) w) as [[pages|] w1] eqn:E; simpl.
  - pose proof (loadBookPages_files (id_arquivo book) w) as [H1 _].
    rewrite E in H1. simpl in H1.
    unfold bind at 1.
    destruct (is_processing book && _).
    + pose proof (updateBookStatus_files (id_arquivo book) ready w1) as H2.
      destruct (updateBookStatus (id_arquivo book) ready w1) as [[[]|] w2]; simpl in *.
      * rewrite IH. congruence.
      * congruence.
    + unfold ret at 1. rewrite IH. done.
  - pose proof (loadBookPages_files (id_arquivo book) w) as [H1 _].
    by rewrite E in H1.
Qed.

Lemma loadBooksFromStorage_files st :
  files (world (snd (loadBooksFromStorage st))) = files (world st).
Proof.
  unfold loadBooksFromStorage, bind, io, modify.
  destruct (world st) as [sto fls pd fs] eqn:Ew. rewrite loadLibrary_run. simpl.
  match goal with |- context [scanBooks ?bs ?i ?w] =>
    pose proof (scanBooks_files bs i w) as H;
    destruct (scanBooks bs i w) as [[ip|] w2] end; simpl in *; done.
Qed.

(** The part of C5 the code keeps: a cycle that starts after the removal
    writes no page file, whatever the storage does. *)
Lemma processPage_writes_no_page b p st :
  files (world (run (processPage b p) st)) = files (world st).
Proof.
  unfold run, processPage. destruct (total_paginas b <? p).
  - unfold bind at 1, io.
    pose proof (updateBookStatus_files (id_arquivo b) ready (world st)) as H.
    destruct (updateBookStatus_returns (id_arquivo b) ready (world st)) as [w1 E].
    rewrite E in *. simpl in H.
    unfold bind at 1, deleteControl, modify, fire. simpl.
    rewrite loadBooksFromStorage_files. done.
  - unfold bind at 1, io.
    destruct (world st) as [sto fls pd fs] eqn:Ew. rewrite loadLibrary_run.
    destruct (negb _); simpl; by rewrite ?Ew.
Qed.

(** Once the marker of a document is unset, no settled request and no
    timer of its loop sets it again. *)
Lemma marker_stays_unset n st ev :
  (∃ r, ev = EvSettle n r) ∨ ev = EvTimer n →
  ∀ b ph, tasks st !! n = Some (mkTask b ph) →
  id_arquivo b ∉ processingControl st →
  id_arquivo b ∉ processingControl (exec ev st).
Proof.
  intros [[r ->]| ->] b ph Hn Hc; simpl; rewrite Hn; destruct ph as [p|p]; try done.
  - destruct (processPage_settled_outcome b p r (set_tasks (delete n (tasks st)) st))
      as [(_ & G & _)|(_ & G & _)]; rewrite G; simpl; set_solver.
  - destruct (processPage_outcome b p (set_tasks (delete n (tasks st)) st))
      as [(_ & G & _)|(_ & _ & G & _)]; rewrite G; simpl; set_solver.
Qed.

(** A rejection of makeDirectoryAsync, which appendPageData calls outside
    its own try block, does reach the catch block of processPage. *)
Lemma mkdir_failure_stops :
  let st := execs [EvEffect; EvSettle 0 (Sucesso (pagina "um"))]
                  (opened (failing_call 3 shelf)) in
  map status (libraryOf (world st)) = [failed; ready]
  ∧ in_flight "doc" st = false
  ∧ tasks st = [].
Proof. vm_compute. repeat split; reflexivity. Qed.




(** C2, at a failing write.  The document has three pages and none on disk.
    The loop starts, the request for page 1 is answered with success, and
    the write of the page file rejects (the seventh native call).  The
    status is still 'processing', the marker is still set, the page file is
    still empty, and the timer then posts the request for page 2. *)
Theorem write_failure_is_not_seen :
  let st := execs [EvEffect; EvSettle 0 (Sucesso (pagina "um")); EvTimer 0]
                  (opened (failing_call 6 shelf)) in
  map status (libraryOf (world st)) = [processing; ready]
  ∧ in_flight "doc" st = true
  ∧ files (world st) !! "doc"%string = Some []
  ∧ tasks st = [mkTask doc (AwaitFetch 2)]
  ∧ requests st = [("doc"%string, 1); ("doc"%string, 2)].
Proof. vm_compute. repeat split; reflexivity. Qed.

(** C5, at a removal during the request.  The loop has posted the request
    for page 1 when the document is removed: the entry and the page file
    are gone.  The request then settles with success and the page is
    written, which creates the page file again; the next cycle finds the
    document gone and stops, with the marker unset. *)
Theorem removal_during_fetch_still_writes :
  let st1 := execs [EvEffect; EvRemove "doc"] (opened shelf) in
  let st2 := exec (EvSettle 0 (Sucesso (pagina "um"))) st1 in
  let st3 := exec (EvTimer 0) st2 in
  (tasks st1 = [mkTask doc (AwaitFetch 1)]
   ∧ files (world st1) !! "doc"%string = None
   ∧ map id_arquivo (libraryOf (world st1)) = ["outro"%string])
  ∧ files (world st2) !! "doc"%string = Some [pagina "um"]
  ∧ (tasks st3 = [] ∧ in_flight "doc" st3 = false
     ∧ files (world st3) !! "doc"%string = Some [pagina "um"]).
Proof. vm_compute. repeat split; reflexivity. Qed.

End LoopFacts.

(* ===================================================================== *)
(** * The player: word index and page fit *)
(* ===================================================================== *)

Module PlayerFacts.
Import Props Player.
#[local] Open Scope Z_scope.

Lemma after_separator_well_split ws : after_separator ws → well_split ws.
Proof. destruct ws as [|w [|w' ws]]; simpl; tauto. Qed.

Lemma after_separator_cons w ws :
  no_space w → w ≠ [] → after_separator ws → after_separator (w :: ws).
Proof. destruct ws; simpl; tauto. Qed.

Lemma well_split_cons w ws :
  no_space w → after_separator ws → well_split (w :: ws).
Proof. destruct ws; simpl; tauto. Qed.

Lemma well_split_inv w ws :
  well_split (w :: ws) → no_space w ∧ after_separator ws.
Proof. destruct ws; simpl; tauto. Qed.

Lemma split_from_nonempty b s : split_from b s ≠ [].
Proof.
  revert b. induction s as [|c s IH]; intros b; simpl; [done|].
  destruct (isSpace c).
  - destruct b; [apply IH|done].
  - by destruct (split_from false s).
Qed.

Lemma split_from_shape s :
  well_split (split_from false s) ∧ after_separator (split_from true s).
Proof.
  induction s as [|c s [IH1 IH2]]; simpl.
  - split; constructor.
  - destruct (isSpace c) eqn:Hc.
    + split; [|done]. apply well_split_cons; [constructor|done].
    + pose proof (split_from_nonempty false s) as Hne.
      destruct (split_from false s) as [|w ws]; [done|].
      apply well_split_inv in IH1 as [Hw Hws].
      assert (Hcw : no_space (c :: w)) by (by constructor).
      split; [by apply well_split_cons|by apply after_separator_cons].
Qed.

Lemma well_split_drop k : ∀ ws, well_split ws → well_split (drop k ws).
Proof.
  induction k as [|k IH]; intros ws H; [by rewrite drop_0|].
  destruct ws as [|w ws]; [done|]. simpl.
  apply IH, after_separator_well_split. by apply well_split_inv in H as [_ H].
Qed.

Lemma count_from_no_space b w rest :
  no_space w →
  count_from b (w ++ rest) = count_from (if w is [] then b else false) rest.
Proof.
  intros Hw. revert b. induction Hw as [|c w Hc Hw IH]; intros b; simpl; [done|].
  rewrite Hc, IH. by destruct w.
Qed.

Lemma count_from_take_no_space b w o :
  no_space w → count_from b (take o w) = 0%nat.
Proof.
  intros Hw. revert b o. induction Hw as [|c w Hc Hw IH]; intros b [|o]; simpl; try done.
  by rewrite Hc, IH.
Qed.

Lemma join_sp_cons w w' rest :
  join_sp (w :: w' :: rest) = w ++ space :: join_sp (w' :: rest).
Proof. done. Qed.

Lemma count_over_join ws : ∀ (in_ws : bool) o,
  (if in_ws then after_separator ws else well_split ws) →
  (o ≤ length (join_sp ws))%nat →
  count_from in_ws (take o (join_sp ws)) = tokens_before ws o.
Proof.
  induction ws as [|w ws IH]; intros in_ws o Hws Ho.
  - simpl. by rewrite take_nil.
  - destruct ws as [|w' rest].
    + (* the last word *)
      simpl in *. assert (Hw : no_space w) by (by destruct in_ws).
      rewrite count_from_take_no_space by done.
      replace (length w + 1 <=? o)%nat with false; [done|].
      symmetry. apply Nat.leb_gt. lia.
    + assert (Hw : no_space w ∧ after_separator (w' :: rest)
                   ∧ (in_ws = true → w ≠ [])).
      { destruct in_ws; simpl in Hws; [|split; [tauto|split; [tauto|done]]].
        destruct Hws as (? & ? & ?). done. }
      destruct Hw as (Hw & Hrest & Hne).
      rewrite join_sp_cons in *. cbn [tokens_before].
      destruct (length w + 1 <=? o)%nat eqn:Hlen.
      * apply Nat.leb_le in Hlen.
        rewrite take_app_ge by lia.
        assert (Ho' : (o - length w = S (o - (length w + 1)))%nat) by lia.
        rewrite Ho'.
        rewrite firstn_cons, count_from_no_space by done.
        cbn [count_from]. change (isSpace space) with true. cbn iota.
        rewrite (IH true); [|done|].
        -- destruct w; [|done]. destruct in_ws; [|done]. by destruct Hne.
        -- rewrite length_app in Ho. cbn [length] in Ho. lia.
      * apply Nat.leb_gt in Hlen.
        rewrite take_app_le by lia. by rewrite count_from_take_no_space.
Qed.

Lemma tokens_before_word_start ws : ∀ j,
  (j < length ws)%nat → tokens_before ws (word_start ws j) = j.
Proof.
  induction ws as [|w ws IH]; intros j Hj; simpl in Hj; [lia|].
  destruct j as [|j]; simpl.
  - replace (length w + 1 <=? 0)%nat with false; [done|].
    symmetry. apply Nat.leb_gt. lia.
  - replace (length w + 1 <=? length w + 1 + word_start ws j)%nat with true
      by (symmetry; apply Nat.leb_le; lia).
    f_equal. replace (length w + 1 + word_start ws j - (length w + 1))%nat
      with (word_start ws j) by lia.
    apply IH. lia.
Qed.

Lemma word_start_bound ws : ∀ j,
  (j < length ws)%nat → (word_start ws j ≤ length (join_sp ws))%nat.
Proof.
  induction ws as [|w ws IH]; intros j Hj; simpl in Hj; [lia|].
  destruct j as [|j]; [simpl; lia|].
  destruct ws as [|w' rest]; [simpl in Hj; lia|].
  rewrite join_sp_cons, length_app.
  change (word_start (w :: w' :: rest) (S j))
    with (length w + 1 + word_start (w' :: rest) j)%nat.
  specialize (IH j). cbn [length] in IH, Hj |- *. lia.
Qed.

Lemma startSpeech_speaks textToSpeak k p seg :
  0 ≤ k → utterance (startSpeech textToSpeak k (speechStop p)) = Some seg →
  seg = join_sp (slice_from k (split_ws (list_ascii_of_string textToSpeak)))
  ∧ speechStartIndex (startSpeech textToSpeak k (speechStop p)) = k
  ∧ utterance (startSpeech textToSpeak k (speechStop p)) = Some seg.
Proof.
  intros Hk. unfold startSpeech.
  destruct (is_blank _); [done|].
  replace (0 <=? k) with true by (symmetry; apply Z.leb_le; lia).
  destruct (join_sp _) as [|c s] eqn:E; [done|].
  simpl. intros [= <-]. done.
Qed.

(** C8.  When speech starts from word index [k >= 0] of a page text, the
    segment handed to the engine is the words from index [k] onward joined
    by single spaces, and for every offset into that segment the boundary
    handler sets the word index to [k] plus the number of tokens of the
    segment consumed before the offset, a token being consumed once the
    white space after it has been passed.  In particular a boundary at the
    start of the j-th word of the segment gives the index k + j.  (The words
    are those of split(/\s+/): a text that starts with white space has an
    empty first word.) *)
Theorem boundary_word_index (textToSpeak : string) (k offset : Z) (p : Player)
    (seg : list ascii) :
  0 ≤ k →
  utterance (startSpeech textToSpeak k (speechStop p)) = Some seg →
  0 ≤ offset ≤ Z.of_nat (length seg) →
  let words := slice_from k (split_ws (list_ascii_of_string textToSpeak)) in
  let speaking := startSpeech textToSpeak k (speechStop p) in
  seg = join_sp words
  ∧ currentWordIndex (onBoundary (Some offset) speaking)
    = k + Z.of_nat (tokens_before words (Z.to_nat offset))
  ∧ ∀ j, (j < length words)%nat →
         currentWordIndex (onBoundary (Some (Z.of_nat (word_start words j))) speaking)
         = k + Z.of_nat j.
Proof.
  intros Hk Hseg Hoff words speaking.
  destruct (startSpeech_speaks _ _ _ _ Hk Hseg) as (Hjoin & Hstart & Hutt).
  fold words in Hjoin. fold speaking in Hstart, Hutt.
  assert (Hws : well_split words).
  { apply well_split_drop, split_from_shape. }
  assert (Hidx : ∀ o, (o ≤ length seg)%nat →
            currentWordIndex (onBoundary (Some (Z.of_nat o)) speaking)
            = k + Z.of_nat (tokens_before words o)).
  { intros o Ho. unfold onBoundary. rewrite Hutt. simpl. rewrite Hstart.
    unfold substring0, count_ws_runs. rewrite Nat2Z.id, Hjoin.
    rewrite (count_over_join words false); [done|done|]. by rewrite <- Hjoin. }
  split; [done|]. split.
  - rewrite <- (Z2Nat.id offset) at 1 by lia. apply Hidx. lia.
  - intros j Hj. rewrite Hidx.
    + by rewrite tokens_before_word_start.
    + rewrite Hjoin. by apply word_start_bound.
Qed.

Lemma boundary_word_index_witness :
  currentWordIndex
    (onBoundary (Some 5) (startSpeech frase 2 (speechStop (leitor ""))))
  = 2 + 1.
Proof.
  assert (Hk : 0 ≤ 2) by lia.
  assert (Hoff : 0 ≤ 5 ≤ Z.of_nat (length (list_ascii_of_string "rato roeu a roupa")))
    by (simpl; lia).
  destruct (boundary_word_index frase 2 5 (leitor "")
              (list_ascii_of_string "rato roeu a roupa") Hk eq_refl Hoff)
    as (_ & H & _).
  exact H.
Defined.

(** C7, as stated, fails in the arithmetic the program runs in.  For a page
    609 by 860 in a container 360 by 640 the scale is the double nearest to
    360/609; the scaled width 609 * scale is a double above 360, the scaled
    height is not 640 either, and the left offset is negative. *)
Lemma fit_overshoots_in_doubles :
  ∃ f, fitPage page_609 screen_360 = Some f
       ∧ PrimFloat.leb (width page_609 * pdfScale f) (width screen_360) = false
       ∧ PrimFloat.eqb (height page_609 * pdfScale f) (height screen_360) = false
       ∧ PrimFloat.ltb (leftOffset f) 0 = true.
Proof. eexists. split; [reflexivity|]. repeat split; reflexivity. Qed.

#[local] Open Scope Q_scope.

Lemma num_gt_exact (a b : Q) : b < a → num_gt a b = true.
Proof.
  intros H. simpl. apply negb_true_iff. apply not_true_is_false.
  intros Hle%Qle_bool_iff. apply (Qlt_not_le _ _ H Hle).
Qed.

(** C7, amended.  The scale is min(containerWidth/pageWidth,
    containerHeight/pageHeight); evaluated in exact arithmetic, for a
    container of positive size and a page wider and higher than 1, it
    satisfies scale * pageWidth <= containerWidth and scale * pageHeight <=
    containerHeight with equality on at least one axis, and the offsets
    leave equal margins on both sides of the scaled page. *)
Theorem fitPage_exact (pdfLayout containerLayout : Layout Q) :
  1 < width pdfLayout → 1 < height pdfLayout →
  0 < width containerLayout → 0 < height containerLayout →
  ∃ f, fitPage pdfLayout containerLayout = Some f
       ∧ pdfScale f = Qmin (width containerLayout / width pdfLayout)
                           (height containerLayout / height pdfLayout)
       ∧ pdfScale f * width pdfLayout <= width containerLayout
       ∧ pdfScale f * height pdfLayout <= height containerLayout
       ∧ (pdfScale f * width pdfLayout == width containerLayout
          ∨ pdfScale f * height pdfLayout == height containerLayout)
       ∧ leftOffset f + width pdfLayout * pdfScale f + leftOffset f
         == width containerLayout
       ∧ topOffset f + height pdfLayout * pdfScale f + topOffset f
         == height containerLayout.
Proof.
  destruct pdfLayout as [pw ph], containerLayout as [cw ch]. simpl.
  intros Hpw Hph Hcw Hch. unfold fitPage.
  rewrite !num_gt_exact by done. simpl.
  eexists. split; [reflexivity|]. simpl. split; [reflexivity|].
  assert (Hpw0 : 0 < pw) by (eapply Qlt_trans; [|exact Hpw]; reflexivity).
  assert (Hph0 : 0 < ph) by (eapply Qlt_trans; [|exact Hph]; reflexivity).
  assert (Npw : ¬ pw == 0) by (intros E; rewrite E in Hpw0; inversion Hpw0).
  assert (Nph : ¬ ph == 0) by (intros E; rewrite E in Hph0; inversion Hph0).
  assert (Hw : cw / pw * pw == cw) by (field; assumption).
  assert (Hh : ch / ph * ph == ch) by (field; assumption).
  destruct (Q.min_spec (cw / pw) (ch / ph)) as [[Hlt Heq]|[Hle Heq]]; rewrite Heq.
  - repeat split.
    + rewrite Hw. apply Qle_refl.
    + apply Qle_trans with (ch / ph * ph); [|rewrite Hh; apply Qle_refl].
      apply Qmult_le_compat_r; by apply Qlt_le_weak.
    + by left.
    + field; repeat split; assumption.
    + field; repeat split; assumption.
  - repeat split.
    + apply Qle_trans with (cw / pw * pw); [|rewrite Hw; apply Qle_refl].
      apply Qmult_le_compat_r; [done|by apply Qlt_le_weak].
    + rewrite Hh. apply Qle_refl.
    + by right.
    + field; repeat split; assumption.
    + field; repeat split; assumption.
Qed.

Lemma fitPage_exact_witness :
  ∃ f, fitPage page_609_exact screen_360_exact = Some f
       ∧ pdfScale f * 609 == 360.
Proof.
  destruct (fitPage_exact page_609_exact screen_360_exact)
    as (f & Hf & Hs & _); [reflexivity..|].
  exists f. split; [exact Hf|]. rewrite Hs. reflexivity.
Defined.

End PlayerFacts.

(* ===================================================================== *)
(** * The player: navigation throttle *)
(* ===================================================================== *)

Module NavFacts.
Import Store Props Player.
#[local] Open Scope Z_scope.








End NavFacts.

(* ===================================================================== *)
(** * Laws of the store *)
(* ===================================================================== *)

Module StoreLaws.
Import Store Props Shelf StoreFacts.
#[local] Set Warnings "-clear-no-such-hyp".

Lemma default_storage (sto : option (list Book)) :
  match sto with Some l => l | None => [] end = default [] sto.
Proof. by destruct sto. Qed.

Lemma saveBook_quiet b sto fls pd :
  saveBook b (mkWorld sto fls pd [])
  = (Ok tt,
     if existsb (has_id (id_arquivo b)) (default [] sto)
     then mkWorld sto fls pd []
     else mkWorld (Some (default [] sto ++ [newBook b]))
                  (<[id_arquivo b := []]> fls) pd []).
Proof.
  unfold saveBook, tryCatch, bind at 1. rewrite loadLibrary_run. simpl.
  rewrite default_storage. destruct (existsb _ _); reflexivity.
Qed.

Lemma removeBook_quiet bookId sto fls pd :
  removeBook bookId (mkWorld sto fls pd [])
  = (Ok tt,
     mkWorld (Some (filter (fun book => id_arquivo book ≠ bookId) (default [] sto)))
             (delete bookId fls)
             (match find (has_id bookId) (default [] sto) ≫= localUri with
              | Some uri => pd ∖ {[uri]}
              | None => pd
              end) []).
Proof.
  unfold removeBook, tryCatch, bind at 1. rewrite loadLibrary_run. simpl.
  rewrite default_storage. destruct (find _ _ ≫= localUri); reflexivity.
Qed.

Lemma existsb_has_id bookId lib :
  existsb (has_id bookId) lib = true ↔ bookId ∈ ids lib.
Proof.
  unfold ids. rewrite existsb_exists, list_elem_of_fmap. unfold has_id.
  split.
  - intros (b & Hb & Hid). apply bool_decide_eq_true in Hid.
    exists b. split; [done|]. by apply list_elem_of_In.
  - intros (b & -> & Hb). exists b. split; [by apply list_elem_of_In|].
    by apply bool_decide_eq_true.
Qed.

Lemma filter_others_ids bookId lib :
  bookId ∉ ids (filter (fun book => id_arquivo book ≠ bookId) lib).
Proof.
  unfold ids. intros (b & Hid & Hb)%list_elem_of_fmap.
  apply list_elem_of_filter in Hb as [Hne _]. by apply Hne.
Qed.

Lemma filter_absent_id bookId lib :
  bookId ∉ ids lib → filter (fun book => id_arquivo book ≠ bookId) lib = lib.
Proof.
  unfold ids. induction lib as [|b lib IH]; intros H; [done|].
  rewrite filter_cons. simpl in H. apply not_elem_of_cons in H as [H1 H2].
  rewrite decide_True by done. f_equal. by apply IH.
Qed.

Lemma find_absent_id bookId lib :
  bookId ∉ ids lib → find (has_id bookId) lib = None.
Proof.
  unfold ids. induction lib as [|b lib IH]; intros H; [done|].
  simpl in H. apply not_elem_of_cons in H as [H1 H2]. simpl.
  unfold has_id at 1. rewrite bool_decide_eq_false_2 by done. by apply IH.
Qed.

(** X1.  saveBook, with no storage failure and for an identifier not yet
    on the shelf: the entry is added at the end of the library with status
    processing, position 0, no listening time, not completed, no bookmarks
    and no notes; an empty page file is created, so that loadBookPages
    answers the empty array; the PDF files are left alone. *)
Theorem saveBook_adds (b : Book) (w : World) :
  faults w = [] → id_arquivo b ∉ ids (libraryOf w) →
  let w' := snd (saveBook b w) in
  libraryOf w' = libraryOf w ++ [newBook b]
  ∧ files w' = <[id_arquivo b := []]> (files w)
  ∧ pdfs w' = pdfs w
  ∧ loadBookPages (id_arquivo b) w' = (Ok (Some []), w').
Proof.
  destruct w as [sto fls pd fs]. simpl. intros -> Hid.
  rewrite saveBook_quiet.
  assert (E : existsb (has_id (id_arquivo b)) (default [] sto) = false).
  { apply not_true_is_false. intros H%existsb_has_id. apply Hid.
    unfold libraryOf. simpl. by destruct sto. }
  rewrite E. simpl. unfold libraryOf. simpl.
  split; [by destruct sto|]. split; [done|]. split; [done|].
  rewrite loadBookPages_quiet. by rewrite lookup_insert_eq.
Qed.

Lemma saveBook_adds_witness :
  faults shelf = []
  ∧ libraryOf (snd (saveBook livro shelf)) = [doc; outro; newBook livro].
Proof.
  split; [reflexivity|].
  assert (H : id_arquivo livro ∉ ids (libraryOf shelf)).
  { intros H. apply list_elem_of_In in H. simpl in H.
    destruct H as [H|[H|[]]]; discriminate. }
  destruct (saveBook_adds livro shelf eq_refl H) as (-> & _). reflexivity.
Defined.

(** X2.  saveBook is idempotent per identifier: with no storage failure,
    a second call for the same identifier changes nothing, whatever the
    other fields of its argument; and a call for an identifier already on
    the shelf leaves the device as it was (the stored entry, its status,
    bookmarks and notes are not reset, the page file is not emptied). *)
Theorem saveBook_idempotent (b b' : Book) (w : World) :
  faults w = [] → id_arquivo b' = id_arquivo b →
  snd (saveBook b' (snd (saveBook b w))) = snd (saveBook b w)
  ∧ (id_arquivo b ∈ ids (libraryOf w) → snd (saveBook b w) = w).
Proof.
  destruct w as [sto fls pd fs]. simpl. intros -> Hid.
  rewrite saveBook_quiet. split.
  - destruct (existsb (has_id (id_arquivo b)) (default [] sto)) eqn:E; simpl.
    + rewrite saveBook_quiet, Hid, E. done.
    + rewrite saveBook_quiet. simpl.
      assert (E' : existsb (has_id (id_arquivo b')) (default [] sto ++ [newBook b]) = true).
      { apply existsb_has_id. unfold ids. rewrite map_app. apply elem_of_app. right.
        simpl. rewrite Hid. by left. }
      by rewrite E'.
  - intros H. unfold libraryOf in H. simpl in H.
    assert (E : existsb (has_id (id_arquivo b)) (default [] sto) = true).
    { apply existsb_has_id. by destruct sto. }
    by rewrite E.
Qed.

Lemma saveBook_idempotent_witness :
  faults shelf = []
  ∧ snd (saveBook outro (snd (saveBook outro shelf))) = snd (saveBook outro shelf)
  ∧ snd (saveBook outro shelf) = shelf.
Proof.
  split; [reflexivity|].
  destruct (saveBook_idempotent outro outro shelf eq_refl eq_refl) as [H1 H2].
  split; [exact H1|]. apply H2.
  apply list_elem_of_In. simpl. right. by left.
Defined.

(** X3.  removeBook, with no storage failure: every entry with the
    identifier leaves the library and the others stay in order; the page
    file is deleted, so that loadBookPages answers null; the PDF copy named
    by the first such entry is deleted.  For an identifier that is not on
    the shelf the library and the PDF files are unchanged, and a second
    removal changes nothing. *)
Theorem removeBook_removes (bookId : string) (w : World) :
  faults w = [] →
  let w' := snd (removeBook bookId w) in
  libraryOf w' = filter (fun book => id_arquivo book ≠ bookId) (libraryOf w)
  ∧ (bookId ∉ ids (libraryOf w'))
  ∧ files w' = delete bookId (files w)
  ∧ loadBookPages bookId w' = (Ok None, w')
  ∧ (∀ book uri, find (has_id bookId) (libraryOf w) = Some book →
                 localUri book = Some uri → uri ∉ pdfs w')
  ∧ (bookId ∉ ids (libraryOf w) →
     libraryOf w' = libraryOf w ∧ pdfs w' = pdfs w)
  ∧ snd (removeBook bookId w') = w'.
Proof.
  destruct w as [sto fls pd fs]. simpl. intros ->.
  rewrite removeBook_quiet. unfold libraryOf. simpl.
  rewrite default_storage. split; [done|]. split; [apply filter_others_ids|].
  split; [done|]. split.
  { rewrite loadBookPages_quiet. by rewrite lookup_delete_eq. }
  split; [|split].
  - intros book uri -> Huri. simpl. rewrite Huri. set_solver.
  - intros H. split; [by apply filter_absent_id|].
    by rewrite find_absent_id.
  - rewrite removeBook_quiet. simpl.
    rewrite filter_absent_id by apply filter_others_ids.
    rewrite find_absent_id by apply filter_others_ids. simpl.
    f_equal. apply delete_delete_eq.
Qed.

Lemma removeBook_removes_witness :
  faults shelf = []
  ∧ libraryOf (snd (removeBook "doc" shelf)) = [outro]
  ∧ "file:///doc.pdf"%string ∉ pdfs (snd (removeBook "doc" shelf)).
Proof.
  split; [reflexivity|].
  destruct (removeBook_removes "doc" shelf eq_refl) as (H1 & _ & _ & _ & H2 & _).
  split.
  - rewrite H1. reflexivity.
  - apply (H2 doc); reflexivity.
Defined.

(** ** Reading progress *)

Lemma updateBookState_quiet bookId p t w :
  faults w = [] →
  snd (updateBookState bookId p t w)
  = set_storage
      (Some (map (touches bookId
                    (fun book => set_reading p (listeningTime book + t)
                                   (completed book || (total_paginas book - 1 <=? p))
                                   book))
                 (libraryOf w))) w.
Proof.
  intros Hf. destruct w as [sto fls pd fs]. simpl in Hf. subst.
  change (updateBookState bookId p t)
    with (mapLibrary (touches bookId
            (fun book => set_reading p (listeningTime book + t)
                           (completed book || (total_paginas book - 1 <=? p)) book))).
  by rewrite mapLibrary_run.
Qed.



(** ** Bookmarks *)

Lemma insert_sorted_elem x l q : q ∈ insert_sorted x l ↔ q = x ∨ q ∈ l.
Proof.
  induction l as [|y l IH]; simpl.
  - rewrite list_elem_of_singleton. set_solver.
  - destruct (x <? y).
    + by rewrite elem_of_cons.
    + rewrite !elem_of_cons, IH. tauto.
Qed.

Lemma sort_asc_snoc l x : sort_asc (l ++ [x]) = insert_sorted x (sort_asc l).
Proof. unfold sort_asc. by rewrite rev_app_distr. Qed.

Lemma sort_asc_elem l q : q ∈ sort_asc l ↔ q ∈ l.
Proof.
  induction l as [|x l IH] using rev_ind; [done|].
  rewrite sort_asc_snoc, insert_sorted_elem, IH, elem_of_app, list_elem_of_singleton.
  tauto.
Qed.

Lemma insert_sorted_ascending x l :
  ascending l → x ∉ l → ascending (insert_sorted x l).
Proof.
  induction l as [|y l IH]; intros Hl Hx; simpl.
  - by split.
  - destruct Hl as [Hy Hl]. apply not_elem_of_cons in Hx as [Hxy Hx].
    destruct (x <? y) eqn:E.
    + apply Z.ltb_lt in E. split; [|by split].
      constructor; [done|]. eapply Forall_impl; [exact Hy|]. simpl. lia.
    + apply Z.ltb_ge in E. split; [|by apply IH].
      apply Forall_forall. intros q Hq%insert_sorted_elem.
      destruct Hq as [->|Hq]; [lia|].
      rewrite Forall_forall in Hy. by apply Hy.
Qed.

Lemma insert_sorted_last x l :
  Forall (fun y => y < x) l → insert_sorted x l = l ++ [x].
Proof.
  induction l as [|y l IH]; intros H; simpl; [done|].
  apply Forall_cons in H as [Hy H].
  replace (x <? y) with false by (symmetry; apply Z.ltb_ge; lia).
  by rewrite IH.
Qed.

Lemma ascending_snoc l x :
  ascending (l ++ [x]) → ascending l ∧ Forall (fun y => y < x) l.
Proof.
  induction l as [|y l IH]; simpl; [done|].
  intros [Hy Hl]. apply Forall_app in Hy as [Hy Hyx].
  destruct (IH Hl) as [G1 G2]. split; [done|].
  constructor; [|done]. by apply Forall_inv in Hyx.
Qed.

Lemma sort_asc_ascending l : ascending l → sort_asc l = l.
Proof.
  induction l as [|x l IH] using rev_ind; intros H; [done|].
  apply ascending_snoc in H as [H1 H2].
  rewrite sort_asc_snoc, IH by done. by apply insert_sorted_last.
Qed.

Lemma includes_elem x l : includes x l = true ↔ x ∈ l.
Proof.
  unfold includes. rewrite existsb_exists. split.
  - intros (y & Hy & E). apply Z.eqb_eq in E. subst. by apply list_elem_of_In.
  - intros H. exists x. split; [by apply list_elem_of_In|apply Z.eqb_refl].
Qed.

Lemma filter_out_elem p l q :
  q ∈ List.filter (fun q => negb (q =? p)) l ↔ q ∈ l ∧ q ≠ p.
Proof.
  rewrite !list_elem_of_In, filter_In, negb_true_iff, Z.eqb_neq. done.
Qed.

Lemma filter_out_absent p l :
  p ∉ l → List.filter (fun q => negb (q =? p)) l = l.
Proof.
  induction l as [|y l IH]; intros H; simpl; [done|].
  apply not_elem_of_cons in H as [H1 H2].
  replace (y =? p) with false by (symmetry; apply Z.eqb_neq; congruence).
  simpl. by rewrite IH.
Qed.

Lemma filter_out_inserted p l :
  p ∉ l → List.filter (fun q => negb (q =? p)) (insert_sorted p l) = l.
Proof.
  induction l as [|y l IH]; intros H; simpl.
  - by rewrite Z.eqb_refl.
  - apply not_elem_of_cons in H as [H1 H2]. destruct (p <? y); simpl.
    + rewrite Z.eqb_refl. simpl.
      replace (y =? p) with false by (symmetry; apply Z.eqb_neq; congruence).
      simpl. by rewrite filter_out_absent.
    + replace (y =? p) with false by (symmetry; apply Z.eqb_neq; congruence).
      simpl. by rewrite IH.
Qed.

Lemma filter_out_ascending p l :
  ascending l → ascending (List.filter (fun q => negb (q =? p)) l).
Proof.
  induction l as [|y l IH]; simpl; [done|]. intros [Hy Hl].
  destruct (negb (y =? p)); simpl; [|by apply IH]. split; [|by apply IH].
  apply Forall_forall. intros q [Hq _]%filter_out_elem.
  rewrite Forall_forall in Hy. by apply Hy.
Qed.

(** The function applied by each mutator to the entries of the document. *)
Lemma mutate_change m bookId :
  mutate m bookId
  = mapLibrary (touches bookId
      match m with
      | MStatus st => set_status st
      | MState p t => fun book =>
          set_reading p (listeningTime book + t)
                      (completed book || (total_paginas book - 1 <=? p)) book
      | MAddBookmark p => fun book =>
          if negb (includes p (bookmarks book))
          then set_bookmarks (sort_asc (bookmarks book ++ [p])) book else book
      | MRemoveBookmark p => fun book =>
          set_bookmarks (List.filter (fun q => negb (q =? p)) (bookmarks book)) book
      | MSaveAnnotation p text => fun book =>
          set_annotations (<[p := text]> (annotations book)) book
      | MRemoveAnnotation p => fun book =>
          set_annotations (delete p (annotations book)) book
      end).
Proof. by destruct m. Qed.

Lemma mutate_quiet m bookId w :
  faults w = [] →
  ∃ g, mutate m bookId = mapLibrary (touches bookId g)
       ∧ snd (mutate m bookId w)
         = set_storage (Some (map (touches bookId g) (libraryOf w))) w.
Proof.
  intros Hf. rewrite mutate_change. eexists. split; [reflexivity|].
  destruct w as [sto fls pd fs]. simpl in Hf. subst. by rewrite mapLibrary_run.
Qed.

(** What a mutator leaves in the library: what was there, the empty
    library, or the changed entries. *)
Lemma mapLibrary_library f w :
  let lib' := libraryOf (snd (mapLibrary f w)) in
  lib' = libraryOf w ∨ lib' = [] ∨ lib' = map f (libraryOf w).
Proof.
  destruct w as [sto fls pd fs]. rewrite mapLibrary_run. unfold libraryOf. simpl.
  destruct (hd false (tail fs)); [by left|].
  destruct (hd false fs); simpl; [right; by left|right; by right].
Qed.

(** X5.  The bookmarks of every entry stay strictly increasing (ordered,
    no page twice) under each of the six mutators, whatever the storage
    does. *)
Theorem bookmarks_stay_ascending (m : Mutation) (bookId : string) (w : World) :
  bookmarks_ascending (libraryOf w) →
  bookmarks_ascending (libraryOf (snd (mutate m bookId w))).
Proof.
  intros H. rewrite mutate_change.
  match goal with |- context [mapLibrary ?f w] =>
    destruct (mapLibrary_library f w) as [E|[E|E]]; cbv zeta in E; rewrite E end.
  - done.
  - intros b Hb. by apply elem_of_nil in Hb.
  - intros b' (b & -> & Hb)%list_elem_of_fmap. specialize (H b Hb).
    unfold touches. destruct (has_id bookId b); [|done].
    destruct m; simpl; try done.
    + destruct (negb (includes pageIndex (bookmarks b))) eqn:E'; [|done]. simpl.
      rewrite sort_asc_snoc, sort_asc_ascending by done.
      apply insert_sorted_ascending; [done|].
      intros Hin%includes_elem. by rewrite Hin in E'.
    + by apply filter_out_ascending.
Qed.

Lemma bookmarks_stay_ascending_witness :
  bookmarks_ascending (libraryOf shelf)
  ∧ bookmarks_ascending (libraryOf (snd (mutate (MAddBookmark 0) "outro" shelf))).
Proof.
  assert (H : bookmarks_ascending (libraryOf shelf)).
  { intros b Hb. apply list_elem_of_In in Hb. simpl in Hb.
    destruct Hb as [<-|[<-|[]]]; simpl; auto. }
  split; [exact H|]. exact (bookmarks_stay_ascending (MAddBookmark 0) "outro" shelf H).
Defined.

Lemma mapLibrary_at f w i b :
  faults w = [] → libraryOf w !! i = Some b →
  libraryOf (snd (mapLibrary f w)) !! i = Some (f b).
Proof.
  intros Hf Hi. destruct w as [sto fls pd fs]. simpl in Hf. subst.
  rewrite mapLibrary_run. unfold libraryOf at 1. simpl.
  rewrite list_lookup_fmap. unfold libraryOf in Hi. simpl in Hi. by rewrite Hi.
Qed.

Lemma mapLibrary_quiet f w :
  faults w = [] →
  mapLibrary f w = (Ok tt, set_storage (Some (map f (libraryOf w))) w).
Proof.
  intros Hf. destruct w as [sto fls pd fs]. simpl in Hf. subst.
  by rewrite mapLibrary_run.
Qed.

(** X6.  addBookmark, with no storage failure: the entry of the document
    afterwards holds exactly the former bookmarks and the page, every
    other field as before; a page that is already marked changes nothing;
    and after removeBookmark the page is no longer marked while the other
    bookmarks are. *)
Theorem bookmark_membership (bookId : string) (p : Z) (w : World) (i : nat) (b : Book) :
  faults w = [] → libraryOf w !! i = Some b → id_arquivo b = bookId →
  (∃ bm, libraryOf (snd (addBookmark bookId p w)) !! i = Some (set_bookmarks bm b)
         ∧ (∀ q, q ∈ bm ↔ q = p ∨ q ∈ bookmarks b)
         ∧ (p ∈ bookmarks b → bm = bookmarks b))
  ∧ (∃ bm, libraryOf (snd (removeBookmark bookId p w)) !! i = Some (set_bookmarks bm b)
           ∧ ∀ q, q ∈ bm ↔ q ∈ bookmarks b ∧ q ≠ p).
Proof.
  intros Hf Hi Hid. split.
  - change (addBookmark bookId p) with (mutate (MAddBookmark p) bookId).
    rewrite mutate_change, (mapLibrary_at _ w i b Hf Hi).
    unfold touches, has_id. rewrite bool_decide_eq_true_2 by done.
    destruct (negb (includes p (bookmarks b))) eqn:E.
    + eexists. split; [reflexivity|]. split.
      * intros q. rewrite sort_asc_elem, elem_of_app, list_elem_of_singleton. tauto.
      * intros Hin%includes_elem. by rewrite Hin in E.
    + exists (bookmarks b). split; [by destruct b|].
      apply negb_false_iff, includes_elem in E. split; [|done].
      intros q. split; [tauto|]. intros [->|]; done.
  - change (removeBookmark bookId p) with (mutate (MRemoveBookmark p) bookId).
    rewrite mutate_change, (mapLibrary_at _ w i b Hf Hi).
    unfold touches, has_id. rewrite bool_decide_eq_true_2 by done.
    eexists. split; [reflexivity|]. intros q. apply filter_out_elem.
Qed.

Lemma bookmark_membership_witness :
  faults shelf = []
  ∧ ∃ bm, libraryOf (snd (addBookmark "outro" 0 shelf)) !! 1%nat
          = Some (set_bookmarks bm outro)
          ∧ 0 ∈ bm ∧ 1 ∈ bm.
Proof.
  split; [reflexivity|].
  destruct (bookmark_membership "outro" 0 shelf 1 outro eq_refl eq_refl eq_refl)
    as [(bm & E & Hbm & _) _].
  exists bm. split; [exact E|]. split; apply Hbm.
  - by left.
  - right. simpl. by left.
Defined.

Lemma map_touches_id bookId g lib :
  (∀ b, b ∈ lib → id_arquivo b = bookId → g b = b) →
  map (touches bookId g) lib = lib.
Proof.
  induction lib as [|b lib IH]; intros H; simpl; [done|].
  rewrite IH by (intros b' Hb'; apply H; by right). f_equal.
  unfold touches, has_id. case_bool_decide; [|done]. apply H; [by left|done].
Qed.

(** X7.  Marking a page and unmarking it is a round trip: with no storage
    failure, for a library whose bookmark lists are strictly increasing and
    a page that is not marked in the document, addBookmark followed by
    removeBookmark leaves the library exactly as it was. *)
Theorem bookmark_round_trip (bookId : string) (p : Z) (w : World) :
  faults w = [] → bookmarks_ascending (libraryOf w) →
  (∀ b, b ∈ libraryOf w → id_arquivo b = bookId → p ∉ bookmarks b) →
  libraryOf (snd (removeBookmark bookId p (snd (addBookmark bookId p w))))
  = libraryOf w.
Proof.
  intros Hf Hasc Hp.
  change (addBookmark bookId p) with (mutate (MAddBookmark p) bookId).
  change (removeBookmark bookId p) with (mutate (MRemoveBookmark p) bookId).
  rewrite !mutate_change.
  rewrite (mapLibrary_quiet _ w Hf). simpl.
  rewrite mapLibrary_quiet by done. unfold libraryOf at 1 2. simpl.
  rewrite map_map. rewrite <- (map_id (libraryOf w)) at 2.
  apply map_ext_in. intros b Hb%list_elem_of_In.
  unfold touches at 2. destruct (has_id bookId b) eqn:E.
  - apply bool_decide_eq_true in E.
    replace (negb (includes p (bookmarks b))) with true.
    2:{ symmetry. apply negb_true_iff, not_true_is_false.
        intros Hin%includes_elem. by apply (Hp b). }
    unfold touches, has_id. simpl. rewrite bool_decide_eq_true_2 by done.
    rewrite sort_asc_snoc, sort_asc_ascending by by apply Hasc.
    rewrite filter_out_inserted by by apply Hp. by destruct b.
  - unfold touches. by rewrite E.
Qed.

Lemma bookmark_round_trip_witness :
  faults shelf = []
  ∧ libraryOf (snd (removeBookmark "outro" 0 (snd (addBookmark "outro" 0 shelf))))
    = libraryOf shelf.
Proof.
  split; [reflexivity|].
  apply bookmark_round_trip; [reflexivity| |].
  - intros b Hb. apply list_elem_of_In in Hb. simpl in Hb.
    destruct Hb as [<-|[<-|[]]]; simpl; auto.
  - intros b Hb Hid Hin. apply list_elem_of_In in Hb. simpl in Hb.
    destruct Hb as [<-|[<-|[]]]; [discriminate|].
    apply list_elem_of_In in Hin. simpl in Hin. destruct Hin as [Hin|[]]. discriminate.
Defined.

(** ** Notes *)

(** X8.  Notes, with no storage failure: after saveAnnotation the entry of
    the document holds the text under the page and the notes of the other
    pages as before; a second save for the page replaces the first; and
    for a page without a note, saveAnnotation followed by removeAnnotation
    leaves the library exactly as it was. *)
Theorem annotation_round_trip (bookId : string) (p : Z) (t t' : string) (w : World) :
  faults w = [] →
  (∀ i b, libraryOf w !! i = Some b → id_arquivo b = bookId →
      libraryOf (snd (saveAnnotation bookId p t w)) !! i
      = Some (set_annotations (<[p := t]> (annotations b)) b))
  ∧ libraryOf (snd (saveAnnotation bookId p t' (snd (saveAnnotation bookId p t w))))
    = libraryOf (snd (saveAnnotation bookId p t' w))
  ∧ ((∀ b, b ∈ libraryOf w → id_arquivo b = bookId → annotations b !! p = None) →
     libraryOf (snd (removeAnnotation bookId p (snd (saveAnnotation bookId p t w))))
     = libraryOf w).
Proof.
  intros Hf.
  change (saveAnnotation bookId p t) with (mutate (MSaveAnnotation p t) bookId).
  change (saveAnnotation bookId p t') with (mutate (MSaveAnnotation p t') bookId).
  change (removeAnnotation bookId p) with (mutate (MRemoveAnnotation p) bookId).
  rewrite !mutate_change. split; [|split].
  - intros i b Hi Hid. rewrite (mapLibrary_at _ w i b Hf Hi).
    unfold touches, has_id. by rewrite bool_decide_eq_true_2.
  - rewrite (mapLibrary_quiet _ w Hf). simpl.
    rewrite !mapLibrary_quiet by done. unfold libraryOf at 1 2 3. simpl.
    rewrite map_map. apply map_ext. intros b.
    unfold touches at 2 3. destruct (has_id bookId b) eqn:E; unfold touches; simpl.
    + unfold has_id in *. simpl. rewrite E. unfold set_annotations. simpl.
      by rewrite insert_insert_eq.
    + by rewrite E.
  - intros Hnone. rewrite (mapLibrary_quiet _ w Hf). simpl.
    rewrite mapLibrary_quiet by done. unfold libraryOf at 1 2. simpl.
    rewrite map_map. rewrite <- (map_id (libraryOf w)) at 2.
    apply map_ext_in. intros b Hb%list_elem_of_In.
    unfold touches at 2. destruct (has_id bookId b) eqn:E; unfold touches; simpl.
    + unfold has_id in *. simpl. rewrite E. unfold set_annotations. simpl.
      apply bool_decide_eq_true in E.
      rewrite delete_insert_id by by apply Hnone. by destruct b.
    + by rewrite E.
Qed.

Lemma annotation_round_trip_witness :
  faults shelf = []
  ∧ libraryOf (snd (removeAnnotation "outro" 1 (snd (saveAnnotation "outro" 1 "x" shelf))))
    = libraryOf shelf.
Proof.
  split; [reflexivity|].
  destruct (annotation_round_trip "outro" 1 "x" "x" shelf eq_refl) as (_ & _ & H).
  apply H. intros b Hb Hid. apply list_elem_of_In in Hb. simpl in Hb.
  destruct Hb as [<-|[<-|[]]]; [discriminate|reflexivity].
Defined.

(** ** Storage failures *)

(** X9.  A failed read of the library is taken for an empty library and
    written back: when the read fails and the write that follows does not,
    each of the six mutators and removeBook leave the empty library, and
    saveBook leaves a library holding the new entry alone.  When instead
    the read works and the write fails, the library is as it was. *)
Theorem failed_read_loses_the_library (bookId : string) (w : World) :
  (∀ m, storage (snd (mutate m bookId (next_call_fails w))) = Some [])
  ∧ storage (snd (removeBook bookId (next_call_fails w))) = Some []
  ∧ (∀ b, storage (snd (saveBook b (next_call_fails w))) = Some [newBook b])
  ∧ (∀ m, storage (snd (mutate m bookId (second_call_fails w))) = storage w)
  ∧ storage (snd (removeBook bookId (second_call_fails w))) = storage w
  ∧ (∀ b, storage (snd (saveBook b (second_call_fails w))) = storage w).
Proof.
  destruct w as [sto fls pd fs].
  split; [|split; [|split; [|split; [|split]]]].
  - intros m. rewrite mutate_change. unfold next_call_fails, set_faults.
    cbn [storage files pdfs faults]. by rewrite mapLibrary_run.
  - reflexivity.
  - reflexivity.
  - intros m. rewrite mutate_change. unfold second_call_fails, set_faults.
    cbn [storage files pdfs faults]. by rewrite mapLibrary_run.
  - reflexivity.
  - intros b. unfold second_call_fails, set_faults, saveBook, tryCatch, bind at 1. simpl.
    by destruct (existsb _ _).
Qed.

(** ** Page files under failures *)

Lemma loadBookPages_reads_only_aux (bookId : string) (w : World) :
  let w' := snd (loadBookPages bookId w) in
  storage w' = storage w ∧ files w' = files w ∧ pdfs w' = pdfs w
  ∧ ∃ r, fst (loadBookPages bookId w) = Ok r
         ∧ (r = None ∨ r = files w !! bookId).
Proof.
  destruct w as [sto fls pd fs].
  unfold loadBookPages, tryCatch, bind, getInfoAsync, readAsStringAsync, bind, native.
  simpl. destruct fs as [|[] [|[] fs]]; simpl;
    try (repeat split; try done; eexists; split; [reflexivity|by left]).
  all: destruct (fls !! bookId) as [ps|] eqn:E; simpl;
    rewrite ?E; simpl; repeat split; try done; eexists; split; try reflexivity; auto.
Qed.

(** X10.  loadBookPages never rejects and never changes the library, the
    page files or the PDF files, whatever the storage does; it answers
    either null or the content of the document's page file, and null when
    there is no such file; with no storage failure it answers the content
    of the file whenever there is one. *)
Theorem loadBookPages_reads_only (bookId : string) (w : World) :
  let w' := snd (loadBookPages bookId w) in
  storage w' = storage w ∧ files w' = files w ∧ pdfs w' = pdfs w
  ∧ (∃ r, fst (loadBookPages bookId w) = Ok r
          ∧ (r = None ∨ r = files w !! bookId))
  ∧ (faults w = [] → fst (loadBookPages bookId w) = Ok (files w !! bookId)).
Proof.
  destruct (loadBookPages_reads_only_aux bookId w) as (H1 & H2 & H3 & H4).
  repeat split; try done.
  intros Hf. destruct w as [sto fls pd fs]. simpl in Hf. subst.
  by rewrite loadBookPages_quiet.
Qed.

Lemma loadBookPages_reads_only_witness :
  faults shelf = []
  ∧ fst (loadBookPages "outro" shelf) = Ok (Some [pagina "a"; pagina "b"]).
Proof.
  split; [reflexivity|].
  destruct (loadBookPages_reads_only "outro" shelf) as (_ & _ & _ & _ & H).
  rewrite (H eq_refl). reflexivity.
Defined.

(** X11.  appendPageData, whatever the storage does: it rejects only when
    the directory call fails, and then nothing is written; it returns 0
    exactly when nothing was written; a positive result is the length of
    the page file it leaves, whose last record is the new one, written
    after the records that were there or, when these could not be read,
    alone.  The library and the PDF files are never touched. *)
Theorem appendPageData_outcomes (bookId : string) (p : PageData) (w : World) :
  let w' := snd (appendPageData bookId p w) in
  storage w' = storage w ∧ pdfs w' = pdfs w
  ∧ match fst (appendPageData bookId p w) with
    | Threw => hd false (faults w) = true ∧ files w' = files w
    | Ok n =>
        (n = 0 ∧ files w' = files w)
        ∨ (∃ old, (old = default [] (files w !! bookId) ∨ old = [])
                  ∧ files w' = <[bookId := old ++ [p]]> (files w)
                  ∧ n = Z.of_nat (length old) + 1)
    end.
Proof.
  destruct w as [sto fls pd fs].
  unfold appendPageData, tryCatch, loadBookPages, tryCatch, bind, makeDirectoryAsync,
    getInfoAsync, readAsStringAsync, writeAsStringAsync, bind, native.
  simpl.
  destruct fs as [|[] fs]; simpl.
  - destruct (fls !! bookId) as [ps|] eqn:E; simpl; rewrite ?E; simpl.
    all: split; [done|]; split; [done|]; right; eexists; split; [by left|];
      split; [done|]; rewrite ?length_app; simpl; lia.
  - done.
  - destruct fs as [|[] fs]; simpl.
    + destruct (fls !! bookId) as [ps|] eqn:E; simpl; rewrite ?E; simpl.
      all: split; [done|]; split; [done|]; right; eexists; split; [by left|];
        split; [done|]; rewrite ?length_app; simpl; lia.
    + destruct fs as [|[] fs]; simpl; split; try done; split; try done.
      * right. exists []. split; [by right|]. done.
      * by left.
      * right. exists []. split; [by right|]. done.
    + destruct (fls !! bookId) as [ps|] eqn:E; simpl.
      * destruct fs as [|[] fs]; simpl; rewrite ?E; simpl.
        -- split; [done|]; split; [done|]; right; eexists; split; [by left|];
             split; [done|]; rewrite ?length_app; simpl; lia.
        -- destruct fs as [|[] fs]; simpl; split; try done; split; try done.
           ++ right. exists []. split; [by right|]. done.
           ++ by left.
           ++ right. exists []. split; [by right|]. done.
        -- destruct fs as [|[] fs]; simpl; split; try done; split; try done.
           ++ right; eexists; split; [by left|];
                split; [done|]; rewrite ?length_app; simpl; lia.
           ++ by left.
           ++ right; eexists; split; [by left|];
                split; [done|]; rewrite ?length_app; simpl; lia.
      * destruct fs as [|[] fs]; simpl; split; try done; split; try done.
        -- right. exists []. split; [by right|]. done.
        -- by left.
        -- right. exists []. split; [by right|]. done.
Qed.

(** X12.  When the existence check of the page file fails during
    appendPageData (and no other call does), the records on disk are taken
    for none: the call returns 1 and the page file is overwritten with the
    new record alone, which is all that loadBookPages reads afterwards. *)
Theorem appendPageData_overwrites_after_failed_read
    (bookId : string) (p : PageData) (w : World) :
  let w' := snd (appendPageData bookId p (second_call_fails w)) in
  fst (appendPageData bookId p (second_call_fails w)) = Ok 1
  ∧ files w' = <[bookId := [p]]> (files w)
  ∧ loadBookPages bookId w' = (Ok (Some [p]), w').
Proof.
  destruct w as [sto fls pd fs].
  assert (E : appendPageData bookId p (second_call_fails (mkWorld sto fls pd fs))
              = (Ok 1, mkWorld sto (<[bookId := [p]]> fls) pd [])) by done.
  rewrite E. cbn [fst snd files]. split; [done|]. split; [done|].
  rewrite loadBookPages_quiet. by rewrite lookup_insert_eq.
Qed.

End StoreLaws.

(* ===================================================================== *)
(** * Laws of the library screen *)
(* ===================================================================== *)

Module DeskLaws.
Import Store Library Props Shelf Desk StoreFacts LoopFacts StoreLaws.
#[local] Set Warnings "-clear-no-such-hyp".

(** ** Properties of handlers that compose along the monad *)

Section Compose.
Context {S : Type} (R : S → S → Prop).
Hypothesis R_refl : ∀ s, R s s.
Hypothesis R_trans : ∀ s1 s2 s3, R s1 s2 → R s2 s3 → R s1 s3.

Lemma keeps_ret {A} (a : A) : keeps R (ret a).
Proof. intros s. apply R_refl. Qed.

Lemma keeps_throw {A} : keeps R (@throw S A).
Proof. intros s. apply R_refl. Qed.

Lemma keeps_gets {A} (f : S → A) : keeps R (gets f).
Proof. intros s. apply R_refl. Qed.

Lemma keeps_modify (f : S → S) : (∀ s, R s (f s)) → keeps R (modify f).
Proof. intros H s. apply H. Qed.

Lemma keeps_bind {A B} (c : M S A) (k : A → M S B) :
  keeps R c → (∀ a, keeps R (k a)) → keeps R (bind c k).
Proof.
  intros Hc Hk s. unfold bind. pose proof (Hc s) as H.
  destruct (c s) as [[a|] s1]; simpl in *; [|done].
  eapply R_trans; [exact H|apply Hk].
Qed.

Lemma keeps_tryCatch {A} (c h : M S A) :
  keeps R c → keeps R h → keeps R (tryCatch c h).
Proof.
  intros Hc Hh s. unfold tryCatch. pose proof (Hc s) as H.
  destruct (c s) as [[a|] s1]; simpl in *; [done|].
  eapply R_trans; [exact H|apply Hh].
Qed.

Lemma keeps_fire {A} (c : M S A) : keeps R c → keeps R (fire c).
Proof. intros Hc s. apply Hc. Qed.

Lemma keeps_if {A} (b : bool) (c d : M S A) :
  keeps R c → keeps R d → keeps R (if b then c else d).
Proof. by destruct b. Qed.
End Compose.

(** ** No identifier comes back by itself *)

Lemma no_new_entry_refl w : no_new_entry w w.
Proof. by intros x. Qed.

Lemma no_new_entry_trans w1 w2 w3 :
  no_new_entry w1 w2 → no_new_entry w2 w3 → no_new_entry w1 w3.
Proof. intros H1 H2 x Hx. by apply H1, H2. Qed.

Lemma same_storage_no_new_entry w w' : storage w' = storage w → no_new_entry w w'.
Proof. intros H x. unfold libraryOf. by rewrite H. Qed.

Lemma ids_touches bookId g lib :
  (∀ b, id_arquivo (g b) = id_arquivo b) → ids (map (touches bookId g) lib) = ids lib.
Proof.
  intros Hg. unfold ids. rewrite map_map. apply map_ext. intros b.
  unfold touches. by destruct (has_id bookId b).
Qed.

Lemma mapLibrary_no_new_entry bookId g :
  (∀ b, id_arquivo (g b) = id_arquivo b) →
  keeps no_new_entry (mapLibrary (touches bookId g)).
Proof.
  intros Hg w x.
  destruct (mapLibrary_library (touches bookId g) w) as [E|[E|E]];
    cbv zeta in E; rewrite E.
  - done.
  - intros Hx. by apply elem_of_nil in Hx.
  - by rewrite ids_touches.
Qed.

Lemma updateBookStatus_no_new_entry bookId s :
  keeps no_new_entry (updateBookStatus bookId s).
Proof. by apply (mapLibrary_no_new_entry bookId (set_status s)). Qed.

Lemma loadBookPages_no_new_entry bookId : keeps no_new_entry (loadBookPages bookId).
Proof. intros w. apply same_storage_no_new_entry, loadBookPages_files. Qed.

Lemma loadLibrary_storage w : storage (snd (loadLibrary w)) = storage w.
Proof. destruct w. by rewrite loadLibrary_run. Qed.

Lemma loadLibrary_no_new_entry : keeps no_new_entry loadLibrary.
Proof. intros w. apply same_storage_no_new_entry, loadLibrary_storage. Qed.

Lemma scanBooks_no_new_entry books : ∀ ip, keeps no_new_entry (scanBooks books ip).
Proof.
  induction books as [|book rest IH]; intros ip; simpl.
  - apply keeps_ret, no_new_entry_refl.
  - apply keeps_if; [|apply IH].
    apply keeps_bind; [apply no_new_entry_trans|apply loadBookPages_no_new_entry|].
    intros pages. apply keeps_bind; [apply no_new_entry_trans| |intros _; apply IH].
    apply keeps_if; [apply updateBookStatus_no_new_entry|].
    apply keeps_ret, no_new_entry_refl.
Qed.

Lemma appendPageData_storage bookId p w :
  storage (snd (appendPageData bookId p w)) = storage w.
Proof.
  unfold appendPageData, makeDirectoryAsync, tryCatch.
  unfold bind at 1. destruct (native w) as [[[]|] w1] eqn:E1.
  2:{ simpl. unfold native in E1. destruct w as [sto fls pd [|[] fs]]; by inversion E1. }
  assert (H1 : storage w1 = storage w).
  { unfold native in E1. destruct w as [sto fls pd [|[] fs]]; by inversion E1. }
  unfold bind at 1.
  pose proof (loadBookPages_files bookId w1) as [_ H2].
  destruct (loadBookPages bookId w1) as [[pages|] w2]; simpl in *; [|congruence].
  unfold writeAsStringAsync, bind, native.
  destruct w2 as [sto fls pd [|[] fs]]; simpl in *; congruence.
Qed.

Lemma deletes_keep_storage bookId (o : option string) w :
  storage (snd ((await _ <- deleteAsync bookId ;;
                 match o with Some uri => deletePdfAsync uri | None => ret tt end) w))
  = storage w.
Proof.
  destruct w as [sto fls pd fs].
  destruct o; destruct fs as [|[] [|[] fs]]; reflexivity.
Qed.

Lemma removeBook_storage bookId sto fls pd fs :
  let w' := snd (removeBook bookId (mkWorld sto fls pd fs)) in
  storage w' = sto
  ∨ storage w'
    = Some (filter (fun book => id_arquivo book ≠ bookId)
              (if hd false fs then [] else match sto with Some l => l | None => [] end)).
Proof.
  cbv zeta.
  destruct (removeBook bookId (mkWorld sto fls pd fs)) as [r w'] eqn:E. simpl.
  unfold removeBook, tryCatch, bind at 1 in E. rewrite loadLibrary_run in E.
  unfold bind at 1 in E. rewrite saveLibrary_run in E.
  destruct (hd false (tail fs)) eqn:E2.
  { left. inversion E. done. }
  right.
  match type of E with context [bind (deleteAsync bookId) ?k ?w2] =>
    pose proof (deletes_keep_storage bookId
                  (find (has_id bookId)
                     (if hd false fs then [] else match sto with Some l => l | None => [] end)
                   ≫= localUri) w2) as G;
    change (bind (deleteAsync bookId) k w2)
      with ((await _ <- deleteAsync bookId ;;
             match find (has_id bookId)
                     (if hd false fs then [] else match sto with Some l => l | None => [] end)
                   ≫= localUri with
             | Some uri => deletePdfAsync uri | None => ret tt end) w2) in E;
    destruct ((await _ <- deleteAsync bookId ;;
             match find (has_id bookId)
                     (if hd false fs then [] else match sto with Some l => l | None => [] end)
                   ≫= localUri with
             | Some uri => deletePdfAsync uri | None => ret tt end) w2) as [[[]|] w3]
  end; simpl in G; inversion E; subst; done.
Qed.

Lemma removeBook_library bookId w :
  let lib' := libraryOf (snd (removeBook bookId w)) in
  lib' = libraryOf w ∨ lib' = []
  ∨ lib' = filter (fun book => id_arquivo book ≠ bookId) (libraryOf w).
Proof.
  destruct w as [sto fls pd fs]. cbv zeta.
  destruct (removeBook_storage bookId sto fls pd fs) as [H|H]; cbv zeta in H;
    unfold libraryOf; rewrite H; simpl; [by left|right].
  destruct (hd false fs); [by left|by right].
Qed.

Lemma removeBook_no_new_entry bookId : keeps no_new_entry (removeBook bookId).
Proof.
  intros w x. destruct (removeBook_library bookId w) as [E|[E|E]];
    cbv zeta in E; rewrite E.
  - done.
  - intros Hx. by apply elem_of_nil in Hx.
  - unfold ids. intros (b & -> & Hb)%list_elem_of_fmap.
    apply list_elem_of_filter in Hb as [_ Hb]. apply list_elem_of_fmap. eauto.
Qed.

(** The same at the level of the screen. *)
Lemma wnne_refl st : world_no_new_entry st st.
Proof. apply no_new_entry_refl. Qed.

Lemma wnne_trans s1 s2 s3 :
  world_no_new_entry s1 s2 → world_no_new_entry s2 s3 → world_no_new_entry s1 s3.
Proof. apply no_new_entry_trans. Qed.

Lemma wnne_io {A} (c : IO A) :
  keeps no_new_entry c → keeps world_no_new_entry (io c).
Proof.
  intros Hc st. unfold io, world_no_new_entry. pose proof (Hc (world st)) as H.
  by destruct (c (world st)).
Qed.

Lemma wnne_modify f :
  (∀ st, world (f st) = world st) → keeps world_no_new_entry (modify f).
Proof.
  intros H. apply keeps_modify. intros st. unfold world_no_new_entry. rewrite H.
  apply no_new_entry_refl.
Qed.

(** One step along the structure of a handler. *)
Ltac keeps_step refl trans mod_ io_ :=
  lazymatch goal with
  | |- keeps _ (bind _ _) => apply keeps_bind; [apply trans| |intros ?]
  | |- keeps _ (tryCatch _ _) => apply keeps_tryCatch; [apply trans| |]
  | |- keeps _ (fire _) => apply keeps_fire
  | |- keeps _ (if _ then _ else _) => apply keeps_if
  | |- keeps _ (ret _) => apply keeps_ret, refl
  | |- keeps _ throw => apply keeps_throw, refl
  | |- keeps _ (gets _) => apply keeps_gets, refl
  | |- keeps _ (modify _) => apply mod_; done
  | |- keeps _ (io _) => apply io_
  end.

Ltac wnne := repeat keeps_step wnne_refl wnne_trans wnne_modify @wnne_io.

Lemma loadBooksFromStorage_no_new_entry : keeps world_no_new_entry loadBooksFromStorage.
Proof.
  unfold loadBooksFromStorage. wnne.
  - apply loadLibrary_no_new_entry.
  - apply scanBooks_no_new_entry.
Qed.

Lemma processPage_no_new_entry b p : keeps world_no_new_entry (processPage b p).
Proof.
  unfold processPage, deleteControl, suspend. wnne.
  - apply updateBookStatus_no_new_entry.
  - apply loadBooksFromStorage_no_new_entry.
  - apply loadLibrary_no_new_entry.
Qed.

Lemma processPage_settled_no_new_entry b p r :
  keeps world_no_new_entry (processPage_settled b p r).
Proof.
  unfold processPage_settled, deleteControl, suspend. destruct r as [pageData|]; wnne.
  all: try apply updateBookStatus_no_new_entry.
  all: try apply loadBooksFromStorage_no_new_entry.
  intros w. apply same_storage_no_new_entry, appendPageData_storage.
Qed.

Lemma processBookPages_no_new_entry b : keeps world_no_new_entry (processBookPages b).
Proof.
  unfold processBookPages. wnne.
  - apply loadBookPages_no_new_entry.
  - apply processPage_no_new_entry.
Qed.

Lemma exec_no_new_entry ev st : world_no_new_entry st (exec ev st).
Proof.
  destruct ev; simpl.
  - unfold run, pendingBookEffect.
    match goal with |- world_no_new_entry st (snd (?c st)) =>
      assert (H : keeps world_no_new_entry c); [|apply H] end.
    wnne. destruct (find _ _); wnne. apply processBookPages_no_new_entry.
  - destruct (tasks st !! n) as [[b [p|p]]|]; try apply wnne_refl.
    apply (processPage_settled_no_new_entry b p r (set_tasks _ st)).
  - destruct (tasks st !! n) as [[b [p|p]]|]; try apply wnne_refl.
    apply (processPage_no_new_entry b p (set_tasks _ st)).
  - apply loadBooksFromStorage_no_new_entry.
  - unfold run, retryBook.
    match goal with |- world_no_new_entry st (snd (?c st)) =>
      assert (H : keeps world_no_new_entry c); [|apply H] end.
    wnne; [apply updateBookStatus_no_new_entry|apply loadBooksFromStorage_no_new_entry].
  - unfold run, handleRemoveBook, deleteControl.
    match goal with |- world_no_new_entry st (snd (?c st)) =>
      assert (H : keeps world_no_new_entry c); [|apply H] end.
    wnne; [apply removeBook_no_new_entry|apply loadBooksFromStorage_no_new_entry].
  - unfold world_no_new_entry. simpl. apply no_new_entry_refl.
Qed.

(** ** Requests are posted for documents of the library only *)

Lemma processPage_off_shelf b p st :
  id_arquivo b ∉ ids (libraryOf (world st)) →
  requests (run (processPage b p) st) = requests st.
Proof.
  intros Hid. destruct (processPage_outcome b p st) as [(_ & _ & H)|(Hp & _ & _ & _)];
    [done|].
  unfold run, processPage. rewrite Hp. unfold bind at 1, io.
  destruct (world st) as [sto fls pd fs] eqn:Ew. rewrite loadLibrary_run.
  assert (E : existsb (has_id (id_arquivo b))
                (if hd false fs then []
                 else match sto with Some l => l | None => [] end) = false).
  { apply not_true_is_false. intros H%existsb_has_id.
    destruct (hd false fs); [by apply elem_of_nil in H|]. by apply Hid. }
  rewrite E. done.
Qed.

Lemma processPage_request b p st :
  requests (run (processPage b p) st) = requests st
  ∨ (id_arquivo b ∈ ids (libraryOf (world st))
     ∧ requests (run (processPage b p) st) = requests st ++ [(id_arquivo b, p)]).
Proof.
  destruct (decide (id_arquivo b ∈ ids (libraryOf (world st)))) as [Hid|Hid].
  - destruct (processPage_outcome b p st) as [(_ & _ & H)|(_ & _ & _ & H)];
      [by left|by right].
  - left. by apply processPage_off_shelf.
Qed.

Lemma processBookPages_request b st :
  requests (run (processBookPages b) st) = requests st
  ∨ (id_arquivo b ∈ ids (libraryOf (world st))
     ∧ ∃ p, requests (run (processBookPages b) st) = requests st ++ [(id_arquivo b, p)]).
Proof.
  destruct (decide (id_arquivo b ∈ processingControl st)) as [Hc|Hc].
  { left. unfold run. by rewrite processBookPages_guard. }
  destruct (processBookPages_start b st Hc) as (pages & w1 & E1 & E2).
  unfold run. rewrite E2.
  match goal with |- context [processPage b ?p ?s] =>
    destruct (processPage_request b p s) as [H|[H1 H2]]; unfold run in * end.
  - by left.
  - right. split; [|eauto]. simpl in H1.
    pose proof (loadBookPages_files (id_arquivo b) (world st)) as [_ G].
    rewrite E1 in G. simpl in G. unfold libraryOf in *. by rewrite <- G.
Qed.

Lemma pendingBookEffect_run st :
  run pendingBookEffect st = st
  ∨ ∃ b, find is_processing (library st) = Some b
         ∧ (id_arquivo b ∉ processingControl st)
         ∧ run pendingBookEffect st = run (processBookPages b) st.
Proof.
  unfold run, pendingBookEffect, bind, gets, in_flight.
  destruct (find is_processing (library st)) as [b|]; [|by left].
  case_bool_decide; simpl; [by left|right; eauto].
Qed.

Lemma pendingBookEffect_starts st b :
  find is_processing (library st) = Some b →
  id_arquivo b ∉ processingControl st →
  run pendingBookEffect st = run (processBookPages b) st.
Proof.
  intros Hb Hc. unfold run, pendingBookEffect, bind, gets, in_flight.
  rewrite Hb. by rewrite bool_decide_eq_false_2.
Qed.

Lemma exec_request ev st :
  requests (exec ev st) = requests st
  ∨ ∃ bookId p, bookId ∈ ids (libraryOf (world st))
                ∧ requests (exec ev st) = requests st ++ [(bookId, p)].
Proof.
  destruct ev; simpl.
  - destruct (pendingBookEffect_run st) as [->|(b & _ & _ & ->)]; [by left|].
    destruct (processBookPages_request b st) as [H|(H1 & p & H2)]; [by left|].
    right. eauto.
  - destruct (tasks st !! n) as [[b [p|p]]|]; try by left.
    left.
    destruct (processPage_settled_outcome b p r (set_tasks (delete n (tasks st)) st))
      as [(_ & _ & H)|(_ & _ & H)]; by rewrite H.
  - destruct (tasks st !! n) as [[b [p|p]]|]; try by left.
    destruct (processPage_request b p (set_tasks (delete n (tasks st)) st))
      as [H|[H1 H2]]; [by left|right; eauto].
  - left. apply loadBooksFromStorage_same_loops.
  - left. unfold run, retryBook, bind, io, fire.
    destruct (updateBookStatus_returns bookId processing (world st)) as [w1 ->].
    simpl.
    match goal with |- context [loadBooksFromStorage ?s] =>
      destruct (loadBooksFromStorage_same_loops s) as (_ & _ & ->) end. done.
  - left. unfold run, handleRemoveBook, deleteControl, bind at 1, modify.
    unfold bind at 1, io. simpl.
    destruct (removeBook bookId (world st)) as [[[]|] w1]; simpl; [|done].
    unfold bind, modify, fire. simpl.
    match goal with |- context [loadBooksFromStorage ?s] =>
      destruct (loadBooksFromStorage_same_loops s) as (_ & _ & ->) end. done.
  - by left.
Qed.

(** X13.  Whatever events occur (the effect, answers, timers, focus, retry,
    removal, a restart) and whatever the storage does, the screen posts no
    page request for a document whose identifier is not in the stored
    library, and such an identifier does not enter the library. *)
Theorem no_request_off_the_shelf (bookId : string) (evs : list Event) :
  ∀ st, bookId ∉ ids (libraryOf (world st)) →
        requests_for bookId (execs evs st) = requests_for bookId st
        ∧ (bookId ∉ ids (libraryOf (world (execs evs st)))).
Proof.
  induction evs as [|ev evs IH]; intros st Hid; [done|]. simpl.
  assert (Hid' : bookId ∉ ids (libraryOf (world (exec ev st)))).
  { intros H. by apply Hid, (exec_no_new_entry ev st). }
  destruct (IH _ Hid') as [-> G]. split; [|done].
  unfold requests_for.
  destruct (exec_request ev st) as [->|(i & p & Hi & ->)]; [done|].
  rewrite filter_app, map_app.
  rewrite filter_cons, filter_nil. simpl.
  rewrite decide_False; [by rewrite app_nil_r|]. intros ->. done.
Qed.

Lemma no_request_off_the_shelf_witness :
  let st := exec (EvRemove "doc")
              (execs [EvEffect; EvSettle 0 (Sucesso (pagina "um"))] (opened shelf)) in
  ("doc"%string ∉ ids (libraryOf (world st)))
  ∧ requests_for "doc" (execs [EvTimer 0; EvEffect; EvFocus; EvEffect] st) = [1].
Proof.
  intros st.
  assert (H : "doc"%string ∉ ids (libraryOf (world st))).
  { intros H. apply list_elem_of_In in H. vm_compute in H.
    destruct H as [H|[]]. discriminate. }
  split; [exact H|].
  destruct (no_request_off_the_shelf "doc" [EvTimer 0; EvEffect; EvFocus; EvEffect] st H)
    as [-> _].
  reflexivity.
Defined.

(** ** The language warning *)

Lemma same_alerts_refl st : same_alerts st st.
Proof. done. Qed.

Lemma same_alerts_trans s1 s2 s3 :
  same_alerts s1 s2 → same_alerts s2 s3 → same_alerts s1 s3.
Proof. unfold same_alerts. congruence. Qed.

Lemma same_alerts_io {A} (c : IO A) : keeps same_alerts (io c).
Proof. intros st. unfold io, same_alerts. by destruct (c (world st)). Qed.

Lemma same_alerts_modify f :
  (∀ st, alerts (f st) = alerts st) → keeps same_alerts (modify f).
Proof. intros H. by apply keeps_modify. Qed.

Ltac quiet :=
  repeat keeps_step same_alerts_refl same_alerts_trans same_alerts_modify @same_alerts_io.

Lemma loadBooksFromStorage_same_alerts : keeps same_alerts loadBooksFromStorage.
Proof. unfold loadBooksFromStorage. quiet. Qed.

Lemma processPage_same_alerts b p : keeps same_alerts (processPage b p).
Proof.
  unfold processPage, deleteControl, suspend. quiet.
  apply loadBooksFromStorage_same_alerts.
Qed.

Lemma processBookPages_same_alerts b : keeps same_alerts (processBookPages b).
Proof. unfold processBookPages. quiet. apply processPage_same_alerts. Qed.

Lemma failure_branch_same_alerts b :
  keeps same_alerts
    (await _ <- io (updateBookStatus (id_arquivo b) failed) ;;
     await _ <- deleteControl (id_arquivo b) ;;
     fire loadBooksFromStorage).
Proof. unfold deleteControl. quiet. apply loadBooksFromStorage_same_alerts. Qed.

Lemma processPage_settled_alerts b p r st :
  alerts (run (processPage_settled b p r) st)
  = (alerts st
     + match r with
       | Sucesso pageData => if (p =? 1)%Z && foreign_language pageData then 1 else 0
       | Falha => 0
       end)%nat.
Proof.
  unfold run, processPage_settled. destruct r as [pageData|].
  - destruct ((p =? 1) && foreign_language pageData).
    + unfold tryCatch, bind at 1.
      change (modify alert st) with (Ok tt, alert st). cbv beta iota.
      match goal with |- context [bind ?c ?k (alert st)] =>
        assert (Hk : keeps same_alerts (bind c k)) by (unfold suspend; quiet);
        pose proof (Hk (alert st)) as H; destruct (bind c k (alert st)) as [[[]|] s1]
      end; unfold same_alerts in H; simpl in *; [lia|].
      rewrite (failure_branch_same_alerts b s1). lia.
    + match goal with |- alerts (snd (?c st)) = _ =>
        assert (Hk : keeps same_alerts c)
          by (unfold suspend, deleteControl; quiet; apply loadBooksFromStorage_same_alerts);
        rewrite (Hk st) end. lia.
  - unfold tryCatch, throw. rewrite (failure_branch_same_alerts b st). lia.
Qed.

(** X14.  The language warning is raised by one event only: the arrival of
    the answer to the request for page 1 with a language that is given and
    does not start with 'pt'.  No other event raises it, the answers for
    the later pages do not, and storage failures make no difference.  The
    warning does not stop the ingestion: with no storage failure the page
    is appended and the next page scheduled as for any other page. *)
Theorem language_warning_on_first_page (ev : Event) (st : App) :
  alerts (exec ev st) = (alerts st + warns ev st)%nat
  ∧ ∀ b pageData rest,
      ev = EvSettle 0 (Sucesso pageData) →
      tasks st = mkTask b (AwaitFetch 1) :: rest → faults (world st) = [] →
      files (world (exec ev st)) !! id_arquivo b
      = Some (default [] (files (world st) !! id_arquivo b) ++ [pageData])
      ∧ tasks (exec ev st) = rest ++ [mkTask b (AwaitTimer 2)].
Proof.
  split.
  - destruct ev; unfold exec, warns.
    + unfold run, pendingBookEffect.
      match goal with |- alerts (snd (?c st)) = _ =>
        assert (Hk : keeps same_alerts c); [|rewrite (Hk st); lia] end.
      quiet. destruct (find _ _); quiet. apply processBookPages_same_alerts.
    + destruct (tasks st !! n) as [[b [p|p]]|]; cbv beta iota.
      * rewrite processPage_settled_alerts. cbn [alerts set_tasks].
        destruct r as [pageData|]; [|done].
        destruct p as [|[| |]|]; cbn [Z.eqb Pos.eqb andb]; lia.
      * destruct r; lia.
      * destruct r; lia.
    + destruct (tasks st !! n) as [[b [p|p]]|]; cbv beta iota; try lia.
      unfold run. rewrite (processPage_same_alerts b p (set_tasks _ st)). cbn [alerts set_tasks]. lia.
    + unfold run. rewrite (loadBooksFromStorage_same_alerts st). lia.
    + unfold run, retryBook.
      match goal with |- alerts (snd (?c st)) = _ =>
        assert (Hk : keeps same_alerts c); [|rewrite (Hk st); lia] end.
      quiet. apply loadBooksFromStorage_same_alerts.
    + unfold run, handleRemoveBook, deleteControl.
      match goal with |- alerts (snd (?c st)) = _ =>
        assert (Hk : keeps same_alerts c); [|rewrite (Hk st); lia] end.
      quiet. apply loadBooksFromStorage_same_alerts.
    + simpl. lia.
  - intros b pageData rest -> Ht Hf. rewrite (exec_settle _ _ _ _ _ Ht).
    destruct (processPage_settled_appends b 1 pageData (set_tasks rest st) Hf)
      as (H1 & H2 & _). cbv zeta in H1, H2. rewrite H1, H2. simpl.
    split; [|done]. apply lookup_insert_eq.
Qed.

Lemma language_warning_on_first_page_witness :
  let st := exec EvEffect (opened shelf) in
  tasks st = [mkTask doc (AwaitFetch 1)] ∧ faults (world st) = []
  ∧ alerts (exec (EvSettle 0 (Sucesso (page_en "one"))) st) = 1%nat
  ∧ files (world (exec (EvSettle 0 (Sucesso (page_en "one"))) st)) !! "doc"%string
    = Some [page_en "one"].
Proof.
  intros st. split; [reflexivity|]. split; [reflexivity|].
  destruct (language_warning_on_first_page (EvSettle 0 (Sucesso (page_en "one"))) st)
    as [H1 H2].
  split; [rewrite H1; reflexivity|].
  destruct (H2 doc (page_en "one") [] eq_refl eq_refl eq_refl) as [H3 _].
  exact H3.
Defined.

(** ** The scan of the library *)

Lemma not_failed (b : Book) :
  status b = processing ∨ status b = ready ↔ status b ≠ failed.
Proof. destruct (status b); split; intros H; try done; auto; by destruct H. Qed.

Lemma marked_ready_touches bookId k lib sto w :
  marked ready k w → libraryOf w = lib →
  marked ready k (set_storage (Some (map (touches bookId (set_status ready)) lib)) sto).
Proof.
  intros Hm <- b' Hb' Hid. unfold libraryOf in Hb'. simpl in Hb'.
  apply list_elem_of_fmap in Hb' as (b0 & -> & Hb0).
  unfold touches in *. destruct (has_id _ b0); [done|by apply Hm].
Qed.

Lemma scanBooks_scan books : ∀ ip w,
  faults w = [] →
  ∃ ip' w',
    scanBooks books ip w = (Ok ip', w')
    ∧ faults w' = [] ∧ files w' = files w ∧ pdfs w' = pdfs w
    ∧ ids (libraryOf w') = ids (libraryOf w)
    ∧ (∀ k, ip' !! k = ip !! k
            ∨ ∃ b, b ∈ books ∧ id_arquivo b = k ∧ status b ≠ failed
                   ∧ 0 < total_paginas b
                   ∧ ip' !! k = Some (ratio (count_pages (files w !! k)) (total_paginas b)))
    ∧ (∀ b, b ∈ books → status b ≠ failed → 0 < total_paginas b →
            is_Some (ip' !! id_arquivo b))
    ∧ (∀ b, b ∈ books → status b = processing →
            count_pages (files w !! id_arquivo b) = total_paginas b →
            marked ready (id_arquivo b) w')
    ∧ (∀ k, marked ready k w → marked ready k w').
Proof.
  induction books as [|book rest IH]; intros ip w Hf.
  { exists ip, w. simpl. repeat split; try done.
    - intros k. by left.
    - intros b Hb. by apply elem_of_nil in Hb.
    - intros b Hb. by apply elem_of_nil in Hb. }
  simpl. case_bool_decide as Hst.
  - (* a document in 'processing' or 'ready' *)
    apply not_failed in Hst.
    unfold bind at 1. rewrite loadBookPages_quiet' by done.
    unfold bind at 1.
    fold (count_pages (files w !! id_arquivo book)).
    set (n := count_pages (files w !! id_arquivo book)).
    set (ip1 := if 0 <? total_paginas book
                then <[id_arquivo book := ratio n (total_paginas book)]> ip else ip).
    assert (Hrest : ∀ w1,
      faults w1 = [] → files w1 = files w → pdfs w1 = pdfs w →
      ids (libraryOf w1) = ids (libraryOf w) →
      (status book = processing → n = total_paginas book →
       marked ready (id_arquivo book) w1) →
      (∀ k, marked ready k w → marked ready k w1) →
      ∃ ip' w',
        scanBooks rest ip1 w1 = (Ok ip', w')
        ∧ faults w' = [] ∧ files w' = files w ∧ pdfs w' = pdfs w
        ∧ ids (libraryOf w') = ids (libraryOf w)
        ∧ (∀ k, ip' !! k = ip !! k
                ∨ ∃ b, b ∈ book :: rest ∧ id_arquivo b = k ∧ status b ≠ failed
                       ∧ 0 < total_paginas b
                       ∧ ip' !! k
                         = Some (ratio (count_pages (files w !! k)) (total_paginas b)))
        ∧ (∀ b, b ∈ book :: rest → status b ≠ failed → 0 < total_paginas b →
                is_Some (ip' !! id_arquivo b))
        ∧ (∀ b, b ∈ book :: rest → status b = processing →
                count_pages (files w !! id_arquivo b) = total_paginas b →
                marked ready (id_arquivo b) w')
        ∧ (∀ k, marked ready k w → marked ready k w')).
    { intros w1 Hf1 Hfl1 Hpd1 Hids1 Hheal1 Hkeep1.
      destruct (IH ip1 w1 Hf1) as (ip' & w' & -> & G1 & G2 & G3 & G4 & G5 & G6 & G7 & G8).
      exists ip', w'. split; [done|]. rewrite Hfl1 in *.
      split; [done|]. split; [done|]. split; [congruence|]. split; [congruence|].
      split; [|split; [|split]].
      + intros k. destruct (G5 k) as [E|(b & Hb & Hk & Hs & Ht & E)].
        * subst ip1. destruct (0 <? total_paginas book) eqn:Ht; [|by left].
          destruct (decide (k = id_arquivo book)) as [->|Hne].
          -- right. exists book. rewrite E, lookup_insert_eq.
             apply Z.ltb_lt in Ht. repeat split; try done. by left.
          -- left. by rewrite E, lookup_insert_ne.
        * right. exists b. repeat split; try done. by right.
      + intros b Hb Hs Ht. apply elem_of_cons in Hb as [->|Hb]; [|by apply G6].
        destruct (G5 (id_arquivo book)) as [E|(b & _ & _ & _ & _ & E)]; rewrite E; [|done].
        subst ip1. replace (0 <? total_paginas book) with true
          by (symmetry; by apply Z.ltb_lt).
        by rewrite lookup_insert_eq.
      + intros b Hb Hs Hn. apply elem_of_cons in Hb as [->|Hb]; [|by apply G7].
        apply G8, Hheal1; done.
      + intros k Hk. by apply G8, Hkeep1. }
    destruct (is_processing book && (n =? total_paginas book)) eqn:Hc.
    + rewrite updateBookStatus_quiet by done. apply Hrest; try done.
      * unfold libraryOf at 1. simpl. by apply ids_touches.
      * intros _ _ b' Hb' Hid. unfold libraryOf in Hb'. simpl in Hb'.
        apply list_elem_of_fmap in Hb' as (b0 & -> & Hb0).
        unfold touches, has_id in *. case_bool_decide; [done|]. exfalso. done.
      * intros k Hk. by eapply marked_ready_touches.
    + unfold ret at 1. apply Hrest; try done.
      intros Hp Hn. apply andb_false_iff in Hc as [Hc|Hc].
      * unfold is_processing in Hc. by apply bool_decide_eq_false in Hc.
      * apply Z.eqb_neq in Hc. done.
  - (* a failed document is skipped *)
    destruct (IH ip w Hf) as (ip' & w' & -> & G1 & G2 & G3 & G4 & G5 & G6 & G7 & G8).
    exists ip', w'. split; [done|].
    split; [done|]. split; [done|]. split; [done|]. split; [done|].
    split; [|split; [|split]]; try done.
    + intros k. destruct (G5 k) as [E|(b & Hb & Hk & Hs & Ht & E)]; [by left|].
      right. exists b. repeat split; try done. by right.
    + intros b Hb Hs Ht. apply elem_of_cons in Hb as [->|Hb]; [|by apply G6].
      exfalso. apply Hst. by apply not_failed.
    + intros b Hb Hs Hn. apply elem_of_cons in Hb as [->|Hb]; [|by apply G7].
      exfalso. apply Hst. by left.
Qed.

Lemma loadBooksFromStorage_scan st :
  faults (world st) = [] →
  ∃ ip' w',
    scanBooks (libraryOf (world st)) ∅ (world st) = (Ok ip', w')
    ∧ loadBooksFromStorage st
      = (Ok tt, setProgress (fun _ => ip')
                  (set_world w' (setLibrary (libraryOf (world st)) st))).
Proof.
  intros Hf.
  destruct (scanBooks_scan (libraryOf (world st)) ∅ (world st) Hf)
    as (ip' & w' & E & _).
  exists ip', w'. split; [done|].
  unfold loadBooksFromStorage, bind at 1, io at 1. rewrite loadLibrary_quiet by done.
  unfold bind at 1, modify at 1. unfold bind at 1, io. simpl.
  replace (set_world (world st) st) with st by by destruct st.
  simpl. rewrite E. done.
Qed.

(** X15.  loadBooksFromStorage, with no storage failure: the list shown is
    the library as read before the scan; the page files are not touched; a
    document stored as 'processing' whose page file already holds
    total_paginas records is marked 'ready' in storage; and the progress
    map has an entry exactly for the documents that are not 'failed' and
    have a positive page total, each entry being (records on disk) /
    (total pages). *)
Theorem loadBooksFromStorage_heals (st : App) :
  faults (world st) = [] →
  let st' := run loadBooksFromStorage st in
  library st' = libraryOf (world st)
  ∧ files (world st') = files (world st)
  ∧ (∀ b, b ∈ libraryOf (world st) → status b = processing →
          count_pages (files (world st) !! id_arquivo b) = total_paginas b →
          marked ready (id_arquivo b) (world st'))
  ∧ (∀ k v, progress st' !! k = Some v →
            ∃ b, b ∈ libraryOf (world st) ∧ id_arquivo b = k ∧ status b ≠ failed
                 ∧ 0 < total_paginas b
                 ∧ v = ratio (count_pages (files (world st) !! k)) (total_paginas b))
  ∧ (∀ b, b ∈ libraryOf (world st) → status b ≠ failed → 0 < total_paginas b →
          is_Some (progress st' !! id_arquivo b)).
Proof.
  intros Hf.
  destruct (scanBooks_scan (libraryOf (world st)) ∅ (world st) Hf)
    as (ip' & w' & E & G1 & G2 & G3 & G4 & G5 & G6 & G7 & G8).
  destruct (loadBooksFromStorage_scan st Hf) as (ip2 & w2 & E2 & E3).
  rewrite E in E2. inversion E2; subst ip2 w2. clear E2.
  cbv zeta. unfold run. rewrite E3. simpl.
  split; [done|]. split; [done|]. split; [done|]. split; [|done].
  intros k v Hk. destruct (G5 k) as [E'|(b & Hb & Hkb & Hs & Ht & E')].
  - rewrite E', lookup_empty in Hk. done.
  - exists b. repeat split; try done. congruence.
Qed.

Lemma loadBooksFromStorage_heals_witness :
  faults (world (opened shelf_full)) = []
  ∧ status doc = processing
  ∧ marked ready "doc" (world (run loadBooksFromStorage (opened shelf_full)))
  ∧ library (run loadBooksFromStorage (opened shelf_full)) = [doc; outro].
Proof.
  split; [reflexivity|]. split; [reflexivity|].
  destruct (loadBooksFromStorage_heals (opened shelf_full) eq_refl)
    as (H1 & _ & H2 & _).
  split; [|exact H1].
  apply (H2 doc); [|reflexivity|reflexivity].
  apply list_elem_of_In. simpl. by left.
Defined.

(** ** Removal *)

(** X16.  The 'Remover' button, with no storage failure: afterwards the
    document is in neither the stored library nor the list shown, it has
    no page file and no progress entry, its marker is unset, and no page
    request was posted.  The suspended loops are left in place: a loop of
    the document is not cancelled by the removal. *)
Theorem handleRemoveBook_clears (bookId : string) (st : App) :
  faults (world st) = [] →
  let st' := exec (EvRemove bookId) st in
  (bookId ∉ ids (libraryOf (world st')))
  ∧ (bookId ∉ ids (library st'))
  ∧ files (world st') !! bookId = None
  ∧ progress st' !! bookId = None
  ∧ (bookId ∉ processingControl st')
  ∧ tasks st' = tasks st
  ∧ requests st' = requests st.
Proof.
  intros Hf. cbv zeta. unfold exec, run.
  set (lib' := filter (fun book => id_arquivo book ≠ bookId) (libraryOf (world st))).
  assert (E : ∃ w1 s1,
    handleRemoveBook bookId st = (Ok tt, snd (loadBooksFromStorage s1))
    ∧ world s1 = w1 ∧ faults w1 = [] ∧ libraryOf w1 = lib'
    ∧ files w1 = delete bookId (files (world st))
    ∧ processingControl s1 = processingControl st ∖ {[bookId]}
    ∧ tasks s1 = tasks st ∧ requests s1 = requests st).
  { unfold handleRemoveBook, deleteControl, bind at 1, modify at 1.
    unfold bind at 1, io. simpl.
    rewrite (quiet_world _ Hf). rewrite removeBook_quiet.
    unfold bind at 1, modify. unfold fire. simpl.
    eexists _, _. split; [reflexivity|]. simpl.
    split; [reflexivity|]. split; [reflexivity|].
    split; [|done]. unfold lib', libraryOf. simpl. by rewrite default_storage. }
  destruct E as (w1 & s1 & -> & Hw1 & Hf1 & Hlib1 & Hfl1 & Hc1 & Ht1 & Hr1).
  cbn [snd].
  assert (Hf1' : faults (world s1) = []) by by rewrite Hw1.
  destruct (scanBooks_scan (libraryOf (world s1)) ∅ (world s1) Hf1')
    as (ip' & w' & E & G1 & G2 & G3 & G4 & G5 & G6 & G7 & G8).
  destruct (loadBooksFromStorage_scan s1 Hf1') as (ip2 & w2 & E2 & E3).
  rewrite E in E2. inversion E2; subst ip2 w2. clear E2.
  rewrite E3. simpl. rewrite Hw1 in *. rewrite Hlib1 in *.
  split; [rewrite G4; apply filter_others_ids|].
  split; [apply filter_others_ids|].
  split; [rewrite G2, Hfl1; apply lookup_delete_eq|].
  split.
  { destruct (G5 bookId) as [E'|(b & Hb & Hkb & _)].
    - by rewrite E', lookup_empty.
    - exfalso. apply (filter_others_ids bookId (libraryOf (world st))).
      fold lib'. unfold ids. apply list_elem_of_fmap. eauto. }
  split; [rewrite Hc1; set_solver|]. done.
Qed.

Lemma handleRemoveBook_clears_witness :
  let st := execs [EvEffect; EvSettle 0 (Sucesso (pagina "um"))] (opened shelf) in
  faults (world st) = []
  ∧ tasks st = [mkTask doc (AwaitTimer 2)]
  ∧ tasks (exec (EvRemove "doc") st) = [mkTask doc (AwaitTimer 2)]
  ∧ files (world (exec (EvRemove "doc") st)) !! "doc"%string = None.
Proof.
  intros st. split; [reflexivity|]. split; [reflexivity|].
  destruct (handleRemoveBook_clears "doc" st eq_refl) as (_ & _ & H1 & _ & _ & H2 & _).
  split; [exact H2|exact H1].
Defined.

(** ** Retry *)

Lemma find_processing_touched bookId b0 lib :
  find (has_id bookId) lib = Some b0 →
  (∀ b, b ∈ lib → status b = processing → id_arquivo b = bookId) →
  find is_processing (map (touches bookId (set_status processing)) lib)
  = Some (set_status processing b0).
Proof.
  induction lib as [|b lib IH]; intros Hfind Hothers; [done|].
  simpl in *. destruct (has_id bookId b) eqn:E.
  - assert (T : touches bookId (set_status processing) b = set_status processing b)
      by (unfold touches; by rewrite E).
    rewrite !T. inversion Hfind; subst. reflexivity.
  - assert (T : touches bookId (set_status processing) b = b)
      by (unfold touches; by rewrite E).
    rewrite !T. replace (is_processing b) with false.
    + apply IH; [done|]. intros b' Hb'. apply Hothers. by right.
    + symmetry. apply bool_decide_eq_false. intros Hp.
      apply bool_decide_eq_false in E. apply E, Hothers; [by left|done].
Qed.

Lemma find_has_id bookId b0 lib :
  find (has_id bookId) lib = Some b0 → id_arquivo b0 = bookId ∧ bookId ∈ ids lib.
Proof.
  intros H. apply find_some in H as [H1 H2]. apply bool_decide_eq_true in H2.
  split; [done|]. unfold ids. apply list_elem_of_fmap. exists b0.
  split; [done|]. by apply list_elem_of_In.
Qed.

(** X17.  'Tentar Novamente' resumes where the ingestion stopped: with no
    storage failure, for a document on the shelf with [n] page records on
    disk, n below its page total, no marker set and no other document in
    'processing', the retry followed by the effect that watches the list
    sets the marker and posts exactly one request, for page n + 1; no page
    already on disk is requested again and the page file is untouched. *)
Theorem retry_resumes (bookId : string) (b0 : Book) (st : App) :
  faults (world st) = [] →
  find (has_id bookId) (libraryOf (world st)) = Some b0 →
  (∀ b, b ∈ libraryOf (world st) → status b = processing → id_arquivo b = bookId) →
  bookId ∉ processingControl st →
  count_pages (files (world st) !! bookId) < total_paginas b0 →
  let n := count_pages (files (world st) !! bookId) in
  let st' := execs [EvRetry bookId; EvEffect] st in
  requests st' = requests st ++ [(bookId, n + 1)]
  ∧ tasks st' = tasks st ++ [mkTask (set_status processing b0) (AwaitFetch (n + 1))]
  ∧ bookId ∈ processingControl st'
  ∧ files (world st') = files (world st).
Proof.
  intros Hf Hfind Hothers Hc Hn n st'.
  destruct (find_has_id _ _ _ Hfind) as [Hid Hin].
  set (lib1 := map (touches bookId (set_status processing)) (libraryOf (world st))).
  assert (E : ∃ s1,
    exec (EvRetry bookId) st = snd (loadBooksFromStorage s1)
    ∧ faults (world s1) = [] ∧ libraryOf (world s1) = lib1
    ∧ files (world s1) = files (world st)
    ∧ processingControl s1 = processingControl st
    ∧ tasks s1 = tasks st ∧ requests s1 = requests st).
  { unfold exec, run, retryBook, bind at 1, io.
    rewrite updateBookStatus_quiet by done. unfold fire. eexists. split; [reflexivity|].
    by simpl. }
  destruct E as (s1 & E1 & Hf1 & Hlib1 & Hfl1 & Hc1 & Ht1 & Hr1).
  destruct (scanBooks_scan (libraryOf (world s1)) ∅ (world s1) Hf1)
    as (ip' & w' & E & G1 & G2 & G3 & G4 & _).
  destruct (loadBooksFromStorage_scan s1 Hf1) as (ip2 & w2 & E2 & E3).
  rewrite E in E2. inversion E2; subst ip2 w2. clear E2.
  rewrite E3 in E1. cbn [snd] in E1.
  subst st'. unfold execs. cbn [foldl]. rewrite E1.
  set (s2 := setProgress _ _).
  assert (Hlib2 : library s2 = lib1) by (subst s2; simpl; done).
  assert (Hfind2 : find is_processing (library s2) = Some (set_status processing b0)).
  { rewrite Hlib2. by apply find_processing_touched. }
  assert (Hc2 : id_arquivo (set_status processing b0) ∉ processingControl s2).
  { simpl. rewrite Hid. subst s2. simpl. by rewrite Hc1. }
  unfold exec. rewrite (pendingBookEffect_starts s2 _ Hfind2 Hc2). unfold run.
  assert (Hf2 : faults (world s2) = []) by (subst s2; simpl; done).
  rewrite processBookPages_resume by done.
  assert (Hfl2 : files (world s2) = files (world st)).
  { subst s2. simpl. congruence. }
  simpl id_arquivo. rewrite Hid, Hfl2. fold n.
  match goal with |- context [processPage ?b ?p ?s] =>
    pose proof (processPage_posts b p s) as P end.
  unfold run in P. rewrite P.
  - simpl. rewrite Hid. subst s2. simpl. rewrite Ht1, Hr1, Hc1.
    split; [done|]. split; [done|]. split; [set_solver|congruence].
  - done.
  - unfold on_shelf. apply existsb_has_id. simpl. rewrite Hid.
    subst s2. simpl. rewrite G4, Hlib1. unfold lib1.
    rewrite ids_touches by done. done.
  - simpl. subst n. lia.
Qed.

Lemma retry_resumes_witness :
  faults (world (opened shelf_failed)) = []
  ∧ requests (execs [EvRetry "doc"; EvEffect] (opened shelf_failed))
    = [("doc"%string, 2)].
Proof.
  split; [reflexivity|].
  assert (H1 : ∀ b, b ∈ libraryOf (world (opened shelf_failed)) →
                    status b = processing → id_arquivo b = "doc"%string).
  { intros b Hb. apply list_elem_of_In in Hb. simpl in Hb.
    destruct Hb as [<-|[<-|[]]]; simpl; [done|discriminate]. }
  assert (H2 : "doc"%string ∉ processingControl (opened shelf_failed))
    by apply not_elem_of_empty.
  assert (H3 : count_pages (files (world (opened shelf_failed)) !! "doc"%string)
               < total_paginas (set_status failed doc)) by (vm_compute; reflexivity).
  destruct (retry_resumes "doc" (set_status failed doc) (opened shelf_failed)
              eq_refl eq_refl H1 H2 H3) as (H & _).
  exact H.
Defined.

End DeskLaws.

(* ===================================================================== *)
(** * Laws of the cards and of the add button *)
(* ===================================================================== *)

Module CardLaws.
Import Store Library Props Shelf Cards Desk StoreFacts LoopFacts StoreLaws DeskLaws.
#[local] Set Warnings "-clear-no-such-hyp".

(** X18.  A press on a card, whatever the storage does: it never rejects
    and changes neither the library nor any file; nothing happens while a
    file is being uploaded; a 'failed' document gets the retry dialog and
    never opens; and the player is opened only for the pressed entry and
    only with the page records that are on disk, at least one.  With no
    storage failure, a document in 'ready' or 'processing' with at least
    one record on disk does open, with exactly those records. *)
Theorem handlePressBook_opens_with_pages (uploading : bool) (item : Book) (w : World) :
  let w' := snd (handlePressBook uploading item w) in
  storage w' = storage w ∧ files w' = files w ∧ pdfs w' = pdfs w
  ∧ ∃ out,
      fst (handlePressBook uploading item w) = Ok out
      ∧ (uploading = true → out = Nothing)
      ∧ (uploading = false → status item = failed → out = RetryDialog)
      ∧ (∀ b pages, out = OpenPlayer b pages →
           uploading = false ∧ b = item ∧ status item ≠ failed
           ∧ pages ≠ [] ∧ files w !! id_arquivo item = Some pages)
      ∧ (faults w = [] → uploading = false → status item ≠ failed →
         ∀ pages, files w !! id_arquivo item = Some pages → pages ≠ [] →
                  out = OpenPlayer item pages).
Proof.
  unfold handlePressBook. destruct uploading.
  { simpl. repeat split; try done. exists Nothing. repeat split; try done. }
  case_bool_decide as Hfail.
  { simpl. repeat split; try done. exists RetryDialog. repeat split; try done. }
  case_bool_decide as Hst.
  2:{ exfalso. apply Hst. destruct (status item); auto. done. }
  cbv zeta. unfold bind.
  destruct (loadBookPages_reads_only_aux (id_arquivo item) w)
    as (H1 & H2 & H3 & r & Hr & Hcase).
  destruct (loadBookPages (id_arquivo item) w) as [res w1] eqn:E.
  simpl in H1, H2, H3, Hr. subst res.
  assert (Hq : faults w = [] → r = files w !! id_arquivo item).
  { intros Hf. rewrite loadBookPages_quiet' in E by done. by inversion E. }
  destruct r as [[|p ps]|]; simpl.
  - split; [done|]. split; [done|]. split; [done|].
    exists WaitAlert. split; [done|]. split; [done|]. split; [done|].
    split; [done|].
    intros Hf _ _ pages Hp Hne. rewrite <- (Hq Hf) in Hp. congruence.
  - split; [done|]. split; [done|]. split; [done|].
    exists (OpenPlayer item (p :: ps)). split; [done|]. split; [done|]. split; [done|].
    split.
    + intros b pages H. inversion H; subst b pages.
      split; [done|]. split; [done|]. split; [done|]. split; [done|].
      destruct Hcase as [Hc|Hc]; [done|]. by rewrite <- Hc.
    + intros Hf _ _ pages Hp Hne. rewrite <- (Hq Hf) in Hp. congruence.
  - split; [done|]. split; [done|]. split; [done|].
    exists WaitAlert. split; [done|]. split; [done|]. split; [done|].
    split; [done|].
    intros Hf _ _ pages Hp Hne. rewrite <- (Hq Hf) in Hp. congruence.
Qed.

Lemma handlePressBook_opens_with_pages_witness :
  faults shelf = []
  ∧ fst (handlePressBook false outro shelf)
    = Ok (OpenPlayer outro [pagina "a"; pagina "b"]).
Proof.
  split; [reflexivity|].
  destruct (handlePressBook_opens_with_pages false outro shelf)
    as (_ & _ & _ & out & E & _ & _ & _ & H).
  rewrite E. f_equal. apply H; [reflexivity|reflexivity|discriminate|reflexivity|discriminate].
Defined.

(** ** The add button *)

Lemma ui_same_flags {A} (c : UI A) : keeps same_flags (ui c).
Proof. intros sc. unfold ui. by destruct (c (ingestion sc)). Qed.

Lemma same_flags_refl sc : same_flags sc sc.
Proof. done. Qed.

Lemma same_flags_trans s1 s2 s3 : same_flags s1 s2 → same_flags s2 s3 → same_flags s1 s3.
Proof. unfold same_flags. intros (? & ? & ?) (? & ? & ?). repeat split; congruence. Qed.

Lemma upload_body_same_flags dd dec fileUri bookInfo :
  keeps same_flags
    (await nome <-
       (if String.eqb (nome_original bookInfo) "" then ret (nome_original bookInfo)
        else match dec (nome_original bookInfo) with
             | Some nome => ret nome
             | None => throw
             end) ;;
     let bookInfo := with_nome_original nome bookInfo in
     let permanentUri := (dd ++ id_arquivo bookInfo)%string in
     await _ <- ui (io (copyAsync fileUri permanentUri)) ;;
     let bookToProcess := with_localUri permanentUri bookInfo in
     await _ <- ui (io (saveBook bookToProcess)) ;;
     await _ <- ui (modify (setProgress <[id_arquivo bookInfo := 0%Q]>)) ;;
     ui (fire loadBooksFromStorage)).
Proof.
  apply keeps_bind; [apply same_flags_trans| |intros nome].
  - apply keeps_if; [apply keeps_ret, same_flags_refl|].
    destruct (dec _); [apply keeps_ret|apply keeps_throw]; apply same_flags_refl.
  - cbv zeta. repeat (apply keeps_bind; [apply same_flags_trans| |intros ?]);
      apply ui_same_flags.
Qed.

(** X19.  The add button.  A picked file larger than 30 MB (30 * 1024 *
    1024 bytes) is not posted: one alert is shown and the uploading flag
    stays as it was; a file of at most that size is posted with the flag
    set; a cancelled or failed pick posts nothing; in no case does the
    handler reject or touch the library.  When the upload settles, in
    whatever way (answer or error, malformed name, failing copy or
    storage), the handler does not reject, the flag is cleared and nothing
    more is posted; after a failed upload the library, the files and the
    list are as they were and one alert is shown. *)
Theorem add_button_guards (dd : string) (dec : string → option string) (sc : Screen) :
  (∀ result,
     fst (handleDocumentPick result sc) = Ok tt
     ∧ ingestion (snd (handleDocumentPick result sc)) = ingestion sc
     ∧ (result = Ok Canceled → snd (handleDocumentPick result sc) = sc)
     ∧ (result = Threw →
        snd (handleDocumentPick result sc) = setIsUploading false sc))
  ∧ (∀ uri name size,
       let sc' := snd (handleDocumentPick (Ok (Asset uri name size)) sc) in
       (31457280 < size → sc' = notify TooLarge sc)
       ∧ (size ≤ 31457280 → sc' = post uri (setIsUploading true sc)))
  ∧ (∀ fileUri response,
       let sc' := snd (handleDocumentPick_settled dd dec fileUri response sc) in
       fst (handleDocumentPick_settled dd dec fileUri response sc) = Ok tt
       ∧ isUploading sc' = false
       ∧ uploads sc' = uploads sc
       ∧ (response = Threw →
          ingestion sc' = ingestion sc ∧ notices sc' = notices sc ++ [UploadFailed])).
Proof.
  split; [|split].
  - intros [[|uri name size]|]; unfold handleDocumentPick, tryCatch; simpl;
      try done.
    destruct (MAX_FILE_SIZE_BYTES <? size); simpl; done.
  - intros uri name size. cbv zeta. unfold handleDocumentPick, tryCatch.
    change MAX_FILE_SIZE_BYTES with 31457280. split; intros H.
    + replace (31457280 <? size) with true by (symmetry; by apply Z.ltb_lt). done.
    + replace (31457280 <? size) with false by (symmetry; apply Z.ltb_ge; lia). done.
  - intros fileUri response.
    unfold handleDocumentPick_settled, finally, tryCatch. cbv zeta.
    destruct response as [bookInfo|]; [|by simpl].
    pose proof (upload_body_same_flags dd dec fileUri bookInfo sc) as H.
    cbv zeta in H.
    match type of H with same_flags _ (snd (?c sc)) =>
      destruct (c sc) as [[[]|] s1] eqn:E end.
    + destruct H as (H1 & H2 & H3). simpl. repeat split; try done.
    + destruct H as (H1 & H2 & H3). simpl. repeat split; try done.
Qed.

Lemma add_button_guards_witness :
  31457280 < 40000000
  ∧ snd (handleDocumentPick (Ok (Asset "file:///cache/grande.pdf" "grande.pdf" 40000000))
           tela)
    = notify TooLarge tela.
Proof.
  split; [lia|].
  destruct (add_button_guards "file:///docs/" decode_plain tela) as (_ & H & _).
  destruct (H "file:///cache/grande.pdf"%string "grande.pdf"%string 40000000) as [H1 _].
  apply H1. lia.
Defined.

Lemma scanBooks_idle books : ∀ ip w,
  faults w = [] →
  (∀ b, b ∈ books → status b = processing →
        count_pages (files w !! id_arquivo b) ≠ total_paginas b) →
  ∃ ip', scanBooks books ip w = (Ok ip', w).
Proof.
  induction books as [|book rest IH]; intros ip w Hf Hidle; simpl; [by eexists|].
  assert (Hrest : ∀ b, b ∈ rest → status b = processing →
                       count_pages (files w !! id_arquivo b) ≠ total_paginas b).
  { intros b Hb. apply Hidle. by right. }
  case_bool_decide; [|by apply IH].
  unfold bind at 1. rewrite loadBookPages_quiet' by done.
  unfold bind at 1.
  fold (count_pages (files w !! id_arquivo book)).
  destruct (is_processing book && _) eqn:Hc.
  - exfalso. apply andb_true_iff in Hc as [Hp Hn].
    apply bool_decide_eq_true in Hp. apply Z.eqb_eq in Hn.
    by apply (Hidle book); [left|..].
  - unfold ret at 1. by apply IH.
Qed.

Lemma loadBooksFromStorage_idle st :
  faults (world st) = [] →
  (∀ b, b ∈ libraryOf (world st) → status b = processing →
        count_pages (files (world st) !! id_arquivo b) ≠ total_paginas b) →
  ∃ ip', loadBooksFromStorage st
         = (Ok tt, setProgress (fun _ => ip') (setLibrary (libraryOf (world st)) st)).
Proof.
  intros Hf Hidle.
  destruct (scanBooks_idle (libraryOf (world st)) ∅ (world st) Hf Hidle) as [ip' E].
  destruct (loadBooksFromStorage_scan st Hf) as (ip2 & w2 & E2 & E3).
  rewrite E in E2. inversion E2; subst ip2 w2. exists ip'. rewrite E3.
  by destruct st.
Qed.


Lemma find_processing_last lib b :
  (∀ b', b' ∈ lib → status b' ≠ processing) → status b = processing →
  find is_processing (lib ++ [b]) = Some b.
Proof.
  intros Hlib Hb. induction lib as [|b' lib IH]; simpl.
  - unfold is_processing. by rewrite bool_decide_eq_true_2.
  - replace (is_processing b') with false.
    + apply IH. intros b2 Hb2. apply Hlib. by right.
    + symmetry. apply bool_decide_eq_false. apply Hlib. by left.
Qed.

(** The device once the picked document is stored. *)
Lemma handleDocumentPick_settled_quiet dd dec fileUri bookInfo nome sc :
  faults (world (ingestion sc)) = [] →
  (if String.eqb (nome_original bookInfo) "" then Some (nome_original bookInfo)
   else dec (nome_original bookInfo)) = Some nome →
  id_arquivo bookInfo ∉ ids (libraryOf (world (ingestion sc))) →
  let w := world (ingestion sc) in
  let uri := (dd ++ id_arquivo bookInfo)%string in
  let novo := newBook (with_localUri uri (with_nome_original nome bookInfo)) in
  let w1 := mkWorld (Some (libraryOf w ++ [novo]))
                    (<[id_arquivo bookInfo := []]> (files w))
                    ({[uri]} ∪ pdfs w) [] in
  handleDocumentPick_settled dd dec fileUri (Ok bookInfo) sc
  = (Ok tt,
     setIsUploading false
       (set_ingestion (snd (loadBooksFromStorage
                        (setProgress <[id_arquivo bookInfo := 0%Q]>
                           (Library.set_world w1 (ingestion sc))))) sc)).
Proof.
  intros Hf Hdec Hid. cbv zeta.
  unfold handleDocumentPick_settled, finally, tryCatch.
  unfold bind at 1.
  assert (E0 : (if String.eqb (nome_original bookInfo) ""
                then ret (nome_original bookInfo)
                else match dec (nome_original bookInfo) with
                     | Some nome => ret nome
                     | None => throw
                     end) sc = (Ok nome, sc)).
  { destruct (String.eqb _ _); [by inversion Hdec|]. by rewrite Hdec. }
  rewrite E0. cbv zeta.
  unfold bind at 1, ui at 1, io at 1.
  rewrite (quiet_world _ Hf).
  assert (E1 : ∀ a b sto fls pd,
            copyAsync a b (mkWorld sto fls pd []) = (Ok tt, mkWorld sto fls ({[b]} ∪ pd) []))
    by done.
  rewrite E1. cbn [Cards.set_ingestion Cards.ingestion Library.set_world Library.world].
  unfold bind at 1, ui at 1, io at 1.
  cbn [Cards.set_ingestion Cards.ingestion Library.set_world Library.world].
  rewrite saveBook_quiet. cbn [Store.id_arquivo Cards.with_localUri Cards.with_nome_original].
  assert (E2 : existsb (has_id (id_arquivo bookInfo))
                 (default [] (storage (world (ingestion sc)))) = false).
  { apply not_true_is_false. intros H%existsb_has_id. apply Hid.
    unfold libraryOf. by rewrite default_storage. }
  rewrite E2. cbn [Cards.set_ingestion Cards.ingestion Library.set_world Library.world].
  unfold bind at 1, ui at 1, modify at 1.
  cbn [Cards.set_ingestion Cards.ingestion Library.set_world Library.world].
  unfold ui, fire. cbn [Cards.set_ingestion Cards.ingestion fst snd].
  reflexivity.
Qed.

(** X20.  A picked document starts its ingestion at page 1.  With no
    storage failure, when the upload is answered for an identifier that
    is not on the shelf, with a name that decodes and at least one page,
    no document of the library being in 'processing': the entry is added
    at the end of the stored library in 'processing' with localUri =
    documentDirectory + id_arquivo, the PDF copy and an empty page file
    exist, the uploading flag is cleared and the add button is disabled
    (the list shows a document in 'processing'); the effect that watches
    the list then sets the marker and posts the request for page 1. *)
Theorem picked_document_is_ingested
    (dd : string) (dec : string → option string)
    (fileUri nome : string) (bookInfo : Book) (sc : Screen) :
  faults (world (ingestion sc)) = [] →
  (if String.eqb (nome_original bookInfo) "" then Some (nome_original bookInfo)
   else dec (nome_original bookInfo)) = Some nome →
  id_arquivo bookInfo ∉ ids (libraryOf (world (ingestion sc))) →
  (∀ b, b ∈ libraryOf (world (ingestion sc)) → status b ≠ processing) →
  id_arquivo bookInfo ∉ processingControl (ingestion sc) →
  1 ≤ total_paginas bookInfo →
  let uri := (dd ++ id_arquivo bookInfo)%string in
  let novo := mkBook (id_arquivo bookInfo) nome (total_paginas bookInfo)
                     processing 0 0 false [] ∅ (Some uri) in
  let sc' := snd (handleDocumentPick_settled dd dec fileUri (Ok bookInfo) sc) in
  let st' := exec EvEffect (ingestion sc') in
  libraryOf (world (ingestion sc')) = libraryOf (world (ingestion sc)) ++ [novo]
  ∧ files (world (ingestion sc')) = <[id_arquivo bookInfo := []]> (files (world (ingestion sc)))
  ∧ pdfs (world (ingestion sc')) = {[uri]} ∪ pdfs (world (ingestion sc))
  ∧ isUploading sc' = false
  ∧ isButtonDisabled sc' = true
  ∧ requests st' = requests (ingestion sc) ++ [(id_arquivo bookInfo, 1)]
  ∧ tasks st' = tasks (ingestion sc) ++ [mkTask novo (AwaitFetch 1)]
  ∧ id_arquivo bookInfo ∈ processingControl st'.
Proof.
  intros Hf Hdec Hid Hnone Hc Htot uri novo sc' st'.
  subst sc' st'.
  rewrite (handleDocumentPick_settled_quiet dd dec fileUri bookInfo nome sc Hf Hdec Hid).
  cbv zeta. fold uri. change (newBook _) with novo. cbn [snd].
  set (w1 := mkWorld (Some (libraryOf (world (ingestion sc)) ++ [novo]))
               (<[id_arquivo bookInfo := []]> (files (world (ingestion sc))))
               ({[uri]} ∪ pdfs (world (ingestion sc))) []).
  set (s1 := setProgress _ (Library.set_world w1 (ingestion sc))).
  assert (Hf1 : faults (world s1) = []) by done.
  assert (Hidle : ∀ b, b ∈ libraryOf (world s1) → status b = processing →
                       count_pages (files (world s1) !! id_arquivo b) ≠ total_paginas b).
  { intros b Hb Hp. unfold s1, w1, libraryOf in Hb. simpl in Hb.
    apply elem_of_app in Hb as [Hb|Hb]; [by apply Hnone in Hb|].
    apply list_elem_of_singleton in Hb. subst b. simpl.
    rewrite lookup_insert_eq. unfold count_pages. simpl. lia. }
  destruct (loadBooksFromStorage_idle s1 Hf1 Hidle) as [ip' E]. rewrite E.
  cbn [snd ingestion set_ingestion setIsUploading isUploading].
  set (s2 := setProgress _ _).
  assert (Hlib2 : library s2 = libraryOf (world (ingestion sc)) ++ [novo]) by done.
  assert (Hw2 : world s2 = w1) by done.
  split; [by rewrite Hw2|]. split; [by rewrite Hw2|]. split; [by rewrite Hw2|].
  split; [done|].
  assert (Hfind : find is_processing (library s2) = Some novo).
  { rewrite Hlib2. by apply find_processing_last. }
  split.
  { unfold isButtonDisabled, isAnyBookProcessing. cbn [isUploading ingestion]. simpl orb.
    apply existsb_exists. exists novo. split; [|done].
    apply find_some in Hfind as [H _]. exact H. }
  assert (Hc2 : id_arquivo novo ∉ processingControl s2) by done.
  unfold exec. rewrite (pendingBookEffect_starts s2 _ Hfind Hc2). unfold run.
  rewrite processBookPages_resume by done.
  rewrite Hw2. cbn [files w1 id_arquivo novo]. rewrite lookup_insert_eq.
  change (count_pages (Some []) + 1) with 1.
  match goal with |- context [processPage ?b ?p ?s] =>
    pose proof (processPage_posts b p s) as P end.
  unfold run in P. rewrite P.
  - simpl. repeat split; try done. set_solver.
  - done.
  - unfold on_shelf. apply existsb_has_id. simpl.
    unfold w1, libraryOf, ids. simpl.
    rewrite map_app. apply elem_of_app. right. simpl. by left.
  - simpl. lia.
Qed.

Lemma picked_document_is_ingested_witness :
  faults (world (ingestion tela)) = []
  ∧ requests (exec EvEffect
               (ingestion (snd (handleDocumentPick_settled "file:///docs/" decode_plain
                            "file:///cache/novo.pdf" (Ok resposta) tela))))
    = [("novo"%string, 1)].
Proof.
  split; [reflexivity|].
  assert (H1 : id_arquivo resposta ∉ ids (libraryOf (world (ingestion tela)))).
  { intros H. apply list_elem_of_In in H. simpl in H.
    destruct H as [H|[H|[]]]; discriminate. }
  assert (H2 : ∀ b, b ∈ libraryOf (world (ingestion tela)) → status b ≠ processing).
  { intros b Hb. apply list_elem_of_In in Hb. simpl in Hb.
    destruct Hb as [<-|[<-|[]]]; discriminate. }
  assert (H3 : id_arquivo resposta ∉ processingControl (ingestion tela))
    by apply not_elem_of_empty.
  assert (H4 : 1 ≤ total_paginas resposta) by (simpl; lia).
  destruct (picked_document_is_ingested "file:///docs/" decode_plain
              "file:///cache/novo.pdf" "Meu%20Livro.pdf" resposta tela
              eq_refl eq_refl H1 H2 H3 H4) as (_ & _ & _ & _ & _ & H & _).
  exact H.
Defined.



End CardLaws.

(* ===================================================================== *)
(** * Laws of the player *)
(* ===================================================================== *)

Module StageLaws.
Import Store Props Shelf Player Reader Stage StoreFacts StoreLaws NotesFacts PlayerFacts.
#[local] Open Scope Z_scope.
#[local] Set Warnings "-clear-no-such-hyp".

(** ** The highlighted word *)

Lemma tokens_before_cons w rest o :
  tokens_before (w :: rest) o
  = if (length w + 1 <=? o)%nat
    then S (tokens_before rest (o - (length w + 1))) else 0%nat.
Proof. done. Qed.

Lemma tokens_before_bound ws : ∀ o,
  ws ≠ [] → (o ≤ length (join_sp ws))%nat → (tokens_before ws o < length ws)%nat.
Proof.
  induction ws as [|w ws IH]; intros o Hne Ho; [done|].
  destruct ws as [|w' rest].
  - simpl in *. replace (length w + 1 <=? o)%nat with false; [lia|].
    symmetry. apply Nat.leb_gt. lia.
  - rewrite join_sp_cons, length_app in Ho. cbn [length] in Ho.
    rewrite tokens_before_cons. destruct (length w + 1 <=? o)%nat eqn:E.
    + apply Nat.leb_le in E.
      assert ((tokens_before (w' :: rest) (o - (length w + 1))
               < length (w' :: rest))%nat).
      { apply IH; [done|lia]. }
      cbn [length] in *. lia.
    + cbn [length]. lia.
Qed.

Lemma tokens_before_mono ws : ∀ o o',
  (o ≤ o')%nat → (tokens_before ws o ≤ tokens_before ws o')%nat.
Proof.
  induction ws as [|w ws IH]; intros o o' Ho; [done|].
  rewrite !tokens_before_cons.
  destruct (length w + 1 <=? o)%nat eqn:E; [|lia].
  apply Nat.leb_le in E.
  replace (length w + 1 <=? o')%nat with true by (symmetry; apply Nat.leb_le; lia).
  apply le_n_S, IH. lia.
Qed.

Lemma join_sp_nil_inv ws : join_sp ws = [] → ws = [] ∨ ws = [[]].
Proof.
  destruct ws as [|w [|w' rest]]; simpl; [by left| |].
  - intros ->. by right.
  - intros H. apply app_eq_nil in H as [_ H]. done.
Qed.

(** What [onBoundary] sets after [startSpeech], for any reported offset. *)
Lemma boundary_index textToSpeak k p seg i :
  0 ≤ k →
  utterance (startSpeech textToSpeak k (speechStop p)) = Some seg →
  let words := slice_from k (split_ws (list_ascii_of_string textToSpeak)) in
  currentWordIndex (onBoundary (Some i) (startSpeech textToSpeak k (speechStop p)))
  = k + Z.of_nat (tokens_before words (Z.to_nat i `min` length seg))
  ∧ seg = join_sp words ∧ seg ≠ [].
Proof.
  intros Hk Hseg words.
  destruct (startSpeech_speaks _ _ _ _ Hk Hseg) as (Hjoin & Hstart & Hutt).
  fold words in Hjoin.
  assert (Hws : well_split words) by apply well_split_drop, split_from_shape.
  assert (Hne : seg ≠ []).
  { intros ->. revert Hseg. unfold startSpeech. destruct (is_blank _); [done|].
    replace (0 <=? k) with true by (symmetry; apply Z.leb_le; lia).
    fold words. rewrite <- Hjoin. done. }
  split; [|done].
  unfold onBoundary. rewrite Hutt. simpl. rewrite Hstart.
  unfold substring0, count_ws_runs. f_equal. f_equal.
  assert (T : take (Z.to_nat i) seg = take (Z.to_nat i `min` length seg) seg).
  { destruct (decide (Z.to_nat i ≤ length seg)%nat); [by rewrite Nat.min_l|].
    rewrite Nat.min_r by lia. by rewrite !take_ge by lia. }
  rewrite T. clear T. rewrite Hjoin.
  apply (count_over_join words false); [done|lia].
Qed.

Lemma boundary_in_range textToSpeak k p seg i :
  0 ≤ k →
  utterance (startSpeech textToSpeak k (speechStop p)) = Some seg →
  k ≤ currentWordIndex (onBoundary (Some i) (startSpeech textToSpeak k (speechStop p)))
    < Z.of_nat (length (split_ws (list_ascii_of_string textToSpeak))).
Proof.
  intros Hk Hseg.
  set (all := split_ws (list_ascii_of_string textToSpeak)).
  set (words := slice_from k all).
  destruct (boundary_index _ _ _ _ i Hk Hseg) as (-> & Hj & Hne).
  fold all in Hj |- *. fold words in Hj |- *.
  assert (Hwords : words ≠ []) by (intros E; rewrite E in Hj; done).
  assert (Hlen : (length words = length all - Z.to_nat k)%nat).
  { unfold words, slice_from. by rewrite length_drop. }
  assert ((tokens_before words (Z.to_nat i `min` length seg) < length words)%nat).
  { apply tokens_before_bound; [done|]. rewrite <- Hj. lia. }
  assert (length words ≠ 0%nat) by (by destruct words).
  lia.
Qed.

(** X22.  The word index stays within the text.  When speech was started
    from word index k >= 0 of a page text, whatever offset a boundary event
    reports (beyond the segment, or negative), the word index it sets is
    at least k and smaller than the number of words of the text; a later
    offset never gives a smaller index; and an event without offset
    changes nothing. *)
Theorem word_index_in_range (textToSpeak : string) (k : Z) (p : Player)
    (seg : list ascii) :
  0 ≤ k →
  utterance (startSpeech textToSpeak k (speechStop p)) = Some seg →
  let speaking := startSpeech textToSpeak k (speechStop p) in
  let n := Z.of_nat (length (split_ws (list_ascii_of_string textToSpeak))) in
  (∀ i, k ≤ currentWordIndex (onBoundary (Some i) speaking) < n)
  ∧ (∀ i j, i ≤ j →
       currentWordIndex (onBoundary (Some i) speaking)
       ≤ currentWordIndex (onBoundary (Some j) speaking))
  ∧ onBoundary None speaking = speaking.
Proof.
  intros Hk Hseg speaking n. subst speaking n.
  split; [|split].
  - intros i. by eapply boundary_in_range.
  - intros i j Hij.
    destruct (boundary_index _ _ _ _ i Hk Hseg) as (-> & _ & _).
    destruct (boundary_index _ _ _ _ j Hk Hseg) as (-> & _ & _).
    assert (H : ∀ ws, (tokens_before ws (Z.to_nat i `min` length seg)
                       ≤ tokens_before ws (Z.to_nat j `min` length seg))%nat).
    { intros ws. apply tokens_before_mono. lia. }
    specialize (H (slice_from k (split_ws (list_ascii_of_string textToSpeak)))).
    lia.
  - unfold onBoundary. by destruct (utterance _).
Qed.

Lemma word_index_in_range_witness :
  0 ≤ 2
  ∧ currentWordIndex
      (onBoundary (Some 1000) (startSpeech frase 2 (speechStop (leitor "")))) < 6.
Proof.
  split; [lia|].
  destruct (word_index_in_range frase 2 (leitor "")
              (list_ascii_of_string "rato roeu a roupa") ltac:(lia) eq_refl)
    as (H & _).
  apply (H 1000).
Defined.

Lemma spoken_text_not_empty textToSpeak k p seg :
  utterance (startSpeech textToSpeak k (speechStop p)) = Some seg →
  String.eqb textToSpeak "" = false.
Proof.
  destruct textToSpeak; [|done]. unfold startSpeech. simpl. done.
Qed.

(** X23.  On a page shown as text, the highlighted word is the word being
    spoken.  When speech was started from word index k >= 0, after any
    boundary event HighlightedText highlights exactly one word, the one
    at the word index; and after the boundary event at the start of the
    j-th word of the spoken segment that word is the j-th word handed to
    the engine. *)
Theorem highlight_follows_speech (textToSpeak : string) (k : Z) (p : Player)
    (seg : list ascii) :
  0 ≤ k →
  utterance (startSpeech textToSpeak k (speechStop p)) = Some seg →
  let speaking := startSpeech textToSpeak k (speechStop p) in
  let spoken := slice_from k (split_ws (list_ascii_of_string textToSpeak)) in
  (∀ i, let idx := currentWordIndex (onBoundary (Some i) speaking) in
        ∃ word,
          HighlightedText textToSpeak idx !! Z.to_nat idx = Some (word, true)
          ∧ ∀ j x, HighlightedText textToSpeak idx !! j = Some x →
                   snd x = true → j = Z.to_nat idx)
  ∧ (∀ j word, spoken !! j = Some word →
       let idx := currentWordIndex
                    (onBoundary (Some (Z.of_nat (word_start spoken j))) speaking) in
       HighlightedText textToSpeak idx !! Z.to_nat idx = Some (word, true)).
Proof.
  intros Hk Hseg speaking spoken.
  pose proof (spoken_text_not_empty _ _ _ _ Hseg) as Hne.
  assert (HL : ∀ idx j,
            HighlightedText textToSpeak idx !! j
            = (fun word => (word, bool_decide (Z.of_nat j = idx)))
                <$> split_ws (list_ascii_of_string textToSpeak) !! j).
  { intros idx j. unfold HighlightedText. rewrite Hne. cbv zeta.
    by rewrite list_lookup_imap. }
  split.
  - intros i idx.
    pose proof (boundary_in_range textToSpeak k p seg i Hk Hseg) as Hrange.
    fold speaking in Hrange. fold idx in Hrange.
    destruct (lookup_lt_is_Some_2 (split_ws (list_ascii_of_string textToSpeak))
                (Z.to_nat idx)) as [word Hw]; [lia|].
    exists word. split.
    + rewrite HL, Hw. simpl. rewrite bool_decide_eq_true_2 by lia. done.
    + intros j x Hx Hsnd. rewrite HL in Hx.
      destruct (split_ws _ !! j) as [w|]; [|done]. simpl in Hx. inversion Hx; subst x.
      simpl in Hsnd. apply bool_decide_eq_true in Hsnd. lia.
  - intros j word Hj idx.
    assert (Hjlt : (j < length spoken)%nat) by (by eapply lookup_lt_Some).
    destruct (boundary_index textToSpeak k p seg (Z.of_nat (word_start spoken j)) Hk Hseg)
      as (Hidx & Hjoin & _).
    fold spoken in Hidx, Hjoin. fold speaking in Hidx. fold idx in Hidx.
    rewrite Nat2Z.id in Hidx.
    rewrite Nat.min_l in Hidx by (rewrite Hjoin; by apply word_start_bound).
    rewrite tokens_before_word_start in Hidx by done.
    rewrite HL. unfold spoken, slice_from in Hj. rewrite lookup_drop in Hj.
    replace (Z.to_nat idx) with (Z.to_nat k + j)%nat by lia.
    rewrite Hj. simpl. rewrite bool_decide_eq_true_2 by lia. done.
Qed.

Lemma highlight_follows_speech_witness :
  0 ≤ 2
  ∧ HighlightedText frase 3 !! 3%nat = Some (list_ascii_of_string "roeu", true).
Proof.
  split; [lia|].
  destruct (highlight_follows_speech frase 2 (leitor "")
              (list_ascii_of_string "rato roeu a roupa") ltac:(lia) eq_refl)
    as (_ & H).
  exact (H 1%nat (list_ascii_of_string "roeu") eq_refl).
Defined.

(** ** Play, pause, rate *)

Lemma startSpeech_from text k p :
  0 ≤ k →
  let seg := join_sp (slice_from k (split_ws (list_ascii_of_string text))) in
  is_blank (list_ascii_of_string text) = false → seg ≠ [] →
  startSpeech text k p = set_utterance (Some seg) (set_speechStartIndex k p).
Proof.
  intros Hk seg Hb Hseg. unfold startSpeech. rewrite Hb.
  replace (0 <=? k) with true by (symmetry; apply Z.leb_le; lia).
  fold seg. by destruct seg.
Qed.

Lemma startSpeech_silent text k p :
  0 ≤ k →
  is_blank (list_ascii_of_string text) = true
  ∨ join_sp (slice_from k (split_ws (list_ascii_of_string text))) = [] →
  isPlaying (startSpeech text k p) = false
  ∧ utterance (startSpeech text k p) = utterance p
  ∧ intervalRunning (startSpeech text k p) = intervalRunning p.
Proof.
  intros Hk H. unfold startSpeech.
  destruct (is_blank _) eqn:Hb; [done|]. destruct H as [H|H]; [done|].
  replace (0 <=? k) with true by (symmetry; apply Z.leb_le; lia).
  rewrite H. done.
Qed.

Lemma resumeIndex_nonneg p : 0 ≤ resumeIndex p.
Proof. unfold resumeIndex. destruct (0 <=? _) eqn:E; [by apply Z.leb_le|lia]. Qed.

(** X24.  Play, pause and a change of rate keep the place.  Pause stops the
    engine and the listening timer and leaves the page and the word index
    as they are.  Play on a page whose text has a word at the word index
    (index 0 when none is set) starts the engine on the words from that
    index on, joined by single spaces, and starts the timer; so does a
    change of rate while playing, which leaves the timer alone; a change of
    rate while paused does nothing.  Hence pause followed by play speaks
    again from the word that was highlighted. *)
Theorem playback_keeps_the_place (text : string) (p : Player) :
  let seg := join_sp (slice_from (resumeIndex p)
                        (split_ws (list_ascii_of_string text))) in
  is_blank (list_ascii_of_string text) = false → seg ≠ [] →
  (isPlaying p = true →
     handlePlayPause (Some text) p = stopTimer (set_isPlaying false (speechStop p))
     ∧ handlePlayPause (Some text) (handlePlayPause (Some text) p)
       = startTimer (set_utterance (Some seg)
                       (set_speechStartIndex (resumeIndex p) (set_isPlaying true p)))
     ∧ handleChangeRate (Some text) p
       = set_utterance (Some seg) (set_speechStartIndex (resumeIndex p) p))
  ∧ (isPlaying p = false →
     handlePlayPause (Some text) p
     = startTimer (set_utterance (Some seg)
                     (set_speechStartIndex (resumeIndex p) (set_isPlaying true p)))
     ∧ handleChangeRate (Some text) p = p).
Proof.
  intros seg Hb Hseg.
  assert (Hne : String.eqb text "" = false) by (by destruct text).
  pose proof (resumeIndex_nonneg p) as Hk.
  split; intros Hplay.
  - assert (E1 : handlePlayPause (Some text) p
                 = stopTimer (set_isPlaying false (speechStop p))).
    { unfold handlePlayPause. by rewrite Hplay. }
    split; [done|]. split.
    + rewrite E1. unfold handlePlayPause. simpl isPlaying. cbv iota. rewrite Hne.
      cbv zeta.
      change (if 0 <=? currentWordIndex _ then currentWordIndex _ else 0)
        with (resumeIndex p).
      rewrite startSpeech_from by done. fold seg.
      destruct p. unfold startTimer, stopTimer, speechStop. simpl in *.
      subst. reflexivity.
    + unfold handleChangeRate. rewrite Hplay, Hne.
      change (if 0 <=? currentWordIndex p then currentWordIndex p else 0)
        with (resumeIndex p).
      rewrite startSpeech_from by done. fold seg. by destruct p.
  - split.
    + unfold handlePlayPause. rewrite Hplay, Hne. cbv zeta.
      change (if 0 <=? currentWordIndex _ then currentWordIndex _ else 0)
        with (resumeIndex p).
      by rewrite startSpeech_from.
    + unfold handleChangeRate. by rewrite Hplay.
Qed.

Lemma playback_keeps_the_place_witness :
  let p := set_currentWordIndex 3 (leitor "") in
  is_blank (list_ascii_of_string frase) = false
  ∧ isPlaying p = false
  ∧ utterance (handlePlayPause (Some frase) p)
    = Some (list_ascii_of_string "roeu a roupa").
Proof.
  intros p. split; [reflexivity|]. split; [reflexivity|].
  destruct (playback_keeps_the_place frase p) as [_ H]; [reflexivity|discriminate|].
  destruct (H eq_refl) as [-> _]. reflexivity.
Defined.

(** X25.  Play on a page with nothing to speak leaves the listening timer
    running.  When the page text is not empty but is blank, or has no word
    at the word index, handlePlayPause on a paused player ends with
    isPlaying false and no utterance started, yet with the interval that
    counts the listening time running. *)
Theorem play_without_words_runs_the_timer (text : string) (p : Player) :
  isPlaying p = false → text ≠ ""%string →
  is_blank (list_ascii_of_string text) = true
  ∨ join_sp (slice_from (resumeIndex p) (split_ws (list_ascii_of_string text))) = [] →
  let p' := handlePlayPause (Some text) p in
  isPlaying p' = false
  ∧ utterance p' = utterance p
  ∧ intervalRunning p' = true.
Proof.
  intros Hplay Htext Hnone p'. subst p'.
  assert (Hne : String.eqb text "" = false) by (by apply String.eqb_neq).
  unfold handlePlayPause. rewrite Hplay, Hne. cbv zeta.
  change (if 0 <=? currentWordIndex _ then currentWordIndex _ else 0)
    with (resumeIndex p).
  destruct (startSpeech_silent text (resumeIndex p) (set_isPlaying true p)
              (resumeIndex_nonneg p) Hnone) as (H1 & H2 & H3).
  unfold startTimer. simpl. split; [exact H1|]. split; [exact H2|done].
Qed.

Lemma play_without_words_runs_the_timer_witness :
  isPlaying (leitor "") = false
  ∧ isPlaying (handlePlayPause (Some "   ") (leitor "")) = false
  ∧ intervalRunning (handlePlayPause (Some "   ") (leitor "")) = true.
Proof.
  split; [reflexivity|].
  destruct (play_without_words_runs_the_timer "   " (leitor "") eq_refl)
    as (H1 & _ & H3); [discriminate|by left|].
  split; [exact H1|exact H3].
Defined.

(** ** Bookmarks *)

Lemma find_touches bookId g lib b :
  (∀ b, id_arquivo (g b) = id_arquivo b) →
  find (has_id bookId) lib = Some b →
  find (has_id bookId) (map (touches bookId g) lib) = Some (g b).
Proof.
  intros Hg. induction lib as [|b0 lib IH]; intros H; [done|].
  simpl in *. destruct (has_id bookId b0) eqn:E.
  - inversion H; subst. unfold touches at 1. rewrite E.
    unfold has_id in *. apply bool_decide_eq_true in E.
    rewrite Hg. rewrite bool_decide_eq_true_2 by done.
    unfold touches. unfold has_id. by rewrite bool_decide_eq_true_2.
  - unfold touches at 1. rewrite E. rewrite E. by apply IH.
Qed.

Lemma loadUpdatedBookData_quiet p b :
  faults (world p) = [] →
  find (has_id (id_arquivo (bookInfo p))) (libraryOf (world p)) = Some b →
  loadUpdatedBookData p
  = set_annotations (Store.annotations b) (set_bookmarks (Store.bookmarks b) p).
Proof.
  intros Hf Hb. unfold loadUpdatedBookData.
  destruct (world p) as [sto fls pd fs] eqn:Ew. simpl in Hf. subst fs.
  rewrite loadLibrary_run. simpl.
  unfold libraryOf in Hb. simpl in Hb. rewrite Hb.
  rewrite <- Ew. by destruct p.
Qed.

Lemma insert_into_filtered x l :
  ascending l → x ∈ l →
  insert_sorted x (List.filter (fun q => negb (q =? x)) l) = l.
Proof.
  induction l as [|y l IH]; intros Hl Hx; [by apply elem_of_nil in Hx|].
  destruct Hl as [Hy Hl]. simpl.
  destruct (decide (y = x)) as [->|Hne].
  - rewrite Z.eqb_refl. simpl.
    assert (Hnot : x ∉ l).
    { intros Hin. rewrite Forall_forall in Hy. specialize (Hy x Hin). lia. }
    rewrite filter_out_absent by done.
    destruct l as [|z l]; [done|]. simpl.
    apply Forall_inv in Hy. replace (x <? z) with true; [done|].
    symmetry. by apply Z.ltb_lt.
  - replace (y =? x) with false by (symmetry; by apply Z.eqb_neq).
    simpl. apply elem_of_cons in Hx as [Hx|Hx]; [congruence|].
    rewrite Forall_forall in Hy. specialize (Hy x Hx).
    replace (x <? y) with false by (symmetry; apply Z.ltb_ge; lia).
    by rewrite IH.
Qed.

(** One toggle, in step with the library. *)
Lemma toggle_step page p b :
  faults (world p) = [] →
  find (has_id (id_arquivo (bookInfo p))) (libraryOf (world p)) = Some b →
  bookmarks p = Store.bookmarks b →
  let bm := if includes page (bookmarks p)
            then List.filter (fun q => negb (q =? page)) (bookmarks p)
            else sort_asc (bookmarks p ++ [page]) in
  let p' := toggleBookmark page p in
  bookmarks p' = bm ∧ faults (world p') = [] ∧ bookInfo p' = bookInfo p
  ∧ annotations p' = Store.annotations b
  ∧ ∃ b', find (has_id (id_arquivo (bookInfo p))) (libraryOf (world p')) = Some b'
          ∧ Store.bookmarks b' = bm ∧ Store.annotations b' = Store.annotations b.
Proof.
  intros Hf Hb Hsync bm p'. subst p'. unfold toggleBookmark.
  set (id := id_arquivo (bookInfo p)) in *.
  set (c := if includes page (bookmarks p)
            then removeBookmark id page else addBookmark id page).
  assert (E : ∃ g, (∀ b, id_arquivo (g b) = id_arquivo b)
                   ∧ snd (c (world p))
                     = set_storage (Some (map (touches id g) (libraryOf (world p))))
                                   (world p)
                   ∧ Store.bookmarks (g b) = bm
                   ∧ Store.annotations (g b) = Store.annotations b).
  { subst c bm. destruct (includes page (bookmarks p)) eqn:Hin.
    - exists (fun book => Store.set_bookmarks
                (List.filter (fun q => negb (q =? page)) (Store.bookmarks book)) book).
      split; [done|]. split.
      + change (removeBookmark id page) with (mutate (MRemoveBookmark page) id).
        by rewrite mutate_change, (mapLibrary_quiet _ _ Hf).
      + simpl. by rewrite Hsync.
    - exists (fun book => if negb (includes page (Store.bookmarks book))
                then Store.set_bookmarks (sort_asc (Store.bookmarks book ++ [page])) book
                else book).
      split; [intros b0; by destruct (negb _)|]. split.
      + change (addBookmark id page) with (mutate (MAddBookmark page) id).
        by rewrite mutate_change, (mapLibrary_quiet _ _ Hf).
      + rewrite <- Hsync, Hin. simpl. by rewrite Hsync. }
  destruct E as (g & Hg & -> & Hbm & Han).
  assert (Hfind : find (has_id id)
            (libraryOf (set_storage (Some (map (touches id g) (libraryOf (world p))))
                                    (world p))) = Some (g b)).
  { unfold libraryOf at 1. simpl. by apply find_touches. }
  erewrite loadUpdatedBookData_quiet; [|done|exact Hfind].
  simpl. repeat split; try done. exists (g b). done.
Qed.

(** X26.  The bookmark button toggles.  With no storage failure, for a
    player whose bookmarks are those of the stored entry of the open
    document and strictly increasing: after toggleBookmark the bookmarks
    shown are again those stored and strictly increasing, the page is
    bookmarked exactly when it was not, every other page is as before, and
    a second press brings back the bookmarks there were. *)
Theorem toggleBookmark_toggles (page : Z) (p : Player) :
  faults (world p) = [] → in_step p → ascending (bookmarks p) →
  let p' := toggleBookmark page p in
  in_step p' ∧ ascending (bookmarks p')
  ∧ (page ∈ bookmarks p' ↔ page ∉ bookmarks p)
  ∧ (∀ q, q ≠ page → q ∈ bookmarks p' ↔ q ∈ bookmarks p)
  ∧ bookmarks (toggleBookmark page p') = bookmarks p
  ∧ annotations p' = annotations p.
Proof.
  intros Hf (b & Hb & Hsync & Hnotes) Hasc p'.
  destruct (toggle_step page p b Hf Hb Hsync)
    as (Hbm & Hf' & Hinfo & Han & b' & Hb' & Hsync' & Han').
  fold p' in Hbm, Hf', Hinfo, Han, Hb'.
  assert (Hcase : (includes page (bookmarks p) = true ∧ page ∈ bookmarks p
                   ∧ bookmarks p' = List.filter (fun q => negb (q =? page)) (bookmarks p))
                  ∨ (includes page (bookmarks p) = false ∧ (page ∉ bookmarks p)
                     ∧ bookmarks p' = insert_sorted page (bookmarks p))).
  { destruct (includes page (bookmarks p)) eqn:Hin.
    - left. split; [done|]. split; [by apply includes_elem|done].
    - right. split; [done|]. split.
      + intros H%includes_elem. congruence.
      + rewrite Hbm. by rewrite sort_asc_snoc, sort_asc_ascending. }
  assert (Hstep' : in_step p').
  { exists b'. rewrite Hinfo. split; [done|]. split; [congruence|congruence]. }
  split; [done|].
  assert (Hasc' : ascending (bookmarks p')).
  { destruct Hcase as [(_ & _ & ->)|(_ & Hn & ->)];
      [by apply filter_out_ascending|by apply insert_sorted_ascending]. }
  split; [done|]. split; [|split; [|split]].
  - destruct Hcase as [(_ & Hin & ->)|(_ & Hn & ->)].
    + rewrite filter_out_elem. tauto.
    + rewrite insert_sorted_elem. tauto.
  - intros q Hq. destruct Hcase as [(_ & Hin & ->)|(_ & Hn & ->)].
    + rewrite filter_out_elem. tauto.
    + rewrite insert_sorted_elem. tauto.
  - assert (Hb2 : find (has_id (id_arquivo (bookInfo p'))) (libraryOf (world p'))
                  = Some b') by (by rewrite Hinfo).
    assert (Hsync2 : bookmarks p' = Store.bookmarks b') by congruence.
    destruct (toggle_step page p' b' Hf' Hb2 Hsync2) as (-> & _).
    destruct Hcase as [(_ & Hin & E)|(_ & Hn & E)]; rewrite E.
    + replace (includes page (List.filter (fun q => negb (q =? page)) (bookmarks p)))
        with false.
      * rewrite sort_asc_snoc, sort_asc_ascending by by apply filter_out_ascending.
        by apply insert_into_filtered.
      * symmetry. apply not_true_is_false. intros H%includes_elem.
        apply filter_out_elem in H. tauto.
    + replace (includes page (insert_sorted page (bookmarks p))) with true.
      * by apply filter_out_inserted.
      * symmetry. apply includes_elem, insert_sorted_elem. by left.
  - congruence.
Qed.

Lemma toggleBookmark_toggles_witness :
  faults (world ouvinte) = []
  ∧ bookmarks (toggleBookmark 0 ouvinte) = [0; 1]
  ∧ bookmarks (toggleBookmark 0 (toggleBookmark 0 ouvinte)) = [1].
Proof.
  split; [reflexivity|].
  assert (H1 : in_step ouvinte) by (exists outro; repeat split).
  assert (H2 : ascending (bookmarks ouvinte)) by (simpl; auto).
  destruct (toggleBookmark_toggles 0 ouvinte eq_refl H1 H2) as (_ & _ & _ & _ & H & _).
  split; [reflexivity|exact H].
Defined.

(** ** The note icon *)

Lemma loadUpdatedBookData_annotations p :
  annotations (loadUpdatedBookData p) = annotations p
  ∨ ∃ b, b ∈ libraryOf (world p)
         ∧ annotations (loadUpdatedBookData p) = Store.annotations b.
Proof.
  unfold loadUpdatedBookData. destruct (world p) as [sto fls pd fs] eqn:Ew.
  rewrite loadLibrary_run. simpl.
  destruct (find _ _) as [b|] eqn:E; [|by left].
  right. exists b. split; [|done].
  apply find_some in E as [E _]. apply list_elem_of_In in E.
  destruct (hd false fs); [by apply elem_of_nil in E|].
  unfold libraryOf. simpl. done.
Qed.

Lemma notes_stay_sparse p :
  no_blank_annotations (libraryOf (world p)) →
  let c := if negb (is_blank (list_ascii_of_string (currentAnnotation p)))
           then saveAnnotation (id_arquivo (bookInfo p)) (currentPageIndex p)
                               (currentAnnotation p)
           else removeAnnotation (id_arquivo (bookInfo p)) (currentPageIndex p) in
  no_blank_annotations (libraryOf (snd (c (world p)))).
Proof.
  intros Hinv c. subst c.
  set (id := id_arquivo (bookInfo p)). set (q := currentPageIndex p).
  destruct (is_blank (list_ascii_of_string (currentAnnotation p))) eqn:Hblank; simpl.
  - change (removeAnnotation id q) with (mutate (MRemoveAnnotation q) id).
    rewrite mutate_change.
    match goal with |- context [mapLibrary ?f _] =>
      destruct (mapLibrary_library f (world p)) as [E|[E|E]]; cbv zeta in E; rewrite E end.
    + done.
    + intros b q' t Hb. by apply elem_of_nil in Hb.
    + intros b' q' t (b & -> & Hb)%list_elem_of_fmap Hq.
      unfold touches in Hq. destruct (has_id id b); [|by eapply Hinv].
      simpl in Hq. apply lookup_delete_Some in Hq as [_ Hq]. by eapply Hinv.
  - change (saveAnnotation id q (currentAnnotation p))
      with (mutate (MSaveAnnotation q (currentAnnotation p)) id).
    rewrite mutate_change.
    match goal with |- context [mapLibrary ?f _] =>
      destruct (mapLibrary_library f (world p)) as [E|[E|E]]; cbv zeta in E; rewrite E end.
    + done.
    + intros b q' t Hb. by apply elem_of_nil in Hb.
    + intros b' q' t (b & -> & Hb)%list_elem_of_fmap Hq.
      unfold touches in Hq. destruct (has_id id b); [|by eapply Hinv].
      simpl in Hq.
      apply lookup_insert_Some in Hq as [[_ <-]|[_ Hq]]; [done|by eapply Hinv].
Qed.

(** X27.  The note icon is always the filled one.  hasAnnotation is false
    only for a page whose stored note is blank, and the save button never
    stores a blank note: whatever the storage does, if no note shown and no
    stored note is blank, then after handleSaveAnnotation hasAnnotation is
    true on every page, on pages without a note and on the page whose note
    was just deleted as well. *)
Theorem note_icon_is_always_filled (p : Player) :
  notes_not_blank (annotations p) →
  no_blank_annotations (libraryOf (world p)) →
  (∀ q, hasAnnotation (set_currentPageIndex q p) = true)
  ∧ (∀ q, hasAnnotation (set_currentPageIndex q (handleSaveAnnotation p)) = true)
  ∧ (∀ q, hasAnnotation q = false ↔
          ∃ t, annotations q !! currentPageIndex q = Some t
               ∧ is_blank (list_ascii_of_string t) = true).
Proof.
  intros Hshown Hstored.
  assert (Hicon : ∀ p0 q, notes_not_blank (annotations p0) →
                          hasAnnotation (set_currentPageIndex q p0) = true).
  { intros p0 q H0. unfold hasAnnotation. simpl.
    destruct (annotations p0 !! q) as [t|] eqn:E; [|done]. by rewrite (H0 q t E). }
  split; [intros q; by apply Hicon|]. split.
  - intros q. apply Hicon. unfold handleSaveAnnotation. cbv zeta. simpl annotations.
    match goal with |- context [loadUpdatedBookData ?p1] =>
      destruct (loadUpdatedBookData_annotations p1) as [->|(b & Hb & ->)] end.
    + done.
    + simpl in Hb. intros q' t Hq.
      pose proof (notes_stay_sparse p Hstored) as Hinv. cbv zeta in Hinv.
      by eapply Hinv.
  - intros q. unfold hasAnnotation.
    destruct (annotations q !! currentPageIndex q) as [t|]; split.
    + intros H. exists t. split; [done|]. by apply negb_false_iff.
    + intros (t' & [= <-] & H). by rewrite H.
    + done.
    + by intros (t' & H & _).
Qed.

Lemma note_icon_is_always_filled_witness :
  notes_not_blank (annotations (leitor "  "))
  ∧ hasAnnotation (handleSaveAnnotation (leitor "  ")) = true.
Proof.
  assert (H1 : notes_not_blank (annotations (leitor "  "))).
  { intros q t H. simpl in H. by rewrite lookup_empty in H. }
  assert (H2 : no_blank_annotations (libraryOf (world (leitor "  ")))).
  { intros b q t Hb. apply list_elem_of_In in Hb. simpl in Hb.
    destruct Hb as [<-|[<-|[]]]; simpl.
    - by rewrite lookup_empty.
    - intros H. apply lookup_singleton_Some in H as [_ <-]. reflexivity. }
  split; [exact H1|].
  destruct (note_icon_is_always_filled (leitor "  ") H1 H2) as (_ & H & _).
  exact (H (currentPageIndex (handleSaveAnnotation (leitor "  ")))).
Defined.

(** ** Listening time *)

Lemma ticks_running n : ∀ s,
  intervalRunning (player s) = true →
  ticks n s = mkSession (player s) (timeListened s + Z.of_nat n).
Proof.
  induction n as [|n IH]; intros s Hr.
  - simpl. destruct s. simpl. f_equal. lia.
  - cbn [ticks]. unfold tick at 1. rewrite Hr. rewrite IH by done. simpl.
    f_equal. lia.
Qed.

Lemma ticks_stopped n : ∀ s, intervalRunning (player s) = false → ticks n s = s.
Proof.
  induction n as [|n IH]; intros s Hr; [done|].
  cbn [ticks]. unfold tick. rewrite Hr. by apply IH.
Qed.

(** X28.  The listening time is stored once.  With no storage failure,
    when the interval has ticked n times since the counter held t0 and
    the cleanup of the focus effect then runs for a page index, the entry
    of the open document gets that index as lastPosition, its listening
    time grows by t0 + n seconds, and it is completed if it was or if the
    index is the last page; the engine and the interval are stopped and
    the counter is back to zero, so that later ticks count nothing and a
    second cleanup stores a position but adds no time. *)
Theorem listening_time_is_stored_once
    (n : nat) (page page' : Z) (i : nat) (b : Book) (s : Session) :
  faults (world (player s)) = [] →
  libraryOf (world (player s)) !! i = Some b →
  id_arquivo b = id_arquivo (bookInfo (player s)) →
  intervalRunning (player s) = true →
  let s1 := cleanup page (ticks n s) in
  let s2 := cleanup page' (ticks n s1) in
  let total := listeningTime b + (timeListened s + Z.of_nat n) in
  libraryOf (world (player s1)) !! i
  = Some (set_reading page total
            (completed b || (total_paginas b - 1 <=? page)) b)
  ∧ timeListened s1 = 0
  ∧ intervalRunning (player s1) = false ∧ utterance (player s1) = None
  ∧ ticks n s1 = s1
  ∧ libraryOf (world (player s2)) !! i
    = Some (set_reading page' total
              (completed b || (total_paginas b - 1 <=? page)
               || (total_paginas b - 1 <=? page')) b).
Proof.
  intros Hf Hi Hid Hrun s1 s2 total.
  assert (E1 : s1 = cleanup page (mkSession (player s) (timeListened s + Z.of_nat n))).
  { subst s1. by rewrite ticks_running. }
  assert (Hstep : ∀ pg t (p : Player) b0,
    faults (world p) = [] → libraryOf (world p) !! i = Some b0 →
    id_arquivo b0 = id_arquivo (bookInfo p) →
    let s' := cleanup pg (mkSession p t) in
    libraryOf (world (player s')) !! i
    = Some (set_reading pg (listeningTime b0 + t)
              (completed b0 || (total_paginas b0 - 1 <=? pg)) b0)
    ∧ timeListened s' = 0 ∧ intervalRunning (player s') = false
    ∧ utterance (player s') = None ∧ faults (world (player s')) = []
    ∧ bookInfo (player s') = bookInfo p).
  { intros pg t p b0 Hf0 Hi0 Hid0 s'. subst s'. unfold cleanup. cbv zeta. simpl.
    rewrite updateBookState_quiet by done. simpl.
    unfold libraryOf at 1. simpl. rewrite list_lookup_fmap, Hi0. simpl.
    unfold touches, has_id. rewrite bool_decide_eq_true_2 by done. done. }
  destruct (Hstep page (timeListened s + Z.of_nat n) (player s) b Hf Hi Hid)
    as (G1 & G2 & G3 & G4 & G5 & G6).
  rewrite <- E1 in G1, G2, G3, G4, G5, G6.
  split; [done|]. split; [done|]. split; [done|]. split; [done|].
  assert (Hidle : ticks n s1 = s1) by (by apply ticks_stopped).
  split; [done|].
  subst s2. rewrite Hidle.
  assert (Es1 : s1 = mkSession (player s1) 0) by (destruct s1; simpl in *; by subst).
  rewrite Es1.
  match type of G1 with _ = Some ?b1 =>
    destruct (Hstep page' 0 (player s1) b1 G5 G1) as (K1 & _) end.
  { rewrite G6. exact Hid. }
  rewrite K1. unfold set_reading. simpl. f_equal. f_equal. subst total. lia.
Qed.

Lemma listening_time_is_stored_once_witness :
  let s := mkSession (startTimer ouvinte) 0 in
  faults (world (player s)) = []
  ∧ libraryOf (world (player (cleanup 1 (ticks 12 s)))) !! 1%nat
    = Some (set_reading 1 42 true outro).
Proof.
  intros s. split; [reflexivity|].
  destruct (listening_time_is_stored_once 12 1 1 1 outro s eq_refl eq_refl eq_refl eq_refl)
    as (H & _).
  exact H.
Defined.

(** ** Reading on *)

Lemma advanceBy_no_timer fuel t p :
  pendingNav p = None → unlockTimers p = [] →
  advanceBy fuel t p = set_now (Z.max (now p) t) p.
Proof.
  intros Hn Hu. destruct fuel; simpl; [done|].
  unfold nextDue. by rewrite Hn, Hu.
Qed.

Lemma advanceBy_unlock fuel t p d :
  pendingNav p = None → unlockTimers p = [d] → d ≤ t →
  advanceBy (S fuel) t p
  = advanceBy fuel t (fireUnlock (set_now (Z.max (now p) d) p)).
Proof.
  intros Hn Hu Hd. cbn [advanceBy]. unfold nextDue. rewrite Hn, Hu.
  by replace (d <=? t) with true by (symmetry; by apply Z.leb_le).
Qed.

Lemma advance_at_rest t p :
  at_rest p → now p + MIN_PAGE_CHANGE_INTERVAL ≤ t →
  advance t p = set_now t (set_navLock false (set_unlockTimers [] p)).
Proof.
  intros (Hl & Hn & Hnow & Hcase) Ht. unfold MIN_PAGE_CHANGE_INTERVAL in *.
  destruct Hcase as [[Hk Hu]|Hu].
  - unfold advance. rewrite advanceBy_no_timer by done.
    replace (Z.max (now p) t) with t by lia.
    destruct p. simpl in *. by subst.
  - unfold advance. rewrite Hu.
    change (length [lastPageChangeAt p + 900]%Z + 3)%nat with 4%nat.
    rewrite (advanceBy_unlock _ _ _ _ Hn Hu) by lia.
    rewrite advanceBy_no_timer.
    + unfold fireUnlock. simpl. rewrite Hu. simpl.
      replace (Z.max (Z.max (now p) (lastPageChangeAt p + 900)) t) with t by lia.
      destruct p. simpl in *. by subst.
    + unfold fireUnlock. simpl. done.
    + unfold fireUnlock. simpl. by rewrite Hu.
Qed.







(** ** The page buttons *)

(** A request made with the lock free, no page loading and the interval
    elapsed goes straight to [safeGoTo]. *)
Lemma throttledGoTo_at_once r p :
  isPageLoading p = false → navLock p = false →
  lastPageChangeAt p + MIN_PAGE_CHANGE_INTERVAL ≤ now p →
  throttledGoTo r p = safeGoTo r (set_lastPageChangeAt (now p) p).
Proof.
  intros Hl Hk Ht. unfold throttledGoTo. rewrite Hl, Hk.
  replace (MIN_PAGE_CHANGE_INTERVAL <=? now p - lastPageChangeAt p) with true
    by (symmetry; apply Z.leb_le; lia).
  reflexivity.
Qed.

(** X30.  The page buttons pause and stay in the document.  For a player
    at rest on a page of the document, at least 900 ms after the last
    change: 'next' before the last page and 'previous' after the first
    turn exactly one page, stop the engine, the playback and the
    listening interval, clear the word index and take the lock; 'next' on
    the last page and 'previous' on the first do nothing; and neither does
    anything while a page is loading.  The page index stays within the
    document. *)
Theorem page_buttons_pause_and_stay_in_range (t : Z) (p : Player) :
  at_rest p → now p + MIN_PAGE_CHANGE_INTERVAL ≤ t →
  0 ≤ currentPageIndex p < total_paginas (bookInfo p) →
  let q := advance t p in
  let last := total_paginas (bookInfo p) - 1 in
  let turned (d : Z) (q' : Player) :=
    currentPageIndex q' = currentPageIndex p + d
    ∧ isPlaying q' = false ∧ intervalRunning q' = false ∧ utterance q' = None
    ∧ currentWordIndex q' = -1 ∧ isPageLoading q' = true ∧ navLock q' = true
    ∧ unlockTimers q' = [t + MIN_PAGE_CHANGE_INTERVAL] in
  (if currentPageIndex p <? last then turned 1 (handleNext q) else handleNext q = q)
  ∧ (if 0 <? currentPageIndex p then turned (-1) (handlePrevious q)
     else handlePrevious q = q)
  ∧ handleNext (set_isPageLoading true q) = set_isPageLoading true q
  ∧ handlePrevious (set_isPageLoading true q) = set_isPageLoading true q
  ∧ 0 ≤ currentPageIndex (handleNext q) < total_paginas (bookInfo p)
  ∧ 0 ≤ currentPageIndex (handlePrevious q) < total_paginas (bookInfo p).
Proof.
  intros Hrest Ht Hpage q last turned. subst q.
  rewrite advance_at_rest by done.
  destruct Hrest as (Hl & Hn & Hnow & Hcase).
  set (q := set_now t (set_navLock false (set_unlockTimers [] p))).
  assert (Hq : isPageLoading q = false ∧ navLock q = false ∧ now q = t
               ∧ lastPageChangeAt q = lastPageChangeAt p
               ∧ currentPageIndex q = currentPageIndex p
               ∧ bookInfo q = bookInfo p ∧ unlockTimers q = []).
  { subst q. destruct p. simpl in *. done. }
  destruct Hq as (Hql & Hqk & Hqn & Hqc & Hqp & Hqb & Hqu).
  assert (Hgo : ∀ d, throttledGoTo (mkNav d false false) q
                     = safeGoTo (mkNav d false false) (set_lastPageChangeAt t q)).
  { intros d. rewrite throttledGoTo_at_once; [by rewrite Hqn|done|done|lia]. }
  assert (Hturn : ∀ d, turned d (safeGoTo (mkNav d false false)
                                   (set_lastPageChangeAt t q))).
  { intros d. subst turned. clearbody q. destruct q. simpl in *. subst.
    unfold safeGoTo. simpl. done. }
  assert (Hnext : handleNext q
                  = if currentPageIndex p <? last
                    then safeGoTo (mkNav 1 false false) (set_lastPageChangeAt t q)
                    else q).
  { unfold handleNext. rewrite Hql, Hqp, Hqb, Hgo. reflexivity. }
  assert (Hprev : handlePrevious q
                  = if 0 <? currentPageIndex p
                    then safeGoTo (mkNav (-1) false false) (set_lastPageChangeAt t q)
                    else q).
  { unfold handlePrevious. rewrite Hql, Hqp, Hgo. reflexivity. }
  split; [|split; [|split; [|split; [|split]]]].
  - rewrite Hnext. destruct (currentPageIndex p <? last); [apply Hturn|done].
  - rewrite Hprev. destruct (0 <? currentPageIndex p); [apply Hturn|done].
  - clearbody q. by destruct q.
  - clearbody q. by destruct q.
  - rewrite Hnext. destruct (currentPageIndex p <? last) eqn:E.
    + apply Z.ltb_lt in E. destruct (Hturn 1) as [-> _]. subst last. lia.
    + rewrite Hqp. lia.
  - rewrite Hprev. destruct (0 <? currentPageIndex p) eqn:E.
    + apply Z.ltb_lt in E. destruct (Hturn (-1)) as [-> _]. lia.
    + rewrite Hqp. lia.
Qed.

Lemma page_buttons_pause_and_stay_in_range_witness :
  at_rest tocando
  ∧ currentPageIndex (handleNext (advance 1000 tocando)) = 8
  ∧ isPlaying (handleNext (advance 1000 tocando)) = false
  ∧ currentPageIndex (handlePrevious (advance 1000 tocando)) = 6.
Proof.
  assert (H1 : at_rest tocando).
  { unfold at_rest. simpl. repeat split; try done. by left. }
  assert (H2 : now tocando + MIN_PAGE_CHANGE_INTERVAL ≤ 1000)
    by (simpl; unfold MIN_PAGE_CHANGE_INTERVAL; lia).
  assert (H3 : 0 ≤ currentPageIndex tocando < total_paginas (bookInfo tocando))
    by (simpl; lia).
  destruct (page_buttons_pause_and_stay_in_range 1000 tocando H1 H2 H3)
    as (Hn & Hp & _).
  simpl in Hn, Hp.
  destruct Hn as (Hn1 & Hn2 & _). destruct Hp as (Hp1 & _).
  split; [exact H1|]. split; [exact Hn1|]. split; [exact Hn2|exact Hp1].
Defined.

End StageLaws.
